(** * pds: a scalable cuckoo filter and a count-min sketch

    A shallow embedding of [cuckoofilter.go] and
    [countminsketch/count_min_sketch.go], and the properties of the two
    structures proved over it.

    Conventions of the embedding.
    - Go's fixed-width unsigned integers are [Z] values kept in range by an
      explicit [wrap]; [uint64(x)] is [u64 x] and so on.
    - A slice is a [list]; reading or writing past its end, and a division
      by zero, is the run-time panic [Panic] of the [result] monad.
    - A method with a pointer receiver that writes takes the structure and
      returns the new one; a pointer to a slot ([*fingerprint]) is the index
      pair of the slot.
    - [math.Pow] is followed only where float64 arithmetic is exact integer
      arithmetic; outside it the model stops with [FloatRange]. *)

From Stdlib Require Import ZArith Lia Bool Strings.Byte.
From stdpp Require Import base tactics option list numbers.

Open Scope Z_scope.

(** ** Machine integers *)

Definition wrap (w x : Z) : Z := x mod 2 ^ w.
Definition u8 : Z -> Z := wrap 8.
Definition u16 : Z -> Z := wrap 16.
Definition u32 : Z -> Z := wrap 32.
Definition u64 : Z -> Z := wrap 64.

(** [int(x)] for a [uint64] [x]: the two's complement reading. *)
Definition int_of_u64 (x : Z) : Z := if x <? 2 ^ 63 then x else x - 2 ^ 64.

(** ** Outcomes of a call *)

Inductive fault : Type :=
| Panic        (* index out of range, integer divide by zero *)
| FloatRange   (* a float64 computation outside its exact range *)
| OutOfFuel.   (* the recursion bound of the embedding was reached *)

Inductive result (A : Type) : Type :=
| Ok (a : A)
| Fail (f : fault).
Arguments Ok {A} a.
Arguments Fail {A} f.

Definition bind {A B : Type} (c : result A) (k : A -> result B) : result B :=
  match c with
  | Ok a => k a
  | Fail f => Fail f
  end.

Notation "'let*' x ':=' c 'in' k" := (bind c (fun x => k))
  (at level 10, x name, c at level 100, k at level 200).
Notation "'let*' ' p ':=' c 'in' k" := (bind c (fun x => let 'p := x in k))
  (at level 10, p pattern, c at level 100, k at level 200).

(** [s[i]] on a slice. *)
Definition idx {A : Type} (l : list A) (i : Z) : result A :=
  match l !! Z.to_nat i with
  | Some x => Ok x
  | None => Fail Panic
  end.

(** [a % b] on unsigned operands. *)
Definition umod (a b : Z) : result Z :=
  if b =? 0 then Fail Panic else Ok (a mod b).

(** ** Data model *)

Definition nullFp : Z := 0.

(** [bucket]: the struct has the single field [slots]. *)
Abbreviation bucket := (list Z).

Record subCF : Type := mkSubCF {
  sBucketNum : Z;
  sBucketSize : Z;
  buckets : list bucket
}.

Record CuckooFilter : Type := mkCF {
  bucketNum : Z;
  bucketSize : Z;
  itemNum : Z;
  deleteNum : Z;
  maxIter : Z;
  expansion : Z;
  filterNum : Z;
  filters : list subCF
}.

Record params : Type := mkParams {
  h1 : Z;
  h2 : Z;
  fp : Z
}.

Definition with_buckets (s : subCF) (bk : list bucket) : subCF :=
  mkSubCF (sBucketNum s) (sBucketSize s) bk.

Definition with_filters (cf : CuckooFilter) (fs : list subCF) : CuckooFilter :=
  mkCF (bucketNum cf) (bucketSize cf) (itemNum cf) (deleteNum cf)
       (maxIter cf) (expansion cf) (filterNum cf) fs.

Definition with_itemNum (cf : CuckooFilter) (n : Z) : CuckooFilter :=
  mkCF (bucketNum cf) (bucketSize cf) n (deleteNum cf)
       (maxIter cf) (expansion cf) (filterNum cf) (filters cf).

Definition with_deleteNum (cf : CuckooFilter) (n : Z) : CuckooFilter :=
  mkCF (bucketNum cf) (bucketSize cf) (itemNum cf) n
       (maxIter cf) (expansion cf) (filterNum cf) (filters cf).

Definition with_filterNum (cf : CuckooFilter) (n : Z) : CuckooFilter :=
  mkCF (bucketNum cf) (bucketSize cf) (itemNum cf) (deleteNum cf)
       (maxIter cf) (expansion cf) n (filters cf).

(** ** Fingerprints and the alternate hash *)

Definition altHash (fp index : Z) : Z :=
  Z.lxor index (u64 (fp * 0x5bd1e995)).

(** The part of [buildParams] after the call of the hash function. *)
Definition paramsOfHash (hash : Z) : params :=
  let fp := u8 (hash mod 255 + 1) in
  mkParams hash (altHash fp hash) fp.

(** ** Methods of bucket *)

Definition makeBucket (size : Z) : bucket := replicate (Z.to_nat size) nullFp.

Definition bucket_find (b : bucket) (fp : Z) : bool :=
  existsb (fun v => v =? fp) b.

(** The first slot equal to [fp] is cleared. *)
Fixpoint bucket_delete (b : bucket) (fp : Z) : bucket * bool :=
  match b with
  | [] => ([], false)
  | v :: r =>
      if v =? fp then (nullFp :: r, true)
      else let '(r', ok) := bucket_delete r fp in (v :: r', ok)
  end.

Definition bucket_count (b : bucket) (fp : Z) : Z :=
  fold_left (fun res v => if v =? fp then u16 (res + 1) else res) b 0.

(** The index of the first empty slot. *)
Fixpoint bucket_findAvailableSlot (b : bucket) : option nat :=
  match b with
  | [] => None
  | v :: r =>
      if v =? nullFp then Some O
      else S <$> bucket_findAvailableSlot r
  end.

(** ** Methods of subCF *)

Definition bucketIndex (s : subCF) (hash : Z) : result Z :=
  let* r := umod (u64 hash) (sBucketNum s) in
  Ok (u32 r).

Definition sub_find (s : subCF) (pr : params) : result bool :=
  let* p1 := bucketIndex s (h1 pr) in
  let* p2 := bucketIndex s (h2 pr) in
  let* b1 := idx (buckets s) p1 in
  if bucket_find b1 (fp pr) then Ok true
  else
    let* b2 := idx (buckets s) p2 in
    Ok (bucket_find b2 (fp pr)).

Definition sub_delete (s : subCF) (pr : params) : result (subCF * bool) :=
  let* p1 := bucketIndex s (h1 pr) in
  let* p2 := bucketIndex s (h2 pr) in
  let* b1 := idx (buckets s) p1 in
  let '(b1', ok1) := bucket_delete b1 (fp pr) in
  if ok1 then Ok (with_buckets s (<[Z.to_nat p1 := b1']> (buckets s)), true)
  else
    let* b2 := idx (buckets s) p2 in
    let '(b2', ok2) := bucket_delete b2 (fp pr) in
    if ok2 then Ok (with_buckets s (<[Z.to_nat p2 := b2']> (buckets s)), true)
    else Ok (s, false).

Definition sub_count (s : subCF) (pr : params) : result Z :=
  let* p1 := bucketIndex s (h1 pr) in
  let* p2 := bucketIndex s (h2 pr) in
  let* b1 := idx (buckets s) p1 in
  let* b2 := idx (buckets s) p2 in
  Ok (u16 (bucket_count b1 (fp pr) + bucket_count b2 (fp pr))).

(** The slot found, as (bucket index, slot index). *)
Definition sub_findAvailableSlot (s : subCF) (pr : params)
  : result (option (Z * nat)) :=
  let* p1 := bucketIndex s (h1 pr) in
  let* p2 := bucketIndex s (h2 pr) in
  let* b1 := idx (buckets s) p1 in
  match bucket_findAvailableSlot b1 with
  | Some i => Ok (Some (p1, i))
  | None =>
      let* b2 := idx (buckets s) p2 in
      match bucket_findAvailableSlot b2 with
      | Some i => Ok (Some (p2, i))
      | None => Ok None
      end
  end.

(** [*slot = v] for the slot [(p, i)] of [s]. *)
Definition set_slot (s : subCF) (p : Z) (i : nat) (v : Z) : subCF :=
  match buckets s !! Z.to_nat p with
  | Some b => with_buckets s (<[Z.to_nat p := <[i := v]> b]> (buckets s))
  | None => s
  end.

(** ** Construction and growth *)

Definition next2N (n : Z) : Z :=
  let n := u64 (n - 1) in
  let n := Z.lor n (Z.shiftr n 1) in
  let n := Z.lor n (Z.shiftr n 2) in
  let n := Z.lor n (Z.shiftr n 4) in
  let n := Z.lor n (Z.shiftr n 8) in
  let n := Z.lor n (Z.shiftr n 16) in
  let n := Z.lor n (Z.shiftr n 32) in
  u64 (n + 1).

(** [uint64(math.Pow(float64(e), float64(n)))] for [uint16] values [e] and
    [n].  float64 holds every integer below [2^53], and the products
    [math.Pow] forms on the way to [e^n] are integers no larger than [e^n]:
    below [2^53] the result is [e^n] itself.  Above it the result is
    rounded, and from [2^64] on the conversion to [uint64] depends on the
    platform; the model does not follow those cases. *)
Definition pow_float_u64 (e n : Z) : result Z :=
  if e ^ n <? 2 ^ 53 then Ok (e ^ n) else Fail FloatRange.

Definition grow (cf : CuckooFilter) : result CuckooFilter :=
  let* growth := pow_float_u64 (expansion cf) (filterNum cf) in
  let bn := u64 (bucketNum cf * growth) in
  let curFilter :=
    mkSubCF bn (bucketSize cf)
            (replicate (Z.to_nat bn) (makeBucket (bucketSize cf))) in
  Ok (with_filterNum (with_filters cf (filters cf ++ [curFilter]))
                     (u16 (filterNum cf + 1))).

Definition NewCuckooFilter (capacity bucketSize maxIter expansion : Z)
  : result CuckooFilter :=
  let* q := (if bucketSize =? 0 then Fail Panic else Ok (capacity / bucketSize)) in
  let bn := next2N q in
  let filter :=
    mkCF (if bn =? 0 then 1 else bn) bucketSize 0 0 maxIter
         (u16 (next2N expansion)) 0 [] in
  grow filter.

(** ** Insertion *)

Inductive cuckooInsertStatus : Type :=
| cuckooInserted
| cuckooAlreadyExist
| cuckooNospace
| cuckooMemAllocFailed.

Definition is_inserted (st : cuckooInsertStatus) : bool :=
  match st with
  | cuckooInserted => true
  | _ => false
  end.

(** How the first loop of [evictAndInsert] ends: with the displaced
    fingerprint written to a free slot, or with [maxIter] used up and the
    loop variables as they stand. *)
Inductive walk : Type :=
| Placed (bk : list bucket)
| Exhausted (bk : list bucket) (p victimIx fp : Z).

(** The first loop of [evictAndInsert], [n] iterations left.  [bucket] of
    the source is the bucket at the index [p] of the start of the iteration:
    the free-slot test and the write through [slot] go to that bucket. *)
Fixpoint evict_walk (n : nat) (bn bs : Z) (bk : list bucket)
    (p victimIx fp : Z) : result walk :=
  match n with
  | O => Ok (Exhausted bk p victimIx fp)
  | S n' =>
      let* b := idx bk p in
      let* old := idx b victimIx in
      let b' := <[Z.to_nat victimIx := fp]> b in
      let bk' := <[Z.to_nat p := b']> bk in
      let* p' := umod (u64 (altHash old (u64 p))) bn in
      match bucket_findAvailableSlot b' with
      | Some i => Ok (Placed (<[Z.to_nat p := <[i := old]> b']> bk'))
      | None =>
          let* v' := umod (u32 (victimIx + 1)) (u32 bs) in
          evict_walk n' bn bs bk' p' v' old
      end
  end.

(** The walk as the specification words it, for comparison: after the
    swap the free-slot test and the write go to the bucket at the newly
    computed index. *)
Fixpoint evict_walk_new_index (n : nat) (bn bs : Z) (bk : list bucket)
    (p victimIx fp : Z) : result walk :=
  match n with
  | O => Ok (Exhausted bk p victimIx fp)
  | S n' =>
      let* b := idx bk p in
      let* old := idx b victimIx in
      let bk' := <[Z.to_nat p := <[Z.to_nat victimIx := fp]> b]> bk in
      let* p' := umod (u64 (altHash old (u64 p))) bn in
      let* c := idx bk' p' in
      match bucket_findAvailableSlot c with
      | Some i => Ok (Placed (<[Z.to_nat p' := <[i := old]> c]> bk'))
      | None =>
          let* v' := umod (u32 (victimIx + 1)) (u32 bs) in
          evict_walk_new_index n' bn bs bk' p' v' old
      end
  end.

(** The second loop of [evictAndInsert]. *)
Fixpoint evict_rollback (n : nat) (bn bs : Z) (bk : list bucket)
    (p victimIx fp : Z) : result (list bucket) :=
  match n with
  | O => Ok bk
  | S n' =>
      let* v' := umod (u32 (victimIx + u32 bs - 1)) (u32 bs) in
      let* p' := umod (u64 (altHash fp (u64 p))) bn in
      let* b := idx bk p' in
      let* old := idx b v' in
      evict_rollback n' bn bs
        (<[Z.to_nat p' := <[Z.to_nat v' := fp]> b]> bk) p' v' old
  end.

(** [evictAndInsert] up to the end of its first loop: the newest filter
    and how the walk in it ended. *)
Definition evict_first_loop (cf : CuckooFilter) (pr : params)
  : result (subCF * walk) :=
  let* curFilter := idx (filters cf) (u16 (filterNum cf - 1)) in
  let* p := umod (u64 (h1 pr)) (sBucketNum curFilter) in
  let* w := evict_walk (Z.to_nat (maxIter cf)) (sBucketNum curFilter)
                       (bucketSize cf) (buckets curFilter) p 0 (fp pr) in
  Ok (curFilter, w).

Definition evictAndInsert (cf : CuckooFilter) (pr : params)
  : result (CuckooFilter * cuckooInsertStatus) :=
  let* '(curFilter, w) := evict_first_loop cf pr in
  let ix := Z.to_nat (u16 (filterNum cf - 1)) in
  match w with
  | Placed bk =>
      Ok (with_filters cf (<[ix := with_buckets curFilter bk]> (filters cf)),
          cuckooInserted)
  | Exhausted bk p victimIx f =>
      let* bk' := evict_rollback (Z.to_nat (maxIter cf)) (sBucketNum curFilter)
                                 (bucketSize cf) bk p victimIx f in
      Ok (with_filters cf (<[ix := with_buckets curFilter bk']> (filters cf)),
          cuckooNospace)
  end.

(** The first loop of [insertFp]: the filters [n-1], ..., [0] in turn. *)
Fixpoint insert_scan (n : nat) (cf : CuckooFilter) (pr : params)
  : result (option CuckooFilter) :=
  match n with
  | O => Ok None
  | S i =>
      let* s := idx (filters cf) (Z.of_nat i) in
      let* r := sub_findAvailableSlot s pr in
      match r with
      | Some (p, j) =>
          Ok (Some (with_itemNum
                      (with_filters cf
                         (<[i := set_slot s p j (fp pr)]> (filters cf)))
                      (u64 (itemNum cf + 1))))
      | None => insert_scan i cf pr
      end
  end.

(** [insertFp] calls itself after [grow]; [fuel] bounds the depth. *)
Fixpoint insertFp (fuel : nat) (cf : CuckooFilter) (pr : params)
  : result (CuckooFilter * cuckooInsertStatus) :=
  match fuel with
  | O => Fail OutOfFuel
  | S fuel' =>
      let* r := insert_scan (Z.to_nat (filterNum cf)) cf pr in
      match r with
      | Some cf' => Ok (cf', cuckooInserted)
      | None =>
          let* '(cf1, st) := evictAndInsert cf pr in
          if is_inserted st
          then Ok (with_itemNum cf1 (u64 (itemNum cf1 + 1)), cuckooInserted)
          else if expansion cf1 =? 0 then Ok (cf1, cuckooNospace)
          else
            let* cf2 := grow cf1 in
            insertFp fuel' cf2 pr
      end
  end.

(** ** Queries *)

Fixpoint exist_scan (fs : list subCF) (pr : params) : result bool :=
  match fs with
  | [] => Ok false
  | s :: r =>
      let* found := sub_find s pr in
      if found then Ok true else exist_scan r pr
  end.

Definition existFp (cf : CuckooFilter) (pr : params) : result bool :=
  exist_scan (filters cf) pr.

Fixpoint count_scan (fs : list subCF) (pr : params) (res : Z) : result Z :=
  match fs with
  | [] => Ok res
  | s :: r =>
      let* c := sub_count s pr in
      count_scan r pr (u64 (res + u64 c))
  end.

(** ** Compaction *)

Definition relocEmpty : Z := 0.
Definition relocOk : Z := 1.
Definition relocFail : Z := -1.

(** The loop of [relocateSlot] over the prior filters [i], [i+1], ...,
    [n] of them left. *)
Fixpoint relocate_into (n : nat) (i : Z) (cf : CuckooFilter) (pr : params)
    (filterIx bIx sIx : Z) : result (CuckooFilter * Z) :=
  match n with
  | O => Ok (cf, relocFail)
  | S n' =>
      let* s := idx (filters cf) i in
      let* r := sub_findAvailableSlot s pr in
      match r with
      | Some (p, j) =>
          let fs1 := <[Z.to_nat i := set_slot s p j (fp pr)]> (filters cf) in
          let* cur := idx fs1 filterIx in
          Ok (with_filters cf
                (<[Z.to_nat filterIx :=
                     set_slot cur bIx (Z.to_nat sIx) nullFp]> fs1),
              relocOk)
      | None => relocate_into n' (i + 1) cf pr filterIx bIx sIx
      end
  end.

Definition relocateSlot (cf : CuckooFilter) (filterIx bIx sIx : Z)
  : result (CuckooFilter * Z) :=
  let* cur := idx (filters cf) filterIx in
  let* b := idx (buckets cur) bIx in
  let* v := idx b sIx in
  if v =? nullFp then Ok (cf, relocEmpty)
  else
    let h := u64 bIx in
    relocate_into (Z.to_nat filterIx) 0 cf (mkParams h (altHash v h) v)
                  filterIx bIx sIx.

(** The inner loop of [compactSingle]: slots [sIx], [sIx+1], ... *)
Fixpoint compact_slots (n : nat) (sIx : Z) (cf : CuckooFilter)
    (filterIx bIx rv : Z) : result (CuckooFilter * Z) :=
  match n with
  | O => Ok (cf, rv)
  | S n' =>
      let* '(cf', r) := relocateSlot cf filterIx bIx sIx in
      compact_slots n' (sIx + 1) cf' filterIx bIx
                    (if r =? relocFail then relocFail else rv)
  end.

(** The outer loop of [compactSingle]: buckets [bIx], [bIx+1], ... *)
Fixpoint compact_buckets (n : nat) (bIx : Z) (ns : nat) (cf : CuckooFilter)
    (filterIx rv : Z) : result (CuckooFilter * Z) :=
  match n with
  | O => Ok (cf, rv)
  | S n' =>
      let* '(cf', rv') := compact_slots ns 0 cf filterIx bIx rv in
      compact_buckets n' (bIx + 1) ns cf' filterIx rv'
  end.

Definition compactSingle (cf : CuckooFilter) (filterIx : Z)
  : result (CuckooFilter * Z) :=
  let* curFilter := idx (filters cf) filterIx in
  let* '(cf1, rv) :=
    compact_buckets (Z.to_nat (int_of_u64 (sBucketNum curFilter))) 0
                    (Z.to_nat (sBucketSize curFilter)) cf filterIx relocOk in
  if (rv =? relocOk) && (filterIx =? u16 (filterNum cf1 - 1))
  then
    Ok (with_filterNum
          (with_filters cf1
             (take (Z.to_nat (u16 (filterNum cf1 - 1))) (filters cf1)))
          (u16 (filterNum cf1 - 1)),
        rv)
  else Ok (cf1, rv).

(** The loop of [compact]: [i] runs from [n] down to [1]. *)
Fixpoint compact_from (n : nat) (cf : CuckooFilter) (cont : bool)
  : result CuckooFilter :=
  match n with
  | O => Ok cf
  | S n' =>
      let* '(cf', rv) := compactSingle cf (Z.of_nat n) in
      if (rv =? relocFail) && negb cont then Ok cf'
      else compact_from n' cf' cont
  end.

Definition compact (cf : CuckooFilter) (cont : bool) : result CuckooFilter :=
  let* cf' := compact_from (Z.to_nat (u16 (filterNum cf - 1))) cf cont in
  Ok (with_deleteNum cf' 0).

(** ** The public operations

    The hash function is the imported [murmur.MurmurHash64A]; the test of
    [Delete] that starts a compaction, [float64(deleteNum) >
    float64(itemNum)*0.1], is a float64 comparison.  Both stay abstract:
    what is proved holds for every hash function and for every outcome of
    the comparison. *)

Inductive op : Type :=
| OpInsert (data : list Byte.byte)
| OpDelete (data : list Byte.byte)
| OpExist (data : list Byte.byte)
| OpCount (data : list Byte.byte).

(** What a call returned: the boolean of [Insert], [Delete] and [Exist],
    or the number of [Count]. *)
Inductive outcome : Type :=
| Done (b : bool)
| Counted (n : Z).

Section Operations.

Variable MurmurHash64A : list Byte.byte -> Z -> Z.
Variable over_tenth : Z -> Z -> bool.

Definition buildParams (data : list Byte.byte) : params :=
  paramsOfHash (u64 (MurmurHash64A data 0)).

Definition Insert (fuel : nat) (cf : CuckooFilter) (data : list Byte.byte)
  : result (CuckooFilter * bool) :=
  let* '(cf', status) := insertFp fuel cf (buildParams data) in
  Ok (cf', match status with
           | cuckooInserted | cuckooAlreadyExist => true
           | _ => false
           end).

(** The loop of [Delete]: the filters [n-1], ..., [0] in turn. *)
Fixpoint delete_scan (n : nat) (cf : CuckooFilter) (pr : params)
  : result (CuckooFilter * bool) :=
  match n with
  | O => Ok (cf, false)
  | S i =>
      let* s := idx (filters cf) (Z.of_nat i) in
      let* '(s', ok) := sub_delete s pr in
      if ok then
        let cf1 :=
          with_deleteNum
            (with_itemNum (with_filters cf (<[i := s']> (filters cf)))
                          (u64 (itemNum cf - 1)))
            (u64 (deleteNum cf + 1)) in
        if (1 <? filterNum cf1) && over_tenth (deleteNum cf1) (itemNum cf1)
        then let* cf2 := compact cf1 false in Ok (cf2, true)
        else Ok (cf1, true)
      else delete_scan i cf pr
  end.

Definition Delete (cf : CuckooFilter) (data : list Byte.byte)
  : result (CuckooFilter * bool) :=
  delete_scan (Z.to_nat (filterNum cf)) cf (buildParams data).

Definition Exist (cf : CuckooFilter) (data : list Byte.byte)
  : result (CuckooFilter * bool) :=
  let* b := existFp cf (buildParams data) in
  Ok (cf, b).

Definition Count (cf : CuckooFilter) (data : list Byte.byte)
  : result (CuckooFilter * Z) :=
  let* n := count_scan (filters cf) (buildParams data) 0 in
  Ok (cf, n).

(** One call, and a sequence of calls with what each returned. *)
Definition apply_op (fuel : nat) (cf : CuckooFilter) (o : op)
  : result (CuckooFilter * outcome) :=
  match o with
  | OpInsert d => let* '(cf', b) := Insert fuel cf d in Ok (cf', Done b)
  | OpDelete d => let* '(cf', b) := Delete cf d in Ok (cf', Done b)
  | OpExist d => let* '(cf', b) := Exist cf d in Ok (cf', Done b)
  | OpCount d => let* '(cf', n) := Count cf d in Ok (cf', Counted n)
  end.

Fixpoint run (fuel : nat) (cf : CuckooFilter) (ops : list op)
  : result (CuckooFilter * list outcome) :=
  match ops with
  | [] => Ok (cf, [])
  | o :: rest =>
      let* '(cf1, out) := apply_op fuel cf o in
      let* '(cf', outs) := run fuel cf1 rest in
      Ok (cf', out :: outs)
  end.

End Operations.

(** ** Well-formed filters

    What [NewCuckooFilter] establishes and every operation keeps: slice
    lengths agree with the size fields, the bucket counts are powers of two
    below [2^64], and [filterNum] is the number of filters as a [uint16]
    holds it. *)

Definition is_pow2 (n : Z) : Prop := 0 < n /\ n = 2 ^ Z.log2 n.

Definition wf_sub (bs : Z) (s : subCF) : Prop :=
  sBucketSize s = bs /\
  is_pow2 (sBucketNum s) /\
  sBucketNum s < 2 ^ 64 /\
  Z.of_nat (length (buckets s)) = sBucketNum s /\
  Forall (fun b : bucket => Z.of_nat (length b) = bs) (buckets s).

Definition wf (cf : CuckooFilter) : Prop :=
  (1 <= bucketSize cf < 2 ^ 16) /\
  (0 <= maxIter cf < 2 ^ 16) /\
  (0 <= expansion cf < 2 ^ 16) /\
  (expansion cf = 0 \/ is_pow2 (expansion cf)) /\
  is_pow2 (bucketNum cf) /\
  bucketNum cf < 2 ^ 64 /\
  (1 <= length (filters cf))%nat /\
  filterNum cf = u16 (Z.of_nat (length (filters cf))) /\
  Forall (wf_sub (bucketSize cf)) (filters cf).

#[global] Instance is_pow2_dec n : Decision (is_pow2 n).
Proof. unfold is_pow2. apply _. Defined.

#[global] Instance wf_sub_dec bs s : Decision (wf_sub bs s).
Proof. unfold wf_sub. apply _. Defined.

#[global] Instance wf_dec cf : Decision (wf cf).
Proof. unfold wf. apply _. Defined.

(** ** The count-min sketch

    [uint] is 32 or 64 bits wide, by platform: the width is [uintBits]. *)

Module CountMinSketch.

Record CMS : Type := mkCMS {
  width : Z;
  depth : Z;
  counter : Z;
  cells : list (list Z)
}.

Section Sketch.

Variable uintBits : Z.
Variable MurmurHash64A : list Byte.byte -> Z -> Z.

Definition uint (x : Z) : Z := wrap uintBits x.
Definition MaxUint : Z := 2 ^ uintBits - 1.

Definition hash (data : list Byte.byte) (seed : Z) : Z :=
  uint (u64 (MurmurHash64A data seed)).

(** The loop of [IncrBy] from row [i] on; [rows] are the rows [i],
    [i+1], ... *)
Fixpoint incr_rows (w : Z) (rows : list (list Z)) (i : Z)
    (data : list Byte.byte) (val minCount : Z)
  : result (list (list Z) * Z) :=
  match rows with
  | [] => Ok ([], minCount)
  | row :: rest =>
      let* h := umod (hash data (u64 i)) w in
      let* c := idx row h in
      let c1 := uint (c + val) in
      let c2 := if c1 <? val then MaxUint else c1 in
      let* '(rest', m) :=
        incr_rows w rest (i + 1) data val (Z.min minCount c2) in
      Ok (<[Z.to_nat h := c2]> row :: rest', m)
  end.

Definition IncrBy (cms : CMS) (data : list Byte.byte) (val : Z)
  : result (CMS * Z) :=
  let* '(cells', m) := incr_rows (width cms) (cells cms) 0 data val MaxUint in
  Ok (mkCMS (width cms) (depth cms) (uint (counter cms + val)) cells', m).

(** The loop of [Query] from row [i] on. *)
Fixpoint query_rows (w : Z) (rows : list (list Z)) (i : Z)
    (data : list Byte.byte) (minCount : Z) : result Z :=
  match rows with
  | [] => Ok minCount
  | row :: rest =>
      let* h := umod (hash data (u64 i)) w in
      let* c := idx row h in
      query_rows w rest (i + 1) data (Z.min minCount c)
  end.

Definition Query (cms : CMS) (data : list Byte.byte) : result Z :=
  query_rows (width cms) (cells cms) 0 data MaxUint.

(** The cell of [data] in row [i] of a sketch of width [w]. *)
Definition cell (w : Z) (data : list Byte.byte) (i : Z) : nat :=
  Z.to_nat (hash data (u64 i) mod w).

(** The saturating sum. *)
Definition sat_add (c val : Z) : Z := Z.min (c + val) MaxUint.

(** A sketch as [New] builds it: every row has [width] cells, each a [uint]. *)
Definition wf_cms (cms : CMS) : Prop :=
  0 < width cms /\
  Forall (fun row : list Z =>
            Z.of_nat (length row) = width cms /\
            Forall (fun c => 0 <= c < 2 ^ uintBits) row) (cells cms).

#[global] Instance wf_cms_dec cms : Decision (wf_cms cms).
Proof. unfold wf_cms. apply _. Defined.

(** [dimFromProb] computes the two dimensions with [math.Ceil] and
    [math.Log10] on [float64] values; here it is a parameter, with the pair
    of [uint]s it returns. *)
Variable float64 : Type.
Variable dimFromProb : float64 -> float64 -> Z * Z.

(** [New] returns the sketch, or [None] where the source returns an error. *)
Definition New (overEst prob : float64) : option CMS :=
  let '(width, depth) := dimFromProb overEst prob in
  if (width <=? 0) || (depth <=? 0) then None
  else if width >? MaxUint / depth then None
  else Some (mkCMS width depth 0
               (replicate (Z.to_nat depth) (replicate (Z.to_nat width) 0))).

End Sketch.

End CountMinSketch.

(** * Notions the properties are stated with *)

(** ** Bucket indices and candidate buckets *)

(** The bucket index the walk moves to from [p] with fingerprint [f]. *)
Definition alt_index (bn f p : Z) : Z := u64 (altHash f (u64 p)) mod bn.

(** The shape of the bucket slice of a well-formed filter. *)
Definition shape (bn bs : Z) (bk : list bucket) : Prop :=
  Z.of_nat (length bk) = bn /\
  Forall (fun b : bucket => Z.of_nat (length b) = bs) bk.

(** Parameters as [buildParams] makes them: the second hash is the
    alternate of the first, and the fingerprint is not the empty slot. *)
Definition keyed (pr : params) : Prop :=
  h2 pr = altHash (fp pr) (h1 pr) /\ fp pr <> nullFp.

(** [p] is the index of a candidate bucket of [pr] among [bn] buckets. *)
Definition cand_ix (bn : Z) (pr : params) (p : Z) : Prop :=
  p = u64 (h1 pr) mod bn \/ p = u64 (h2 pr) mod bn.

(** The fingerprint of [pr] is in one of the two buckets of [s] that
    [find] looks at. *)
Definition holds (s : subCF) (pr : params) : Prop :=
  exists p b,
    (bucketIndex s (h1 pr) = Ok p \/ bucketIndex s (h2 pr) = Ok p) /\
    buckets s !! Z.to_nat p = Some b /\ fp pr ∈ b.

(** The fingerprint of [pr] is in a candidate bucket of the slice [bk]. *)
Definition holds_bk (bn : Z) (bk : list bucket) (pr : params) : Prop :=
  exists p b, cand_ix bn pr p /\ bk !! Z.to_nat p = Some b /\ fp pr ∈ b.

(** During the walk a key is covered if its fingerprint is in a candidate
    bucket, or is the fingerprint in hand on its way to one. *)
Definition covered (bn : Z) (bk : list bucket) (p f : Z) (q : params) : Prop :=
  holds_bk bn bk q \/ (f = fp q /\ cand_ix bn q p).

(** ** Generations *)

(** The bucket counts of the generations, oldest first. *)
Definition bucketNums (cf : CuckooFilter) : list Z :=
  sBucketNum <$> filters cf.

(** The fingerprint of [q] is in a candidate bucket of some generation. *)
Definition stored (cf : CuckooFilter) (q : params) : Prop :=
  exists s, s ∈ filters cf /\ holds s q.

(** Every generation has at least one and at most [2^32] buckets: the
    indices [bucketIndex] returns, of type [uint32], reach every bucket. *)
Definition addressable (cf : CuckooFilter) : Prop :=
  Forall (fun n => 0 < n <= 2 ^ 32) (bucketNums cf).

#[global] Instance addressable_dec cf : Decision (addressable cf).
Proof. unfold addressable. apply _. Defined.

(** The filter has at most 65535 generations, so that [filterNum], a
    [uint16], is their number, and each has at most [2^32] buckets, so that
    [itemNum], a [uint64], can count all slots. *)
Definition limits (cf : CuckooFilter) : Prop :=
  Z.of_nat (length (filters cf)) <= 65535 /\
  Forall (fun n => n <= 2 ^ 32) (bucketNums cf).

#[global] Instance limits_dec cf : Decision (limits cf).
Proof. unfold limits. apply _. Defined.

(** No number of the list is larger than a later one. *)
Fixpoint non_decreasing (l : list Z) : Prop :=
  match l with
  | [] => True
  | a :: r => Forall (Z.le a) r /\ non_decreasing r
  end.

#[global] Instance non_decreasing_dec l : Decision (non_decreasing l).
Proof. induction l; simpl; apply _. Defined.

(** No generation has more buckets than a newer one. *)
Definition ascending (cf : CuckooFilter) : Prop :=
  non_decreasing (bucketNums cf).

#[global] Instance ascending_dec cf : Decision (ascending cf).
Proof. unfold ascending. apply _. Defined.

(** Generation [i] has [bucketNum * expansion ^ i] buckets. *)
Definition geometric (cf : CuckooFilter) : Prop :=
  forall (i : nat) n,
    bucketNums cf !! i = Some n -> n = bucketNum cf * expansion cf ^ Z.of_nat i.

(** The filter [grow] appends when the new bucket count is [bn]. *)
Definition empty_subCF (bn bs : Z) : subCF :=
  mkSubCF bn bs (replicate (Z.to_nat bn) (makeBucket bs)).

(** ** Rounding up to a power of two *)

(** Whether one of the [n] bits of [x] from position [i] up is set. *)
Definition bits_from (x i : Z) (n : nat) : bool :=
  existsb (fun d => Z.testbit x (i + Z.of_nat d)) (seq 0 n).

(** The six lines [n |= n >> s] of [next2N]. *)
Definition smear (n : Z) : Z :=
  let n := Z.lor n (Z.shiftr n 1) in
  let n := Z.lor n (Z.shiftr n 2) in
  let n := Z.lor n (Z.shiftr n 4) in
  let n := Z.lor n (Z.shiftr n 8) in
  let n := Z.lor n (Z.shiftr n 16) in
  Z.lor n (Z.shiftr n 32).

(** [n] is the least power of two that is at least [q]. *)
Definition least_pow2_geq (q n : Z) : Prop :=
  (exists k, 0 <= k /\ n = 2 ^ k) /\
  q <= n /\
  forall j, 0 <= j -> q <= 2 ^ j -> n <= 2 ^ j.

(** The base bucket count [NewCuckooFilter] derives from the quotient. *)
Definition base_bucketNum (q : Z) : Z :=
  if next2N q =? 0 then 1 else next2N q.

(** ** Occupied slots *)

Definition sumZ {A : Type} (f : A -> Z) (l : list A) : Z :=
  foldr (fun x acc => f x + acc) 0 l.

(** 1 for a slot that holds a fingerprint, 0 for an empty one. *)
Definition occ_slot (v : Z) : Z := if v =? nullFp then 0 else 1.

(** The slots of a bucket, of a generation, of the filter that hold a
    fingerprint. *)
Definition occ (b : bucket) : Z := sumZ occ_slot b.
Definition occ_sub (s : subCF) : Z := sumZ occ (buckets s).
Definition occupied (cf : CuckooFilter) : Z := sumZ occ_sub (filters cf).

(** The slot [si] of bucket [bi] of generation [fi]. *)
Definition slot_at (cf : CuckooFilter) (fi bi si : nat) : option Z :=
  match filters cf !! fi with
  | Some s =>
      match buckets s !! bi with
      | Some b => b !! si
      | None => None
      end
  | None => None
  end.

(** What relocating slots of generation [fi] does to the filter: only
    slots change, the count of occupied slots stays, and an empty slot of
    generation [fi] stays empty. *)
Definition moved (fi : nat) (cf cf' : CuckooFilter) : Prop :=
  wf cf' /\
  cf' = with_filters cf (filters cf') /\
  bucketNums cf' = bucketNums cf /\
  occupied cf' = occupied cf /\
  forall bi si, slot_at cf fi bi si = Some nullFp ->
                slot_at cf' fi bi si = Some nullFp.

(** ** Sequences of calls *)

Definition is_delete (o : op) : bool :=
  match o with
  | OpDelete _ => true
  | _ => false
  end.

Section Reachability.

Variable MurmurHash64A : list Byte.byte -> Z -> Z.
Variable over_tenth : Z -> Z -> bool.

(** The filters reached from [NewCuckooFilter] by calls of [Insert],
    [Delete], [Exist] and [Count] that return, with every filter on the
    way within the [limits]. *)
Inductive reachable : CuckooFilter -> Prop :=
| reach_new capacity bs mi e cf :
    0 <= capacity < 2 ^ 64 -> 0 <= bs < 2 ^ 16 ->
    0 <= mi < 2 ^ 16 -> 0 <= e < 2 ^ 16 ->
    NewCuckooFilter capacity bs mi e = Ok cf ->
    limits cf ->
    reachable cf
| reach_call fuel cf o cf' out :
    reachable cf ->
    apply_op MurmurHash64A over_tenth fuel cf o = Ok (cf', out) ->
    limits cf' ->
    reachable cf'.

End Reachability.

(** * Examples *)

(** A hash function for the examples: the bytes of the key as a
    little-endian number, whatever the seed. *)
Fixpoint le_value (data : list Byte.byte) : Z :=
  match data with
  | [] => 0
  | b :: r => Z.of_N (Byte.to_N b) + 256 * le_value r
  end.

Definition le_hash (data : list Byte.byte) (seed : Z) : Z := le_value data.

(** The test [float64(d) > float64(n)*0.1] of [Delete], on integers. *)
Definition tenth (d n : Z) : bool := n <? 10 * d.

(** ** Small filters *)

(** A state in which the walk is exhausted after one swap. *)
Definition full_single : CuckooFilter :=
  mkCF 1 1 1 0 1 0 1 [mkSubCF 1 1 [[5]]].

(** The filter after [NewCuckooFilter 2 1 1 1] and the insertion of keys
    of hash 256, 258 and 1: two filters, the candidate bucket 1 of the newest
    full, bucket 1 of the oldest empty. *)
Definition two_filters : CuckooFilter :=
  mkCF 2 1 3 0 1 1 2 [mkSubCF 2 1 [[2]; [0]]; mkSubCF 2 1 [[4]; [2]]].

(** [two_filters] after [compact]: the fingerprint of bucket 1 of the
    newest filter has moved to the oldest. *)
Definition two_filters_compacted : CuckooFilter :=
  mkCF 2 1 3 0 1 1 2 [mkSubCF 2 1 [[2]; [2]]; mkSubCF 2 1 [[4]; [0]]].

(** [two_filters] after the deletion of the key of hash 256: the call has
    compacted, and the newest filter is gone. *)
Definition two_filters_deleted : CuckooFilter :=
  mkCF 2 1 2 0 1 1 1 [mkSubCF 2 1 [[4]; [2]]].

(** [two_filters] after the insertion of a key of hash 3. *)
Definition two_filters_after : CuckooFilter :=
  mkCF 2 1 4 0 1 1 2 [mkSubCF 2 1 [[2]; [4]]; mkSubCF 2 1 [[4]; [2]]].

(** The filter built by [NewCuckooFilter 2 1 1 0] after the insertion of a
    key of hash 259 (fingerprint 5, placed in bucket 1), and the parameters
    of a key of hash 1: fingerprint 2, both candidate buckets are bucket 1. *)
Definition one_in_bucket1 : CuckooFilter :=
  mkCF 2 1 1 0 1 0 1 [mkSubCF 2 1 [[0]; [5]]].

(** [NewCuckooFilter 2 1 3 0]: two one-slot buckets, three eviction
    attempts, no growth. *)
Definition two_buckets : CuckooFilter :=
  mkCF 2 1 0 0 3 0 1 [mkSubCF 2 1 [[0]; [0]]].

(** [two_buckets] after [Insert] of the key of hash 259. *)
Definition two_buckets_one : CuckooFilter :=
  mkCF 2 1 1 0 3 0 1 [mkSubCF 2 1 [[0]; [5]]].

(** After [Insert] of the keys of hash 259 and 1: the second insertion
    evicted fingerprint 5 from bucket 1 to its alternate bucket 0. *)
Definition two_buckets_full : CuckooFilter :=
  mkCF 2 1 2 0 3 0 1 [mkSubCF 2 1 [[5]; [2]]].

(** The filter after [NewCuckooFilter 2 1 1 1], [Insert] of the keys of
    hash 256, 258, 1 and 3, and [Delete] of the key of hash 3, which starts
    a compaction that moves one fingerprint to the oldest generation. *)
Definition after_delete : CuckooFilter :=
  mkCF 2 1 3 0 1 1 2 [mkSubCF 2 1 [[2]; [2]]; mkSubCF 2 1 [[4]; [0]]].


(** ** A run past 65535 generations *)

(** Generations of two one-slot buckets: with the fingerprint 2 in bucket
    0, in both buckets, and in none. *)
Definition gen_low : subCF := mkSubCF 2 1 [[2]; [0]].
Definition gen_both : subCF := mkSubCF 2 1 [[2]; [2]].
Definition gen_none : subCF := mkSubCF 2 1 [[0]; [0]].

(** Two keys of fingerprint 2: both candidate buckets of the first are
    bucket 0, both of the second are bucket 1. *)
Definition key_low : list Byte.byte := [x00; x01].
Definition key_high : list Byte.byte := [x01].

(** The parameters [buildParams] derives for the two keys. *)
Definition pr_low : params := mkParams 256 3080966698 2.
Definition pr_high : params := mkParams 1 3080966955 2.

(** [NewCuckooFilter 2 1 2 1]. *)
Definition fresh : CuckooFilter := mkCF 2 1 0 0 2 1 1 [gen_none].

(** [m] generations that hold the first key. *)
Definition stacked (m : nat) : CuckooFilter :=
  mkCF 2 1 (Z.of_nat m) 0 2 1 (Z.of_nat m) (replicate m gen_low).

(** The filter once [filterNum] has wrapped to 0: [n] items, the
    generations [pre] and the generation [last] the walk works on. *)
Definition past_limit (n : Z) (pre : list subCF) (last : subCF) : CuckooFilter :=
  mkCF 2 1 n 0 2 1 0 (pre ++ [last]).

(** The filter at [filterNum] 1 after the wrap, with [d] deletions
    counted: the second key is in the oldest generation. *)
Definition cycling (d : Z) (tl : list subCF) : CuckooFilter :=
  mkCF 2 1 65538 d 2 1 1 (gen_both :: tl).

(** 65536 insertions of the first key, two of the second, 6552 times a
    deletion and an insertion of the second, then an insertion and a
    deletion of the second and a deletion of the first. *)
Definition wrap_ops : list op :=
  replicate (Z.to_nat 65536) (OpInsert key_low) ++
  [OpInsert key_high; OpInsert key_high] ++
  concat (replicate (Z.to_nat 6552) [OpDelete key_high; OpInsert key_high]) ++
  [OpInsert key_high; OpDelete key_high; OpDelete key_low].

(** The filter the run ends in. *)
Definition cut_short : CuckooFilter := mkCF 2 1 65537 0 2 1 1 [gen_both].

(** ** A generation of [2^33] buckets *)

(** Three keys: of hash 0 (fingerprint 1, first candidate bucket 0), of
    hash [0xb7a3d32a] (fingerprint 90, first candidate that bucket), and of
    hash [2^32] (fingerprint 2; [bucketIndex] gives the candidates 0 and
    [0xb7a3d32a]). *)
Definition key_a : list Byte.byte := [x00].
Definition key_b : list Byte.byte := [x2a; xd3; xa3; xb7].
Definition key_c : list Byte.byte := [x00; x00; x00; x00; x01].

(** The parameters [buildParams] derives for the three keys. *)
Definition pr_a : params := mkParams 0 1540483477 1.
Definition pr_b : params := mkParams 3080966954 141472812360 90.
Definition pr_c : params := mkParams 4294967296 7375934250 2.

(** One generation of [2^33] one-slot buckets with the bucket slice [bk],
    [n] items, and no growth. *)
Definition wide (n : Z) (bk : list bucket) : CuckooFilter :=
  mkCF (2 ^ 33) 1 n 0 2 0 1 [mkSubCF (2 ^ 33) 1 bk].

(** The bucket slice [bk0] after the three insertions: fingerprint 1 in
    bucket 0, fingerprint 90 in bucket [ib], and fingerprint 2 written to
    bucket [ic] by the two iterations of the walk. *)
Definition bk_a (bk0 : list bucket) : list bucket := <[Z.to_nat 0 := [1]]> bk0.
Definition bk_b (bk0 : list bucket) (ib : Z) : list bucket :=
  <[Z.to_nat ib := [90]]> (bk_a bk0).
Definition bk_c (bk0 : list bucket) (ib ic : Z) : list bucket :=
  <[Z.to_nat ic := [2]]>
    (<[Z.to_nat ic := [nullFp]]> (<[Z.to_nat ic := [2]]> (bk_b bk0 ib))).

(** ** A sketch *)

(** A sketch of two rows of three cells; the last cell of the first row is
    one below the largest 64-bit [uint]. *)
Definition small_sketch : CountMinSketch.CMS :=
  CountMinSketch.mkCMS 3 2 0 [[0; 7; 2 ^ 64 - 2]; [4; 0; 0]].

(** ** Sequences of increments *)

#[global] Instance byte_eq_dec : EqDecision Byte.byte := Byte.byte_eq_dec.

Section Increments.

Variable uintBits : Z.
Variable MurmurHash64A : list Byte.byte -> Z -> Z.

(** The calls [IncrBy data val] for the pairs of [ops], in order. *)
Fixpoint incr_all (cms : CountMinSketch.CMS) (ops : list (list Byte.byte * Z))
  : result CountMinSketch.CMS :=
  match ops with
  | [] => Ok cms
  | (data, val) :: rest =>
      let* '(cms', _) :=
        CountMinSketch.IncrBy uintBits MurmurHash64A cms data val in
      incr_all cms' rest
  end.

(** Every cell of a key [k] lies between the amount [lo k] and the amount
    [hi], both saturated at the largest [uint]. *)
Definition between (cms : CountMinSketch.CMS) (lo : list Byte.byte -> Z)
    (hi : Z) : Prop :=
  forall (j : nat) row k c,
    CountMinSketch.cells cms !! j = Some row ->
    row !! CountMinSketch.cell uintBits MurmurHash64A
             (CountMinSketch.width cms) k (Z.of_nat j) = Some c ->
    Z.min (lo k) (CountMinSketch.MaxUint uintBits) <= c
    <= Z.min hi (CountMinSketch.MaxUint uintBits).

End Increments.

(** The amounts [ops] add for the key [data], and for all keys. *)
Definition added (ops : list (list Byte.byte * Z)) (data : list Byte.byte) : Z :=
  sumZ (fun o : list Byte.byte * Z =>
          if bool_decide (o.1 = data) then o.2 else 0) ops.

Definition added_all (ops : list (list Byte.byte * Z)) : Z :=
  sumZ (fun o : list Byte.byte * Z => o.2) ops.

(** Dimensions for the examples: two rows of three cells, whatever the
    two probabilities. *)
Definition three_by_two (overEst prob : unit) : Z * Z := (3, 2).

(** Three increments, two of them for the same key, whose amounts add up
    to more than the largest 64-bit [uint]. *)
Definition some_increments : list (list Byte.byte * Z) :=
  [([x01], 5); ([x02], 7); ([x01], 2 ^ 64 - 3)].

(** ** Occurrences *)

(** How many slots of [b] hold [f]. *)
Definition occurrences (b : bucket) (f : Z) : Z :=
  sumZ (fun v => if v =? f then 1 else 0) b.

(** * Properties *)

(** * Basic facts *)

Lemma wrap_range w x : 0 <= w -> 0 <= wrap w x < 2 ^ w.
Proof.
  intros Hw. unfold wrap. apply Z.mod_pos_bound.
  apply Z.pow_pos_nonneg; lia.
Qed.

Lemma wrap_small w x : 0 <= x < 2 ^ w -> wrap w x = x.
Proof. intros H. unfold wrap. apply Z.mod_small. exact H. Qed.

Lemma u64_small x : 0 <= x < 2 ^ 64 -> u64 x = x.
Proof. apply wrap_small. Qed.

Lemma u32_small x : 0 <= x < 2 ^ 32 -> u32 x = x.
Proof. apply wrap_small. Qed.

Lemma u16_small x : 0 <= x < 2 ^ 16 -> u16 x = x.
Proof. apply wrap_small. Qed.

Lemma bind_Ok {A B : Type} (c : result A) (k : A -> result B) (b : B) :
  bind c k = Ok b -> exists a, c = Ok a /\ k a = Ok b.
Proof. destruct c; simpl; [eauto | discriminate]. Qed.

Lemma idx_Ok {A : Type} (l : list A) (i : Z) (x : A) :
  idx l i = Ok x <-> l !! Z.to_nat i = Some x.
Proof.
  unfold idx. destruct (l !! Z.to_nat i); split; intros H;
    try discriminate; congruence.
Qed.

Lemma umod_Ok a b r : umod a b = Ok r <-> b <> 0 /\ r = a mod b.
Proof.
  unfold umod. destruct (Z.eqb_spec b 0); split.
  - discriminate.
  - intros [? _]. contradiction.
  - intros [= <-]. auto.
  - intros [_ ->]. reflexivity.
Qed.

(** Peel the binds of a hypothesis [... = Ok _]. *)
Ltac inv_ok H :=
  repeat match type of H with
  | bind _ _ = Ok _ =>
      let a := fresh "a" in
      let Ha := fresh "E" in
      apply bind_Ok in H; destruct H as (a & Ha & H); simpl in H
  end.

Lemma is_pow2_exp n : is_pow2 n -> n < 2 ^ 64 ->
  exists k, 0 <= k < 64 /\ n = 2 ^ k.
Proof.
  intros [Hpos Heq] Hlt. exists (Z.log2 n). split; [|exact Heq].
  split; [apply Z.log2_nonneg|].
  apply (Z.pow_lt_mono_r_iff 2); [lia | lia | rewrite <- Heq; exact Hlt].
Qed.

Lemma pow2_is_pow2 k : 0 <= k -> is_pow2 (2 ^ k).
Proof.
  intros Hk. split; [apply Z.pow_pos_nonneg; lia|].
  rewrite Z.log2_pow2 by lia. reflexivity.
Qed.

(** * The alternate hash is an involution on bucket indices *)

Lemma lxor_mod_pow2 a b k :
  0 <= k -> Z.lxor a b mod 2 ^ k = Z.lxor (a mod 2 ^ k) (b mod 2 ^ k).
Proof.
  intros Hk. rewrite <- !Z.land_ones by lia.
  apply Z.bits_inj'. intros i Hi.
  rewrite ?Z.lxor_spec, ?Z.land_spec, ?Z.lxor_spec.
  destruct (Z.testbit a i), (Z.testbit b i), (Z.testbit (Z.ones k) i);
    reflexivity.
Qed.

Lemma mod_mod_pow2 x j k : 0 <= k <= j -> (x mod 2 ^ j) mod 2 ^ k = x mod 2 ^ k.
Proof.
  intros H. apply Z.mod_mod_divide.
  exists (2 ^ (j - k)). rewrite <- Z.pow_add_r by lia. f_equal. lia.
Qed.

Lemma alt_index_eq k f p :
  0 <= k < 64 -> 0 <= p < 2 ^ k ->
  alt_index (2 ^ k) f p = Z.lxor p (u64 (f * 0x5bd1e995) mod 2 ^ k).
Proof.
  intros Hk Hp. unfold alt_index, altHash.
  assert (2 ^ k < 2 ^ 64) by (apply Z.pow_lt_mono_r; lia).
  rewrite (u64_small p) by lia.
  unfold u64 at 1. unfold wrap. rewrite mod_mod_pow2 by lia.
  rewrite lxor_mod_pow2 by lia. rewrite (Z.mod_small p) by lia. reflexivity.
Qed.

Lemma alt_index_range bn f p : 0 < bn -> 0 <= alt_index bn f p < bn.
Proof. intros H. apply Z.mod_pos_bound. exact H. Qed.

Lemma alt_index_invol k f p :
  0 <= k < 64 -> 0 <= p < 2 ^ k ->
  alt_index (2 ^ k) f (alt_index (2 ^ k) f p) = p.
Proof.
  intros Hk Hp.
  assert (0 < 2 ^ k) by (apply Z.pow_pos_nonneg; lia).
  rewrite (alt_index_eq k f (alt_index _ _ _)) by (auto using alt_index_range).
  rewrite alt_index_eq by auto.
  rewrite Z.lxor_assoc, Z.lxor_nilpotent, Z.lxor_0_r. reflexivity.
Qed.

(** * Eviction: the walk and its rollback *)

Lemma shape_insert bn bs bk p b :
  shape bn bs bk -> Z.of_nat (length b) = bs -> shape bn bs (<[p := b]> bk).
Proof.
  intros [Hl Hf] Hb. split.
  - rewrite length_insert. exact Hl.
  - apply Forall_insert; assumption.
Qed.

Lemma shape_lookup bn bs bk p :
  shape bn bs bk -> 0 <= p < bn ->
  exists b, bk !! Z.to_nat p = Some b /\ Z.of_nat (length b) = bs.
Proof.
  intros [Hl Hf] Hp.
  destruct (lookup_lt_is_Some_2 bk (Z.to_nat p)) as [b Hb]; [lia|].
  exists b. split; [exact Hb|].
  rewrite Forall_lookup in Hf. exact (Hf _ _ Hb).
Qed.

Lemma victim_next bs v :
  1 <= bs < 2 ^ 16 -> 0 <= v < bs ->
  0 <= u32 (v + 1) mod u32 bs < bs /\
  u32 (u32 (v + 1) mod u32 bs + u32 bs - 1) mod u32 bs = v.
Proof.
  intros Hbs Hv.
  rewrite (u32_small bs), (u32_small (v + 1)) by lia.
  destruct (decide (v + 1 = bs)) as [Heq|Hne].
  - rewrite Heq. rewrite Z.mod_same by lia. rewrite u32_small by lia.
    split; [lia|]. rewrite Z.mod_small; lia.
  - rewrite (Z.mod_small (v + 1)) by lia. rewrite u32_small by lia.
    split; [lia|].
    replace (v + 1 + bs - 1) with (v + 1 * bs) by lia.
    rewrite Z.mod_add by lia. apply Z.mod_small. lia.
Qed.

(** A walk that uses up its iterations is undone by as many iterations of
    the rollback loop, which then stands where the walk began. *)
Lemma evict_walk_rollback k bs n :
  0 <= k < 64 -> 1 <= bs < 2 ^ 16 ->
  forall bk p v f bk' p' v' f' m,
    0 <= p < 2 ^ k -> 0 <= v < bs ->
    evict_walk n (2 ^ k) bs bk p v f = Ok (Exhausted bk' p' v' f') ->
    evict_rollback (n + m) (2 ^ k) bs bk' p' v' f' =
    evict_rollback m (2 ^ k) bs bk p v f.
Proof.
  intros Hk Hbs.
  assert (Hbn : 0 < 2 ^ k) by (apply Z.pow_pos_nonneg; lia).
  induction n as [|n IH]; intros bk p v f bk' p' v' f' m Hp Hv Hw.
  - simpl in Hw. injection Hw as <- <- <- <-. reflexivity.
  - simpl in Hw. inv_ok Hw.
    rename a into b, a0 into old, a1 into p1.
    apply idx_Ok in E, E0. apply umod_Ok in E1 as [_ Ep1].
    fold (alt_index (2 ^ k) old p) in Ep1.
    destruct (bucket_findAvailableSlot _); [discriminate|].
    inv_ok Hw. rename a into v1. apply umod_Ok in E1 as [_ Ev1].
    destruct (victim_next bs v Hbs Hv) as [Hv1 Hback].
    rewrite <- Ev1 in Hv1, Hback.
    assert (Hp1 : 0 <= p1 < 2 ^ k) by (subst p1; apply alt_index_range; lia).
    replace (S n + m)%nat with (n + S m)%nat by lia.
    rewrite (IH _ _ _ _ _ _ _ _ (S m) Hp1 Hv1 Hw).
    cbn [evict_rollback].
    assert (Hum : forall a c, c <> 0 -> umod a c = Ok (a mod c)).
    { intros a c Hc. apply umod_Ok. auto. }
    rewrite Hum by (rewrite u32_small; lia). rewrite Hback. simpl.
    rewrite Hum by lia. fold (alt_index (2 ^ k) old p1).
    rewrite Ep1, alt_index_invol by assumption. simpl.
    assert (Hpl : (Z.to_nat p < length bk)%nat)
      by (apply lookup_lt_is_Some; eauto).
    assert (Hvl : (Z.to_nat v < length b)%nat)
      by (apply lookup_lt_is_Some; eauto).
    unfold idx at 1. rewrite list_lookup_insert_eq by exact Hpl. simpl.
    unfold idx at 1. rewrite list_lookup_insert_eq by exact Hvl. simpl.
    rewrite !list_insert_insert_eq.
    rewrite (list_insert_id b) by exact E0.
    rewrite (list_insert_id bk) by exact E.
    reflexivity.
Qed.

Ltac wf_split H :=
  let Hbs := fresh "Hbs" in
  let Hmi := fresh "Hmi" in
  let Hex := fresh "Hex" in
  let Hexp := fresh "Hexp" in
  let Hbnp := fresh "Hbnp" in
  let Hbn := fresh "Hbn" in
  let Hfn := fresh "Hfn" in
  let Hlen := fresh "Hlen" in
  let Hfs := fresh "Hfs" in
  destruct H as (Hbs & Hmi & Hex & Hexp & Hbnp & Hbn & Hfn & Hlen & Hfs).

Lemma wf_sub_shape bs s :
  wf_sub bs s ->
  exists k, 0 <= k < 64 /\ sBucketNum s = 2 ^ k /\ shape (2 ^ k) bs (buckets s).
Proof.
  intros (Hs & Hp & Hlt & Hl & Hf).
  destruct (is_pow2_exp _ Hp Hlt) as (k & Hk & Heq).
  exists k. split; [exact Hk|]. split; [exact Heq|].
  split; [rewrite <- Heq; exact Hl | exact Hf].
Qed.

(** [filterNum - 1] as a [uint16] is the index of a filter: of the newest
    one as long as there are at most 65535. *)
Lemma newest_index n :
  (1 <= n)%nat ->
  (Z.to_nat (u16 (u16 (Z.of_nat n) - 1)) < n)%nat /\
  (Z.of_nat n <= 65535 -> Z.to_nat (u16 (u16 (Z.of_nat n) - 1)) = (n - 1)%nat).
Proof.
  intros Hn. unfold u16, wrap.
  pose proof (Z.mod_pos_bound (Z.of_nat n) (2 ^ 16) ltac:(lia)) as Hr.
  pose proof (Z.div_mod (Z.of_nat n) (2 ^ 16) ltac:(lia)) as Hdm.
  destruct (decide (Z.of_nat n mod 2 ^ 16 = 0)) as [Hz|Hnz].
  - rewrite Hz. change ((0 - 1) mod 2 ^ 16) with 65535.
    assert (0 < Z.of_nat n / 2 ^ 16) by (apply Z.div_str_pos; lia).
    split; [nia | lia].
  - rewrite (Z.mod_small (_ - 1)) by lia.
    assert (0 <= Z.of_nat n / 2 ^ 16) by (apply Z.div_pos; lia).
    split; [nia|]. intros Hle. rewrite Z.mod_small by lia. lia.
Qed.

Lemma wf_newest cf :
  wf cf ->
  exists cur,
    filters cf !! Z.to_nat (u16 (filterNum cf - 1)) = Some cur /\
    wf_sub (bucketSize cf) cur.
Proof.
  intros H. wf_split H. rewrite Hlen.
  destruct (newest_index _ Hfn) as [Hlt _].
  destruct (lookup_lt_is_Some_2 (filters cf) _ Hlt) as [cur Hcur].
  exists cur. split; [exact Hcur|].
  rewrite Forall_lookup in Hfs. exact (Hfs _ _ Hcur).
Qed.

(** Within 65535 filters [filterNum] is their number. *)
Lemma wf_filterNum cf :
  wf cf -> Z.of_nat (length (filters cf)) <= 65535 ->
  filterNum cf = Z.of_nat (length (filters cf)) /\ 1 <= filterNum cf < 2 ^ 16.
Proof.
  intros H Hle. wf_split H. rewrite Hlen, u16_small by lia. lia.
Qed.

Lemma wf_filterNum_le cf :
  wf cf -> 0 <= filterNum cf <= Z.of_nat (length (filters cf)).
Proof.
  intros H. wf_split H. rewrite Hlen. unfold u16, wrap.
  pose proof (Z.mod_pos_bound (Z.of_nat (length (filters cf))) (2 ^ 16)
                ltac:(lia)).
  pose proof (Z.mod_le (Z.of_nat (length (filters cf))) (2 ^ 16)
                ltac:(lia) ltac:(lia)).
  lia.
Qed.

(** The walk never panics in a well-formed filter, and keeps its shape. *)
Lemma evict_walk_total k bs n :
  0 <= k < 64 -> 1 <= bs < 2 ^ 16 ->
  forall bk p v f,
    shape (2 ^ k) bs bk -> 0 <= p < 2 ^ k -> 0 <= v < bs ->
    exists w, evict_walk n (2 ^ k) bs bk p v f = Ok w /\
      match w with
      | Placed bk' => shape (2 ^ k) bs bk'
      | Exhausted bk' p' v' _ =>
          shape (2 ^ k) bs bk' /\ 0 <= p' < 2 ^ k /\ 0 <= v' < bs
      end.
Proof.
  intros Hk Hbs.
  assert (Hbn : 0 < 2 ^ k) by (apply Z.pow_pos_nonneg; lia).
  induction n as [|n IH]; intros bk p v f Hsh Hp Hv.
  - eexists. split; [reflexivity|]. simpl. tauto.
  - destruct (shape_lookup _ _ _ _ Hsh Hp) as (b & Hb & Hbl).
    destruct (lookup_lt_is_Some_2 b (Z.to_nat v)) as [old Hold]; [lia|].
    cbn [evict_walk]. unfold idx at 1. rewrite Hb. simpl.
    unfold idx at 1. rewrite Hold. simpl.
    assert (Hum : forall a c, c <> 0 -> umod a c = Ok (a mod c)).
    { intros a c Hc. apply umod_Ok. auto. }
    rewrite Hum by lia. simpl.
    assert (Hb' : Z.of_nat (length (<[Z.to_nat v := f]> b)) = bs)
      by (rewrite length_insert; exact Hbl).
    pose proof (shape_insert _ _ _ (Z.to_nat p) _ Hsh Hb') as Hsh'.
    destruct (bucket_findAvailableSlot _) as [i|].
    + eexists. split; [reflexivity|]. simpl.
      apply shape_insert; [exact Hsh'|].
      rewrite !length_insert. exact Hbl.
    + rewrite Hum by (rewrite u32_small; lia). simpl.
      destruct (victim_next bs v Hbs Hv) as [Hv1 _].
      apply IH; [exact Hsh' | | exact Hv1].
      apply Z.mod_pos_bound. lia.
Qed.

Lemma evict_first_loop_total cf pr :
  wf cf -> exists cur w, evict_first_loop cf pr = Ok (cur, w).
Proof.
  intros H. destruct (wf_newest cf H) as (cur & Hcur & Hsub).
  destruct (wf_sub_shape _ _ Hsub) as (k & Hk & Hbn & Hsh).
  wf_split H.
  assert (Hpos : 0 < 2 ^ k) by (apply Z.pow_pos_nonneg; lia).
  destruct (evict_walk_total k (bucketSize cf) (Z.to_nat (maxIter cf)) Hk Hbs
              (buckets cur) (u64 (h1 pr) mod 2 ^ k) 0 (fp pr) Hsh)
    as (w & Hw & _); [apply Z.mod_pos_bound; lia | lia |].
  exists cur, w. unfold evict_first_loop, idx. rewrite Hcur. simpl.
  rewrite Hbn. unfold umod. destruct (Z.eqb_spec (2 ^ k) 0); [lia|]. simpl.
  rewrite Hw. reflexivity.
Qed.

Lemma with_buckets_id s : with_buckets s (buckets s) = s.
Proof. destruct s; reflexivity. Qed.

Lemma with_filters_id cf : with_filters cf (filters cf) = cf.
Proof. destruct cf; reflexivity. Qed.

(** An exhausted walk is rolled back to the filter as it was. *)
Lemma evictAndInsert_exhausted cf pr cur bk p v f :
  wf cf ->
  evict_first_loop cf pr = Ok (cur, Exhausted bk p v f) ->
  evictAndInsert cf pr = Ok (cf, cuckooNospace).
Proof.
  intros H Hloop. unfold evictAndInsert. rewrite Hloop. simpl.
  unfold evict_first_loop in Hloop. inv_ok Hloop.
  rename a into cur0, a0 into p0, a1 into w.
  injection Hloop as -> ->.
  apply idx_Ok in E. apply umod_Ok in E0 as [_ Ep0].
  destruct (wf_newest cf H) as (cur' & Hcur & Hsub).
  rewrite Hcur in E. injection E as <-.
  destruct (wf_sub_shape _ _ Hsub) as (k & Hk & Hbn & Hsh).
  wf_split H. rewrite Hbn in *.
  assert (Hpos : 0 < 2 ^ k) by (apply Z.pow_pos_nonneg; lia).
  assert (Hp0 : 0 <= p0 < 2 ^ k)
    by (subst p0; apply Z.mod_pos_bound; exact Hpos).
  assert (Hv0 : 0 <= 0 < bucketSize cf) by lia.
  pose proof (evict_walk_rollback k (bucketSize cf) (Z.to_nat (maxIter cf))
                Hk Hbs _ _ _ _ _ _ _ _ O Hp0 Hv0 E1) as Hrb.
  rewrite Nat.add_0_r in Hrb. rewrite Hrb. simpl.
  rewrite with_buckets_id, list_insert_id by exact Hcur.
  rewrite with_filters_id. reflexivity.
Qed.

(** ** C2

    If the random walk of [evictAndInsert] uses up its [maxIter] iterations
    without finding a free slot, the rollback loop runs to its end and the
    call returns the filter it was given, every slot of every bucket as it
    was, with the status [cuckooNospace]. *)
Theorem evictAndInsert_rollback_restores cf pr cur bk p v f :
  wf cf ->
  evict_first_loop cf pr = Ok (cur, Exhausted bk p v f) ->
  evictAndInsert cf pr = Ok (cf, cuckooNospace).
Proof. apply evictAndInsert_exhausted. Qed.

Lemma evictAndInsert_rollback_restores_witness :
  wf full_single /\
  evict_first_loop full_single (mkParams 0 0 7) =
    Ok (mkSubCF 1 1 [[5]], Exhausted [[7]] 0 0 5) /\
  evictAndInsert full_single (mkParams 0 0 7) = Ok (full_single, cuckooNospace).
Proof.
  assert (Hwf : wf full_single)
    by (apply (bool_decide_unpack _); vm_compute; exact I).
  assert (Hloop : evict_first_loop full_single (mkParams 0 0 7) =
                  Ok (mkSubCF 1 1 [[5]], Exhausted [[7]] 0 0 5))
    by (vm_compute; reflexivity).
  split; [exact Hwf|]. split; [exact Hloop|].
  exact (evictAndInsert_rollback_restores _ _ _ _ _ _ _ Hwf Hloop).
Defined.

(** C3: the walk swaps fingerprint 2 into bucket 1 and recomputes the index
    to 0, where the bucket is empty; the free-slot test is made on bucket 1,
    the bucket of the swap, so the walk ends exhausted and the insertion is
    refused.  The walk that tests the bucket at the recomputed index places
    the displaced fingerprint 5 in bucket 0. *)
Theorem evict_walk_tests_swapped_bucket :
  NewCuckooFilter 2 1 1 0 = Ok (mkCF 2 1 0 0 1 0 1 [mkSubCF 2 1 [[0]; [0]]]) /\
  insertFp 1 (mkCF 2 1 0 0 1 0 1 [mkSubCF 2 1 [[0]; [0]]]) (paramsOfHash 259)
    = Ok (one_in_bucket1, cuckooInserted) /\
  alt_index 2 5 1 = 0 /\
  evict_walk 1 2 1 [[0]; [5]] 1 0 2 = Ok (Exhausted [[0]; [2]] 0 0 5) /\
  evict_walk_new_index 1 2 1 [[0]; [5]] 1 0 2 = Ok (Placed [[5]; [2]]) /\
  insertFp 1 one_in_bucket1 (paramsOfHash 1) = Ok (one_in_bucket1, cuckooNospace).
Proof. vm_compute. repeat split; reflexivity. Qed.

(** * Buckets *)

Lemma bucket_findAvailableSlot_Some (b : bucket) i :
  bucket_findAvailableSlot b = Some i -> b !! i = Some nullFp.
Proof.
  revert i. induction b as [|v r IH]; intros i; simpl; [discriminate|].
  destruct (Z.eqb_spec v nullFp) as [->|Hne].
  - intros [= <-]. reflexivity.
  - destruct (bucket_findAvailableSlot r) as [j|]; simpl; [|discriminate].
    intros [= <-]. simpl. apply IH. reflexivity.
Qed.

Lemma bucket_findAvailableSlot_None (b : bucket) :
  bucket_findAvailableSlot b = None <-> Forall (fun v => v <> nullFp) b.
Proof.
  induction b as [|v r IH]; simpl.
  - split; [constructor | reflexivity].
  - destruct (Z.eqb_spec v nullFp) as [->|Hne].
    + split; [discriminate|]. intros H. inversion H; subst. contradiction.
    + destruct (bucket_findAvailableSlot r) as [j|]; simpl.
      * split; [discriminate|]. intros H. inversion H; subst.
        apply IH in H3. discriminate.
      * split; [|reflexivity]. intros _. constructor; [exact Hne|].
        apply IH. reflexivity.
Qed.

Lemma bucket_find_true (b : bucket) f : bucket_find b f = true <-> f ∈ b.
Proof.
  unfold bucket_find. rewrite existsb_exists. rewrite list_elem_of_In.
  split.
  - intros (v & Hin & Hv). apply Z.eqb_eq in Hv. subst. exact Hin.
  - intros Hin. exists f. split; [exact Hin | apply Z.eqb_refl].
Qed.


Lemma bucketIndex_Ok s h p :
  bucketIndex s h = Ok p <->
  sBucketNum s <> 0 /\ p = u32 (u64 h mod sBucketNum s).
Proof.
  unfold bucketIndex, umod. destruct (Z.eqb_spec (sBucketNum s) 0); simpl.
  - split; [discriminate | intros [? _]; contradiction].
  - split; [intros [= <-]; auto | intros [_ ->]; reflexivity].
Qed.

(** The slot [sub_findAvailableSlot] returns is an empty slot of one of the
    two candidate buckets. *)
Lemma sub_findAvailableSlot_Some s pr p j :
  sub_findAvailableSlot s pr = Ok (Some (p, j)) ->
  exists b,
    (bucketIndex s (h1 pr) = Ok p \/ bucketIndex s (h2 pr) = Ok p) /\
    buckets s !! Z.to_nat p = Some b /\ b !! j = Some nullFp.
Proof.
  unfold sub_findAvailableSlot. intros H. inv_ok H.
  rename a into p1, a0 into p2, a1 into b1. apply idx_Ok in E1.
  destruct (bucket_findAvailableSlot b1) as [i|] eqn:Hb1.
  - injection H as <- <-. exists b1.
    eauto using bucket_findAvailableSlot_Some.
  - inv_ok H. rename a into b2. apply idx_Ok in E2.
    destruct (bucket_findAvailableSlot b2) as [i|] eqn:Hb2; [|discriminate].
    injection H as <- <-. exists b2.
    eauto using bucket_findAvailableSlot_Some.
Qed.

Lemma set_slot_eq s p j v b :
  buckets s !! Z.to_nat p = Some b ->
  set_slot s p j v =
  with_buckets s (<[Z.to_nat p := <[j := v]> b]> (buckets s)).
Proof. intros H. unfold set_slot. rewrite H. reflexivity. Qed.

(** What a successful scan did: one empty slot written, in the newest
    filter that had one in a candidate bucket. *)
Lemma insert_scan_Some n cf pr cf' :
  insert_scan n cf pr = Ok (Some cf') ->
  exists (i : nat) s p b (j : nat),
    (i < n)%nat /\
    filters cf !! i = Some s /\
    (bucketIndex s (h1 pr) = Ok p \/ bucketIndex s (h2 pr) = Ok p) /\
    buckets s !! Z.to_nat p = Some b /\
    b !! j = Some nullFp /\
    (forall i' s', (i < i' < n)%nat -> filters cf !! i' = Some s' ->
                   sub_findAvailableSlot s' pr = Ok None) /\
    cf' = with_itemNum
            (with_filters cf
               (<[i := with_buckets s
                         (<[Z.to_nat p := <[j := fp pr]> b]> (buckets s))]>
                  (filters cf)))
            (u64 (itemNum cf + 1)).
Proof.
  revert cf'. induction n as [|n IH]; intros cf'; simpl; [discriminate|].
  intros H. inv_ok H. rename a into s, a0 into r.
  apply idx_Ok in E. rewrite Nat2Z.id in E.
  destruct r as [[p j]|].
  - injection H as <-.
    destruct (sub_findAvailableSlot_Some _ _ _ _ E0) as (b & Hp & Hb & Hj).
    exists n, s, p, b, j. split_and!; try assumption; try lia.
    rewrite (set_slot_eq _ _ _ _ _ Hb). reflexivity.
  - destruct (IH _ H) as (i & s0 & p & b & j & Hi & Hs & Hp & Hb & Hj & Hnewer & ->).
    exists i, s0, p, b, j. split_and!; try assumption; try lia; try reflexivity.
    intros i' s' Hi' Hs'.
    destruct (decide (i' = n)) as [->|Hne].
    + rewrite E in Hs'. injection Hs' as <-. exact E0.
    + apply (Hnewer i' s'); [lia | exact Hs'].
Qed.

(** ** C4 *)

(** C4, as stated, fails: with two filters, the free-slot placement of
    [insertFp] writes the fingerprint of a key of hash 3 into the oldest
    filter and leaves the newest as it is. *)
Lemma insertFp_places_in_older_filter :
  NewCuckooFilter 2 1 1 1 = Ok (mkCF 2 1 0 0 1 1 1 [mkSubCF 2 1 [[0]; [0]]]) /\
  insertFp 2 (mkCF 2 1 0 0 1 1 1 [mkSubCF 2 1 [[0]; [0]]]) (paramsOfHash 256)
    = Ok (mkCF 2 1 1 0 1 1 1 [mkSubCF 2 1 [[2]; [0]]], cuckooInserted) /\
  insertFp 2 (mkCF 2 1 1 0 1 1 1 [mkSubCF 2 1 [[2]; [0]]]) (paramsOfHash 258)
    = Ok (mkCF 2 1 2 0 1 1 2
            [mkSubCF 2 1 [[2]; [0]]; mkSubCF 2 1 [[4]; [0]]],
          cuckooInserted) /\
  insertFp 2 (mkCF 2 1 2 0 1 1 2
                [mkSubCF 2 1 [[2]; [0]]; mkSubCF 2 1 [[4]; [0]]])
           (paramsOfHash 1)
    = Ok (two_filters, cuckooInserted) /\
  insert_scan (Z.to_nat (filterNum two_filters)) two_filters (paramsOfHash 3)
    = Ok (Some two_filters_after) /\
  insertFp 2 two_filters (paramsOfHash 3) = Ok (two_filters_after, cuckooInserted) /\
  filters two_filters_after !! 1%nat = filters two_filters !! 1%nat /\
  filters two_filters_after !! 0%nat <> filters two_filters !! 0%nat.
Proof. vm_compute. repeat split; try reflexivity. discriminate. Qed.

(** C4, amended: the free-slot placement of [insertFp] writes the
    fingerprint into one empty slot of a candidate bucket of the newest
    filter that has one; every newer filter has both candidate buckets full
    and, like every older one, keeps all its slots. *)
Theorem insert_scan_places_in_newest_free n cf pr cf' :
  insert_scan n cf pr = Ok (Some cf') ->
  exists (i : nat) s p b (j : nat),
    (i < n)%nat /\
    filters cf !! i = Some s /\
    (bucketIndex s (h1 pr) = Ok p \/ bucketIndex s (h2 pr) = Ok p) /\
    buckets s !! Z.to_nat p = Some b /\
    b !! j = Some nullFp /\
    (forall i' s', (i < i' < n)%nat -> filters cf !! i' = Some s' ->
                   sub_findAvailableSlot s' pr = Ok None) /\
    cf' = with_itemNum
            (with_filters cf
               (<[i := with_buckets s
                         (<[Z.to_nat p := <[j := fp pr]> b]> (buckets s))]>
                  (filters cf)))
            (u64 (itemNum cf + 1)).
Proof. apply insert_scan_Some. Qed.

Lemma insert_scan_places_in_newest_free_witness :
  insert_scan 2 two_filters (paramsOfHash 3) = Ok (Some two_filters_after) /\
  exists (i : nat) s p b (j : nat),
    (i < 2)%nat /\
    filters two_filters !! i = Some s /\
    (bucketIndex s (h1 (paramsOfHash 3)) = Ok p \/
     bucketIndex s (h2 (paramsOfHash 3)) = Ok p) /\
    buckets s !! Z.to_nat p = Some b /\
    b !! j = Some nullFp /\
    (forall i' s', (i < i' < 2)%nat -> filters two_filters !! i' = Some s' ->
                   sub_findAvailableSlot s' (paramsOfHash 3) = Ok None) /\
    two_filters_after =
      with_itemNum
        (with_filters two_filters
           (<[i := with_buckets s
                     (<[Z.to_nat p := <[j := fp (paramsOfHash 3)]> b]>
                        (buckets s))]>
              (filters two_filters)))
        (u64 (itemNum two_filters + 1)).
Proof.
  assert (H : insert_scan 2 two_filters (paramsOfHash 3)
              = Ok (Some two_filters_after)) by (vm_compute; reflexivity).
  split; [exact H|].
  exact (insert_scan_places_in_newest_free 2 two_filters (paramsOfHash 3)
           two_filters_after H).
Defined.

(** * Lookups in a well-formed filter *)

Lemma wf_sub_bn_pos bs s : wf_sub bs s -> 0 < sBucketNum s < 2 ^ 64.
Proof. intros (_ & [Hpos _] & Hlt & _). lia. Qed.

Lemma u32_le x : 0 <= x -> 0 <= u32 x <= x.
Proof.
  intros Hx. unfold u32, wrap. split.
  - apply Z.mod_pos_bound. lia.
  - apply Z.mod_le; lia.
Qed.

Lemma bucketIndex_total bs s h :
  wf_sub bs s ->
  exists p, bucketIndex s h = Ok p /\ 0 <= p < sBucketNum s.
Proof.
  intros Hs. pose proof (wf_sub_bn_pos _ _ Hs) as Hbn.
  exists (u32 (u64 h mod sBucketNum s)). split.
  - apply bucketIndex_Ok. split; [lia | reflexivity].
  - pose proof (Z.mod_pos_bound (u64 h) (sBucketNum s) ltac:(lia)) as Hm.
    pose proof (u32_le _ (proj1 Hm)). lia.
Qed.

Lemma wf_sub_lookup bs s p :
  wf_sub bs s -> 0 <= p < sBucketNum s ->
  exists b, buckets s !! Z.to_nat p = Some b /\ Z.of_nat (length b) = bs.
Proof.
  intros (_ & _ & _ & Hl & Hf) Hp.
  apply (shape_lookup (sBucketNum s)); [split; assumption | exact Hp].
Qed.

(** The candidate buckets of [pr] in [s]. *)
Lemma candidates bs s pr :
  wf_sub bs s ->
  exists p1 p2 b1 b2,
    bucketIndex s (h1 pr) = Ok p1 /\ bucketIndex s (h2 pr) = Ok p2 /\
    buckets s !! Z.to_nat p1 = Some b1 /\ buckets s !! Z.to_nat p2 = Some b2 /\
    0 <= p1 < sBucketNum s /\ 0 <= p2 < sBucketNum s /\
    Z.of_nat (length b1) = bs /\ Z.of_nat (length b2) = bs.
Proof.
  intros Hs.
  destruct (bucketIndex_total _ _ (h1 pr) Hs) as (p1 & Hp1 & Hr1).
  destruct (bucketIndex_total _ _ (h2 pr) Hs) as (p2 & Hp2 & Hr2).
  destruct (wf_sub_lookup _ _ _ Hs Hr1) as (b1 & Hb1 & Hl1).
  destruct (wf_sub_lookup _ _ _ Hs Hr2) as (b2 & Hb2 & Hl2).
  exists p1, p2, b1, b2. tauto.
Qed.

Lemma sub_find_eq s pr p1 p2 b1 b2 :
  bucketIndex s (h1 pr) = Ok p1 -> bucketIndex s (h2 pr) = Ok p2 ->
  buckets s !! Z.to_nat p1 = Some b1 -> buckets s !! Z.to_nat p2 = Some b2 ->
  sub_find s pr = Ok (bucket_find b1 (fp pr) || bucket_find b2 (fp pr)).
Proof.
  intros Hp1 Hp2 Hb1 Hb2. unfold sub_find. rewrite Hp1, Hp2. simpl.
  unfold idx. rewrite Hb1, Hb2. simpl.
  destruct (bucket_find b1 (fp pr)); reflexivity.
Qed.

Lemma sub_count_eq s pr p1 p2 b1 b2 :
  bucketIndex s (h1 pr) = Ok p1 -> bucketIndex s (h2 pr) = Ok p2 ->
  buckets s !! Z.to_nat p1 = Some b1 -> buckets s !! Z.to_nat p2 = Some b2 ->
  sub_count s pr = Ok (u16 (bucket_count b1 (fp pr) + bucket_count b2 (fp pr))).
Proof.
  intros Hp1 Hp2 Hb1 Hb2. unfold sub_count. rewrite Hp1, Hp2. simpl.
  unfold idx. rewrite Hb1, Hb2. reflexivity.
Qed.

Lemma exist_scan_total bs fs pr :
  Forall (wf_sub bs) fs -> exists b, exist_scan fs pr = Ok b.
Proof.
  induction 1 as [|s r Hs _ IH]; simpl; [eauto|].
  destruct (candidates _ _ pr Hs) as (p1 & p2 & b1 & b2 & H1 & H2 & H3 & H4 & _).
  rewrite (sub_find_eq _ _ _ _ _ _ H1 H2 H3 H4). simpl.
  destruct (_ || _); eauto.
Qed.

Lemma count_scan_total bs fs pr res :
  Forall (wf_sub bs) fs -> exists n, count_scan fs pr res = Ok n.
Proof.
  intros H. revert res. induction H as [|s r Hs _ IH]; intros res; simpl; [eauto|].
  destruct (candidates _ _ pr Hs) as (p1 & p2 & b1 & b2 & H1 & H2 & H3 & H4 & _).
  rewrite (sub_count_eq _ _ _ _ _ _ H1 H2 H3 H4). simpl. apply IH.
Qed.

Lemma sub_find_true s pr : sub_find s pr = Ok true -> holds s pr.
Proof.
  unfold sub_find. intros H. inv_ok H.
  rename a into p1, a0 into p2, a1 into b1. apply idx_Ok in E1.
  destruct (bucket_find b1 (fp pr)) eqn:Hf1.
  - exists p1, b1. rewrite bucket_find_true in Hf1. auto.
  - inv_ok H. rename a into b2. apply idx_Ok in E2.
    injection H as H. exists p2, b2. rewrite bucket_find_true in H. auto.
Qed.

Lemma holds_sub_find bs s pr : wf_sub bs s -> holds s pr -> sub_find s pr = Ok true.
Proof.
  intros Hs (p & b & Hp & Hb & Hin).
  destruct (candidates _ _ pr Hs) as (p1 & p2 & b1 & b2 & H1 & H2 & H3 & H4 & _).
  rewrite (sub_find_eq _ _ _ _ _ _ H1 H2 H3 H4). f_equal.
  apply orb_true_iff. rewrite !bucket_find_true.
  destruct Hp as [Hp|Hp].
  - rewrite H1 in Hp. injection Hp as <-. rewrite H3 in Hb.
    injection Hb as <-. auto.
  - rewrite H2 in Hp. injection Hp as <-. rewrite H4 in Hb.
    injection Hb as <-. auto.
Qed.

Lemma exist_scan_true bs fs pr :
  Forall (wf_sub bs) fs ->
  (exist_scan fs pr = Ok true <-> exists s, s ∈ fs /\ holds s pr).
Proof.
  induction 1 as [|s r Hs Hr IH]; simpl.
  - split; [discriminate|]. intros (s & Hin & _). inversion Hin.
  - destruct (candidates _ _ pr Hs) as (p1 & p2 & b1 & b2 & H1 & H2 & H3 & H4 & _).
    pose proof (sub_find_eq _ _ _ _ _ _ H1 H2 H3 H4) as Hfind.
    rewrite Hfind. simpl. destruct (_ || _) eqn:Hor.
    + split; [|reflexivity]. intros _. exists s. split; [left|].
      apply sub_find_true. exact Hfind.
    + rewrite IH. split.
      * intros (s' & Hin & Hh). exists s'. split; [right; exact Hin | exact Hh].
      * intros (s' & Hin & Hh). apply elem_of_cons in Hin as [->|Hin].
        -- apply (holds_sub_find _ _ _ Hs) in Hh. congruence.
        -- eauto.
Qed.

Lemma existFp_true cf pr :
  wf cf ->
  (existFp cf pr = Ok true <-> exists s, s ∈ filters cf /\ holds s pr).
Proof. intros H. wf_split H. apply (exist_scan_true _ _ _ Hfs). Qed.


(** * Exist and Count *)

Section Queries.

Variable MurmurHash64A : list Byte.byte -> Z -> Z.

(** ** C10

    In a well-formed filter [Exist] and [Count] return a value and the
    filter they were given: the counters, the list of filters and every
    slot are as before the call. *)
Theorem Exist_Count_leave_filter cf data :
  wf cf ->
  (exists b, Exist MurmurHash64A cf data = Ok (cf, b)) /\
  (exists n, Count MurmurHash64A cf data = Ok (cf, n)).
Proof.
  intros H. wf_split H. split.
  - destruct (exist_scan_total _ _ (buildParams MurmurHash64A data) Hfs)
      as (b & Hb).
    exists b. unfold Exist, existFp. rewrite Hb. reflexivity.
  - destruct (count_scan_total _ _ (buildParams MurmurHash64A data) 0 Hfs)
      as (n & Hn).
    exists n. unfold Count. rewrite Hn. reflexivity.
Qed.

End Queries.

Lemma Exist_Count_leave_filter_witness :
  wf two_filters /\
  (exists b, Exist le_hash two_filters [Byte.x03] = Ok (two_filters, b)) /\
  (exists n, Count le_hash two_filters [Byte.x03] = Ok (two_filters, n)).
Proof.
  assert (Hwf : wf two_filters)
    by (apply (bool_decide_unpack _); vm_compute; exact I).
  split; [exact Hwf|].
  exact (Exist_Count_leave_filter le_hash two_filters [Byte.x03] Hwf).
Defined.

(** * Deleting from a bucket *)

Lemma bucket_delete_absent (b : bucket) f :
  bucket_find b f = false -> bucket_delete b f = (b, false).
Proof.
  induction b as [|v r IH]; simpl; [reflexivity|].
  destruct (v =? f); simpl; [discriminate|].
  intros H. rewrite (IH H). reflexivity.
Qed.

Lemma bucket_delete_found (b b' : bucket) f :
  bucket_delete b f = (b', true) ->
  exists i, b !! i = Some f /\ b' = <[i := nullFp]> b.
Proof.
  revert b'. induction b as [|v r IH]; intros b'; simpl; [discriminate|].
  destruct (Z.eqb_spec v f) as [->|Hne].
  - intros [= <-]. exists O. split; reflexivity.
  - destruct (bucket_delete r f) as [r' ok] eqn:Hr. intros [= <- ->].
    destruct (IH _ eq_refl) as (i & Hi & ->).
    exists (S i). split; [exact Hi | reflexivity].
Qed.

Lemma bucket_delete_not_found (b b' : bucket) f :
  bucket_delete b f = (b', false) -> b' = b /\ bucket_find b f = false.
Proof.
  revert b'. induction b as [|v r IH]; intros b'; simpl.
  - intros [= <-]. auto.
  - destruct (Z.eqb_spec v f) as [->|Hne]; [discriminate|].
    destruct (bucket_delete r f) as [r' ok] eqn:Hr. intros [= <- ->].
    destruct (IH _ eq_refl) as [-> Hf]. auto.
Qed.

Lemma sub_delete_absent s pr :
  sub_find s pr = Ok false -> sub_delete s pr = Ok (s, false).
Proof.
  unfold sub_find, sub_delete. intros H. inv_ok H.
  rename a into p1, a0 into p2, a1 into b1.
  rewrite E. simpl. rewrite E0. simpl. rewrite E1. simpl.
  destruct (bucket_find b1 (fp pr)) eqn:Hf1; [discriminate|].
  inv_ok H. rename a into b2. injection H as Hf2.
  rewrite (bucket_delete_absent _ _ Hf1), E2. simpl.
  rewrite (bucket_delete_absent _ _ Hf2). reflexivity.
Qed.

Lemma exist_scan_false fs pr :
  exist_scan fs pr = Ok false -> Forall (fun s => sub_find s pr = Ok false) fs.
Proof.
  induction fs as [|s r IH]; simpl; [constructor|].
  intros H. inv_ok H. destruct a; [discriminate|].
  constructor; [exact E | exact (IH H)].
Qed.

Section Deletion.

Variable MurmurHash64A : list Byte.byte -> Z -> Z.
Variable over_tenth : Z -> Z -> bool.

Lemma delete_scan_absent n cf pr :
  (n <= length (filters cf))%nat ->
  Forall (fun s => sub_find s pr = Ok false) (filters cf) ->
  delete_scan over_tenth n cf pr = Ok (cf, false).
Proof.
  intros Hn Hall. induction n as [|n IH]; simpl; [reflexivity|].
  destruct (lookup_lt_is_Some_2 (filters cf) n) as [s Hs]; [lia|].
  unfold idx. rewrite Nat2Z.id, Hs. simpl.
  rewrite Forall_lookup in Hall.
  rewrite (sub_delete_absent _ _ (Hall _ _ Hs)). simpl.
  apply IH. lia.
Qed.

(** ** C6

    When the fingerprint of the key is in neither candidate bucket of any
    filter ([existFp] answers false), [Delete] returns false and the filter
    it was given: [itemNum], [deleteNum], [filterNum] and every slot are as
    before. *)
Theorem Delete_absent_key cf data :
  wf cf ->
  existFp cf (buildParams MurmurHash64A data) = Ok false ->
  Delete MurmurHash64A over_tenth cf data = Ok (cf, false).
Proof.
  intros H Habs. pose proof (wf_filterNum_le cf H) as Hle. unfold Delete.
  apply delete_scan_absent; [lia|].
  apply exist_scan_false. exact Habs.
Qed.

End Deletion.

Lemma Delete_absent_key_witness :
  wf two_filters /\
  existFp two_filters (buildParams le_hash [Byte.x05]) = Ok false /\
  Delete le_hash tenth two_filters [Byte.x05] = Ok (two_filters, false).
Proof.
  assert (Hwf : wf two_filters)
    by (apply (bool_decide_unpack _); vm_compute; exact I).
  assert (Habs : existFp two_filters (buildParams le_hash [Byte.x05]) = Ok false)
    by (vm_compute; reflexivity).
  split; [exact Hwf|]. split; [exact Habs|].
  exact (Delete_absent_key le_hash tenth two_filters [Byte.x05] Hwf Habs).
Defined.

(** * next2N *)

Lemma existsb_pointwise {A : Type} (f g : A -> bool) l :
  (forall x, f x = g x) -> existsb f l = existsb g l.
Proof.
  intros H. induction l as [|x l IH]; simpl; [reflexivity|].
  rewrite H, IH. reflexivity.
Qed.

Lemma existsb_seq_shift (f : nat -> bool) a n :
  existsb f (seq a n) = existsb (fun d => f (a + d)%nat) (seq 0 n).
Proof.
  revert a f. induction n as [|n IH]; intros a f; simpl; [reflexivity|].
  rewrite Nat.add_0_r. f_equal.
  rewrite (IH (S a)), (IH 1%nat). apply existsb_pointwise.
  intros d. f_equal. lia.
Qed.

Lemma bits_from_double x i n :
  bits_from x i (n + n) = bits_from x i n || bits_from x (i + Z.of_nat n) n.
Proof.
  unfold bits_from. rewrite seq_app, existsb_app. f_equal.
  rewrite existsb_seq_shift. apply existsb_pointwise. intros d. f_equal. lia.
Qed.

(** One line [n |= n >> s] of [next2N]. *)
Lemma smear_step x y n :
  (forall i, 0 <= i -> Z.testbit y i = bits_from x i n) ->
  forall i, 0 <= i ->
    Z.testbit (Z.lor y (Z.shiftr y (Z.of_nat n))) i = bits_from x i (n + n).
Proof.
  intros H i Hi.
  rewrite Z.lor_spec, Z.shiftr_spec by lia.
  rewrite !H by lia. symmetry. apply bits_from_double.
Qed.

Lemma next2N_smear n : next2N n = u64 (smear (u64 (n - 1)) + 1).
Proof. reflexivity. Qed.

Lemma smear_bits x i : 0 <= i -> Z.testbit (smear x) i = bits_from x i 64.
Proof.
  revert i. unfold smear.
  apply (smear_step x _ 32), (smear_step x _ 16), (smear_step x _ 8),
        (smear_step x _ 4), (smear_step x _ 2), (smear_step x _ 1).
  intros i Hi. unfold bits_from. simpl.
  rewrite Z.add_0_r, orb_false_r. reflexivity.
Qed.

Lemma bits_from_true x i n :
  bits_from x i n = true <->
  exists d, (d < n)%nat /\ Z.testbit x (i + Z.of_nat d) = true.
Proof.
  unfold bits_from. rewrite existsb_exists. split.
  - intros (d & Hin & Hd). apply in_seq in Hin. exists d. split; [lia|exact Hd].
  - intros (d & Hlt & Hd). exists d. split; [apply in_seq; lia | exact Hd].
Qed.

Lemma smear_ones x :
  0 < x < 2 ^ 64 -> smear x = Z.ones (Z.log2 x + 1).
Proof.
  intros Hx.
  assert (Hlog : 0 <= Z.log2 x < 64).
  { split; [apply Z.log2_nonneg|]. apply Z.log2_lt_pow2; lia. }
  apply Z.bits_inj'. intros i Hi.
  rewrite smear_bits by exact Hi.
  rewrite Z.testbit_ones_nonneg by lia.
  destruct (Z.ltb_spec i (Z.log2 x + 1)) as [Hlt|Hge].
  - apply bits_from_true. exists (Z.to_nat (Z.log2 x - i)). split; [lia|].
    replace (i + Z.of_nat (Z.to_nat (Z.log2 x - i))) with (Z.log2 x) by lia.
    apply Z.bit_log2. lia.
  - destruct (bits_from x i 64) eqn:Hb; [|reflexivity].
    apply bits_from_true in Hb as (d & _ & Hd).
    rewrite Z.bits_above_log2 in Hd by lia. discriminate.
Qed.

(** [next2N] rounds up to a power of two, between 1 and [2^63]. *)
Lemma next2N_log2_up n : 1 <= n <= 2 ^ 63 -> next2N n = 2 ^ Z.log2_up n.
Proof.
  intros Hn. rewrite next2N_smear.
  rewrite (u64_small (n - 1)) by lia.
  destruct (decide (n = 1)) as [->|Hne]; [reflexivity|].
  rewrite smear_ones by lia.
  assert (Hup : Z.log2_up n = Z.log2 (n - 1) + 1).
  { unfold Z.log2_up. destruct (Z.compare_spec 1 n); try lia.
    rewrite <- Z.sub_1_r. lia. }
  rewrite <- Hup, Z.ones_equiv.
  assert (Hle : Z.log2_up n <= 63) by (apply Z.log2_up_le_pow2; lia).
  pose proof (Z.log2_up_nonneg n) as Hnn.
  assert (0 < 2 ^ Z.log2_up n <= 2 ^ 63).
  { split; [apply Z.pow_pos_nonneg; lia | apply Z.pow_le_mono_r; lia]. }
  replace (Z.pred (2 ^ Z.log2_up n) + 1) with (2 ^ Z.log2_up n) by lia.
  apply u64_small. lia.
Qed.

Lemma next2N_0 : next2N 0 = 0.
Proof. reflexivity. Qed.

Lemma log2_up_least q : least_pow2_geq q (2 ^ Z.log2_up q).
Proof.
  pose proof (Z.log2_up_nonneg q) as Hnn.
  split; [eauto|]. split.
  - destruct (Z_lt_le_dec 1 q) as [Hq|Hq].
    + apply Z.log2_up_spec. exact Hq.
    + assert (0 < 2 ^ Z.log2_up q) by (apply Z.pow_pos_nonneg; lia). lia.
  - intros j Hj Hle. apply Z.pow_le_mono_r; [lia|].
    destruct (Z_lt_le_dec 0 q) as [Hq|Hq].
    + apply Z.log2_up_le_pow2; assumption.
    + rewrite Z.log2_up_nonpos by exact Hq. exact Hj.
Qed.

(** * Growth *)

Lemma grow_exact cf :
  expansion cf ^ filterNum cf < 2 ^ 53 ->
  grow cf =
  Ok (with_filterNum
        (with_filters cf
           (filters cf ++
            [empty_subCF (u64 (bucketNum cf * expansion cf ^ filterNum cf))
                         (bucketSize cf)]))
        (u16 (filterNum cf + 1))).
Proof.
  intros H. unfold grow, pow_float_u64.
  destruct (Z.ltb_spec (expansion cf ^ filterNum cf) (2 ^ 53)); [|lia].
  reflexivity.
Qed.

Lemma empty_subCF_wf bn bs :
  is_pow2 bn -> bn < 2 ^ 64 -> 0 <= bs -> wf_sub bs (empty_subCF bn bs).
Proof.
  intros Hp Hlt Hbs. destruct Hp as [Hpos Heq].
  unfold wf_sub, empty_subCF, makeBucket. simpl.
  split_and!; try done.
  - rewrite length_replicate. lia.
  - apply Forall_replicate. rewrite length_replicate. lia.
Qed.

(** ** C8 *)




(** * Construction *)

(** ** C7 *)




(** * The count-min sketch *)

Module CountMinSketchFacts.
Import CountMinSketch.

Section SketchFacts.

Variable uintBits : Z.
Variable MurmurHash64A : list Byte.byte -> Z -> Z.
Hypothesis uintBits_nonneg : 0 <= uintBits.

Abbreviation uint := (uint uintBits).
Abbreviation MaxUint := (MaxUint uintBits).
Abbreviation hash := (hash uintBits MurmurHash64A).
Abbreviation cell := (cell uintBits MurmurHash64A).
Abbreviation sat_add := (sat_add uintBits).

Lemma overflow_test c val :
  0 <= c < 2 ^ uintBits -> 0 <= val < 2 ^ uintBits ->
  (if uint (c + val) <? val then MaxUint else uint (c + val)) = sat_add c val.
Proof.
  intros Hc Hv. unfold sat_add, CountMinSketch.uint, CountMinSketch.MaxUint, wrap.
  destruct (Z_lt_le_dec (c + val) (2 ^ uintBits)) as [Hlt|Hge].
  - rewrite Z.mod_small by lia.
    destruct (Z.ltb_spec (c + val) val); lia.
  - replace (c + val) with (c + val - 2 ^ uintBits + 1 * 2 ^ uintBits) at 1 2 by lia.
    rewrite Z.mod_add by lia. rewrite Z.mod_small by lia.
    destruct (Z.ltb_spec (c + val - 2 ^ uintBits) val); lia.
Qed.

Lemma cell_lt w data i (row : list Z) :
  0 < w -> Z.of_nat (length row) = w -> (cell w data i < length row)%nat.
Proof.
  intros Hw Hl. unfold cell.
  pose proof (Z.mod_pos_bound (hash data (u64 i)) w Hw). lia.
Qed.

(** The loop of [IncrBy] adds [val], saturating, to the cell of the key in
    each row, and carries the minimum the loop of [Query] finds afterwards. *)
Lemma incr_rows_spec w rows data val :
  0 < w -> 0 <= val < 2 ^ uintBits ->
  Forall (fun row : list Z =>
            Z.of_nat (length row) = w /\
            Forall (fun c => 0 <= c < 2 ^ uintBits) row) rows ->
  forall i m0,
  exists rows' m,
    incr_rows uintBits MurmurHash64A w rows i data val m0 = Ok (rows', m) /\
    length rows' = length rows /\
    (forall (j : nat) row, rows !! j = Some row ->
       exists c, row !! cell w data (i + Z.of_nat j) = Some c /\
                 rows' !! j =
                 Some (<[cell w data (i + Z.of_nat j) := sat_add c val]> row)) /\
    query_rows uintBits MurmurHash64A w rows' i data m0 = Ok m.
Proof.
  intros Hw Hval. induction 1 as [|row rest [Hl Hr] _ IH]; intros i m0.
  - exists [], m0. simpl. split_and!; try reflexivity.
    intros j row Hj. discriminate.
  - pose proof (cell_lt w data i row Hw Hl) as Hlt.
    destruct (lookup_lt_is_Some_2 row (cell w data i) Hlt) as [c Hc].
    assert (Hcr : 0 <= c < 2 ^ uintBits).
    { rewrite Forall_lookup in Hr. exact (Hr _ _ Hc). }
    cbn [incr_rows query_rows].
    assert (Hum : umod (hash data (u64 i)) w = Ok (hash data (u64 i) mod w))
      by (apply umod_Ok; split; [lia | reflexivity]).
    rewrite Hum. simpl. unfold idx at 1. fold (cell w data i). rewrite Hc. simpl.
    rewrite (overflow_test c val Hcr Hval).
    destruct (IH (i + 1) (Z.min m0 (sat_add c val)))
      as (rest' & m & Hrun & Hlen & Hcells & Hq).
    rewrite Hrun. simpl.
    exists (<[cell w data i := sat_add c val]> row :: rest'), m.
    split_and!.
    + reflexivity.
    + simpl. rewrite Hlen. reflexivity.
    + intros [|j] row0 Hj; simpl in Hj.
      * injection Hj as <-. exists c. rewrite Z.add_0_r. auto.
      * destruct (Hcells j row0 Hj) as (c0 & Hc0 & Hrow0).
        exists c0. replace (i + Z.of_nat (S j)) with (i + 1 + Z.of_nat j) by lia.
        auto.
    + cbn [query_rows]. rewrite Hum. simpl. unfold idx at 1.
      fold (cell w data i).
      rewrite list_lookup_insert_eq by exact Hlt. simpl. exact Hq.
Qed.

(** The loop of [Query] returns the minimum of its starting value and the
    cells of the key. *)
Lemma query_rows_min w rows data :
  forall i m0 m,
  query_rows uintBits MurmurHash64A w rows i data m0 = Ok m ->
  m <= m0 /\
  (forall (j : nat) row c, rows !! j = Some row ->
     row !! cell w data (i + Z.of_nat j) = Some c -> m <= c) /\
  (m = m0 \/
   exists (j : nat) row, rows !! j = Some row /\
                         row !! cell w data (i + Z.of_nat j) = Some m).
Proof.
  induction rows as [|row rest IH]; intros i m0 m; simpl.
  - intros [= <-]. split_and!; [lia | | left; reflexivity].
    intros j row c Hj. discriminate.
  - intros H. inv_ok H. rename a into h, a0 into c.
    apply umod_Ok in E as [_ ->]. apply idx_Ok in E0. fold (cell w data i) in E0.
    destruct (IH _ _ _ H) as (Hle & Hlow & Hatt). split_and!.
    + lia.
    + intros [|j] row0 c0 Hj Hc0; simpl in Hj.
      * injection Hj as <-. rewrite Z.add_0_r in Hc0.
        rewrite E0 in Hc0. injection Hc0 as <-. lia.
      * apply (Hlow j row0 c0 Hj).
        replace (i + 1 + Z.of_nat j) with (i + Z.of_nat (S j)) by lia.
        exact Hc0.
    + destruct Hatt as [->|(j & row0 & Hj & Hm)].
      * destruct (Z.min_spec m0 c) as [[_ ->]|[_ ->]]; [left; reflexivity|].
        right. exists O, row. rewrite Z.add_0_r. auto.
      * right. exists (S j), row0. split; [exact Hj|].
        replace (i + Z.of_nat (S j)) with (i + 1 + Z.of_nat j) by lia.
        exact Hm.
Qed.

(** ** C9

    In a sketch whose rows have [width] cells, [IncrBy] replaces the cell of
    the key in each row by the saturating sum of the cell and the amount
    (the sum itself, or the largest [uint] when the sum exceeds it), changes
    no other cell, and returns the minimum over the updated cells of the
    key, which is what [Query] returns for the key afterwards. *)
Theorem IncrBy_saturating_minimum cms data val :
  wf_cms uintBits cms ->
  0 <= val < 2 ^ uintBits ->
  exists cms' m,
    IncrBy uintBits MurmurHash64A cms data val = Ok (cms', m) /\
    width cms' = width cms /\
    length (cells cms') = length (cells cms) /\
    (forall (i : nat) row, cells cms !! i = Some row ->
       exists c,
         row !! cell (width cms) data (Z.of_nat i) = Some c /\
         cells cms' !! i =
         Some (<[cell (width cms) data (Z.of_nat i) := sat_add c val]> row)) /\
    (forall (i : nat) row' c', cells cms' !! i = Some row' ->
       row' !! cell (width cms) data (Z.of_nat i) = Some c' -> m <= c') /\
    ((cells cms = [] /\ m = MaxUint) \/
     exists (i : nat) row', cells cms' !! i = Some row' /\
                            row' !! cell (width cms) data (Z.of_nat i) = Some m) /\
    Query uintBits MurmurHash64A cms' data = Ok m.
Proof.
  intros [Hw Hrows] Hval.
  destruct (incr_rows_spec (width cms) (cells cms) data val Hw Hval Hrows 0 MaxUint)
    as (rows' & m & Hrun & Hlen & Hcells & Hq).
  exists (mkCMS (width cms) (depth cms) (uint (counter cms + val)) rows'), m.
  destruct (query_rows_min _ _ _ _ _ _ Hq) as (Hle & Hlow & Hatt).
  split_and!; try done.
  - unfold IncrBy. rewrite Hrun. reflexivity.
  - simpl. destruct Hatt as [->|Hatt]; [|right; exact Hatt].
    destruct (cells cms) as [|row rest] eqn:Hcs.
    + left. auto.
    + right. destruct rows' as [|row' rest']; [discriminate|].
      destruct (Hcells O row eq_refl) as (c & Hc & Hrow').
      change (0 + Z.of_nat 0) with 0 in *. change (Z.of_nat 0) with 0.
      injection Hrow' as ->.
      exists O. eexists. split; [reflexivity|].
      inversion Hrows as [|? ? [Hl Hr] _]; subst.
      pose proof (cell_lt (width cms) data 0 row Hw Hl) as Hlt.
      assert (Hcm : (<[cell (width cms) data 0 := sat_add c val]> row)
                      !! cell (width cms) data 0 = Some (sat_add c val))
        by (apply list_lookup_insert_eq; exact Hlt).
      change (Z.of_nat 0) with 0. rewrite Hcm. f_equal.
      pose proof (Hlow O _ _ eq_refl Hcm) as Hle'.
      unfold sat_add in *. lia.
Qed.

End SketchFacts.

Lemma IncrBy_saturating_minimum_witness :
  wf_cms 64 small_sketch /\
  IncrBy 64 le_hash small_sketch [Byte.x02] 5 =
    Ok (mkCMS 3 2 5 [[0; 7; 2 ^ 64 - 1]; [4; 0; 5]], 5) /\
  exists cms' m,
    IncrBy 64 le_hash small_sketch [Byte.x02] 5 = Ok (cms', m) /\
    width cms' = width small_sketch /\
    length (cells cms') = length (cells small_sketch) /\
    (forall (i : nat) row, cells small_sketch !! i = Some row ->
       exists c,
         row !! cell 64 le_hash (width small_sketch) [Byte.x02] (Z.of_nat i)
           = Some c /\
         cells cms' !! i =
         Some (<[cell 64 le_hash (width small_sketch) [Byte.x02] (Z.of_nat i)
                   := sat_add 64 c 5]> row)) /\
    (forall (i : nat) row' c', cells cms' !! i = Some row' ->
       row' !! cell 64 le_hash (width small_sketch) [Byte.x02] (Z.of_nat i)
         = Some c' -> m <= c') /\
    ((cells small_sketch = [] /\ m = MaxUint 64) \/
     exists (i : nat) row',
       cells cms' !! i = Some row' /\
       row' !! cell 64 le_hash (width small_sketch) [Byte.x02] (Z.of_nat i)
         = Some m) /\
    Query 64 le_hash cms' [Byte.x02] = Ok m.
Proof.
  assert (Hwf : wf_cms 64 small_sketch)
    by (apply (bool_decide_unpack _); vm_compute; exact I).
  split; [exact Hwf|]. split; [vm_compute; reflexivity|].
  apply (IncrBy_saturating_minimum 64 le_hash ltac:(lia) small_sketch [Byte.x02] 5 Hwf).
  lia.
Defined.

End CountMinSketchFacts.

(** * Candidate buckets *)

Lemma paramsOfHash_keyed h : keyed (paramsOfHash h).
Proof.
  split; [reflexivity|]. unfold paramsOfHash, nullFp. simpl.
  pose proof (Z.mod_pos_bound h 255 ltac:(lia)).
  rewrite (wrap_small 8) by lia. lia.
Qed.

Lemma cand_pair k pr :
  0 <= k < 64 -> h2 pr = altHash (fp pr) (h1 pr) ->
  u64 (h2 pr) mod 2 ^ k = alt_index (2 ^ k) (fp pr) (u64 (h1 pr) mod 2 ^ k) /\
  u64 (h1 pr) mod 2 ^ k = alt_index (2 ^ k) (fp pr) (u64 (h2 pr) mod 2 ^ k).
Proof.
  intros Hk Hh2.
  assert (Hpos : 0 < 2 ^ k) by (apply Z.pow_pos_nonneg; lia).
  assert (Hc1 : 0 <= u64 (h1 pr) mod 2 ^ k < 2 ^ k)
    by (apply Z.mod_pos_bound; exact Hpos).
  assert (Heq : u64 (h2 pr) mod 2 ^ k =
                alt_index (2 ^ k) (fp pr) (u64 (h1 pr) mod 2 ^ k)).
  { rewrite alt_index_eq by assumption.
    unfold u64 at 1 2, wrap. rewrite !mod_mod_pow2 by lia.
    rewrite Hh2. unfold altHash. apply lxor_mod_pow2. lia. }
  split; [exact Heq|]. rewrite Heq.
  symmetry. apply alt_index_invol; assumption.
Qed.

Lemma cand_ix_alt k pr p :
  0 <= k < 64 -> 0 <= p < 2 ^ k -> h2 pr = altHash (fp pr) (h1 pr) ->
  cand_ix (2 ^ k) pr p <-> cand_ix (2 ^ k) pr (alt_index (2 ^ k) (fp pr) p).
Proof.
  intros Hk Hp Hh2. destruct (cand_pair k pr Hk Hh2) as [H21 H12].
  unfold cand_ix. split.
  - intros [->| ->]; [right | left]; congruence.
  - intros [H|H].
    + right. rewrite H21, <- H. symmetry. apply alt_index_invol; assumption.
    + left. rewrite H12, <- H. symmetry. apply alt_index_invol; assumption.
Qed.

Lemma bucketIndex_small s h :
  0 < sBucketNum s <= 2 ^ 32 ->
  bucketIndex s h = Ok (u64 h mod sBucketNum s).
Proof.
  intros Hbn. apply bucketIndex_Ok. split; [lia|].
  pose proof (Z.mod_pos_bound (u64 h) (sBucketNum s) ltac:(lia)).
  symmetry. apply u32_small. lia.
Qed.

Lemma holds_holds_bk s pr :
  0 < sBucketNum s <= 2 ^ 32 ->
  holds s pr <-> holds_bk (sBucketNum s) (buckets s) pr.
Proof.
  intros Hbn. unfold holds, holds_bk, cand_ix.
  split; intros (p & b & Hp & Hb & Hin); exists p, b;
    (split; [|split; assumption]).
  - rewrite !bucketIndex_small in Hp by exact Hbn.
    destruct Hp as [[= <-]|[= <-]]; auto.
  - rewrite !bucketIndex_small by exact Hbn.
    destruct Hp as [->| ->]; auto.
Qed.

(** * Membership under slot writes *)

Lemma elem_of_insert_other {A : Type} (l : list A) i x y :
  x ∈ l -> l !! i <> Some x -> x ∈ <[i := y]> l.
Proof.
  intros Hin Hne. apply list_elem_of_lookup in Hin as (j & Hj).
  apply list_elem_of_lookup. exists j.
  rewrite list_lookup_insert_ne; [exact Hj|]. congruence.
Qed.

Lemma elem_of_insert_new {A : Type} (l : list A) i y :
  (i < length l)%nat -> y ∈ <[i := y]> l.
Proof.
  intros Hi. apply list_elem_of_lookup. exists i.
  apply list_lookup_insert_eq. exact Hi.
Qed.

(** ** The walk keeps every fingerprint within reach *)

Lemma holds_bk_other bn bk q p b' :
  holds_bk bn bk q ->
  (forall b, bk !! Z.to_nat p = Some b -> fp q ∈ b -> fp q ∈ b') ->
  0 <= p ->
  holds_bk bn (<[Z.to_nat p := b']> bk) q.
Proof.
  intros (p0 & b0 & Hc & Hb0 & Hin) Hkeep Hp.
  destruct (decide (Z.to_nat p0 = Z.to_nat p)) as [Heq|Hne].
  - exists p0, b'. split; [exact Hc|]. rewrite Heq. split.
    + apply list_lookup_insert_eq. apply lookup_lt_is_Some.
      rewrite <- Heq. eauto.
    + rewrite Heq in Hb0. eauto.
  - exists p0, b0. split; [exact Hc|]. split; [|exact Hin].
    rewrite list_lookup_insert_ne by congruence. exact Hb0.
Qed.

Lemma evict_walk_covers k bs n q :
  0 <= k < 64 -> keyed q ->
  forall bk p v f bk',
    0 <= p < 2 ^ k -> 0 <= v ->
    covered (2 ^ k) bk p f q ->
    evict_walk n (2 ^ k) bs bk p v f = Ok (Placed bk') ->
    holds_bk (2 ^ k) bk' q.
Proof.
  intros Hk [Hh2 Hfp].
  assert (Hbn : 0 < 2 ^ k) by (apply Z.pow_pos_nonneg; lia).
  induction n as [|n IH]; intros bk p v f bk' Hp Hv Hcov Hw; [discriminate|].
  simpl in Hw. inv_ok Hw. rename a into b, a0 into old, a1 into p1.
  apply idx_Ok in E, E0. apply umod_Ok in E1 as [_ Ep1].
  fold (alt_index (2 ^ k) old p) in Ep1.
  assert (Hpl : (Z.to_nat p < length bk)%nat) by (apply lookup_lt_is_Some; eauto).
  assert (Hvl : (Z.to_nat v < length b)%nat) by (apply lookup_lt_is_Some; eauto).
  (* after the swap *)
  assert (Hcov1 : covered (2 ^ k) (<[Z.to_nat p := <[Z.to_nat v := f]> b]> bk)
                          p1 old q).
  { destruct Hcov as [Hh|[-> Hc]].
    - destruct (decide (old = fp q)) as [Hold|Hold].
      + destruct Hh as (p0 & b0 & Hc & Hb0 & Hin).
        destruct (decide (Z.to_nat p0 = Z.to_nat p)) as [Heq|Hne].
        * assert (Hp0 : 0 <= p0)
            by (destruct Hc as [->| ->]; apply Z.mod_pos_bound; exact Hbn).
          assert (p0 = p) by lia. subst p0. rewrite E in Hb0. injection Hb0 as <-.
          destruct (decide (f = fp q)) as [->|Hf].
          -- left. exists p, (<[Z.to_nat v := fp q]> b). split; [exact Hc|].
             split; [apply list_lookup_insert_eq; exact Hpl|].
             apply elem_of_insert_new. exact Hvl.
          -- destruct (decide (b !! Z.to_nat v = Some (fp q))) as [Hv'|Hv'].
             ++ right. split; [exact Hold|]. subst p1. rewrite Hold.
                apply (proj1 (cand_ix_alt k q p Hk Hp Hh2)). exact Hc.
             ++ left. exists p, (<[Z.to_nat v := f]> b). split; [exact Hc|].
                split; [apply list_lookup_insert_eq; exact Hpl|].
                apply elem_of_insert_other; assumption.
        * left. exists p0, b0. split; [exact Hc|]. split; [|exact Hin].
          rewrite list_lookup_insert_ne by congruence. exact Hb0.
      + left. apply holds_bk_other; [exact Hh | | lia].
        intros b0 Hb0 Hin. rewrite E in Hb0. injection Hb0 as <-.
        apply elem_of_insert_other; [exact Hin|]. congruence.
    - left. exists p, (<[Z.to_nat v := fp q]> b). split; [exact Hc|].
      split; [apply list_lookup_insert_eq; exact Hpl|].
      apply elem_of_insert_new. exact Hvl. }
  destruct (bucket_findAvailableSlot _) as [i|] eqn:Hfree.
  - injection Hw as <-.
    apply bucket_findAvailableSlot_Some in Hfree.
    destruct Hcov1 as [Hh|[-> Hc]].
    + apply holds_bk_other; [exact Hh | | lia].
      intros b0 Hb0 Hin.
      rewrite list_lookup_insert_eq in Hb0 by exact Hpl. injection Hb0 as <-.
      apply elem_of_insert_other; [exact Hin|].
      rewrite Hfree. congruence.
    + exists p, (<[i := fp q]> (<[Z.to_nat v := f]> b)). split.
      * apply (proj2 (cand_ix_alt k q p Hk Hp Hh2)). subst p1. exact Hc.
      * split; [apply list_lookup_insert_eq; rewrite length_insert; exact Hpl|].
        apply elem_of_insert_new. apply lookup_lt_is_Some. eauto.
  - inv_ok Hw. rename a into v1. apply umod_Ok in E1 as [Hbs0 Ev1].
    refine (IH _ p1 v1 old bk' _ _ Hcov1 Hw).
    + subst p1. apply alt_index_range. exact Hbn.
    + subst v1. apply Z.mod_pos_bound.
      pose proof (wrap_range 32 bs ltac:(lia)). unfold u32 in *. lia.
Qed.

(** * Writing to one filter *)

Lemma wf_sub_with_buckets bs s bk' :
  wf_sub bs s -> shape (sBucketNum s) bs bk' -> wf_sub bs (with_buckets s bk').
Proof.
  intros (Hs & Hp & Hlt & _ & _) [Hl Hf].
  unfold wf_sub. simpl. auto.
Qed.

Lemma wf_sub_shape' bs s : wf_sub bs s -> shape (sBucketNum s) bs (buckets s).
Proof. intros (_ & _ & _ & Hl & Hf). split; assumption. Qed.

Lemma wf_update cf i s' :
  wf cf -> wf_sub (bucketSize cf) s' ->
  wf (with_filters cf (<[i := s']> (filters cf))).
Proof.
  intros H Hs'. wf_split H. unfold wf. simpl.
  rewrite length_insert. split_and!; try assumption; try lia.
  apply Forall_insert; assumption.
Qed.

Lemma wf_with_itemNum cf n : wf cf -> wf (with_itemNum cf n).
Proof. intros H. exact H. Qed.

Lemma wf_lookup cf i s :
  wf cf -> filters cf !! i = Some s -> wf_sub (bucketSize cf) s.
Proof.
  intros H Hs. wf_split H. rewrite Forall_lookup in Hfs. exact (Hfs _ _ Hs).
Qed.

Lemma wf_set_slot bs s p j v :
  wf_sub bs s -> wf_sub bs (set_slot s p j v).
Proof.
  intros Hs. unfold set_slot.
  destruct (buckets s !! Z.to_nat p) as [b|] eqn:Hb; [|exact Hs].
  apply wf_sub_with_buckets; [exact Hs|].
  apply shape_insert; [apply wf_sub_shape'; exact Hs|].
  rewrite length_insert.
  destruct Hs as (_ & _ & _ & _ & Hf). rewrite Forall_lookup in Hf.
  exact (Hf _ _ Hb).
Qed.

(** * The bucket counts of the generations *)

Lemma bucketNums_update cf i s s' :
  filters cf !! i = Some s -> sBucketNum s' = sBucketNum s ->
  sBucketNum <$> <[i := s']> (filters cf) = bucketNums cf.
Proof.
  intros Hs Heq. unfold bucketNums.
  rewrite list_fmap_insert, Heq. apply list_insert_id.
  rewrite list_lookup_fmap, Hs. reflexivity.
Qed.

Lemma insert_scan_bucketNums n cf pr cf' :
  insert_scan n cf pr = Ok (Some cf') -> bucketNums cf' = bucketNums cf.
Proof.
  intros H.
  destruct (insert_scan_Some _ _ _ _ H)
    as (i & s & p & b & j & _ & Hs & _ & _ & _ & _ & ->).
  apply (bucketNums_update cf i s); [exact Hs | reflexivity].
Qed.

Lemma evict_first_loop_newest cf pr cur w :
  evict_first_loop cf pr = Ok (cur, w) ->
  filters cf !! Z.to_nat (u16 (filterNum cf - 1)) = Some cur.
Proof.
  unfold evict_first_loop. intros H.
  destruct (idx (filters cf) (u16 (filterNum cf - 1))) as [c|] eqn:Hc;
    [|discriminate].
  simpl in H. apply idx_Ok in Hc.
  destruct (umod _ _); [|discriminate]. simpl in H.
  destruct (evict_walk _ _ _ _ _ _ _); [|discriminate]. simpl in H.
  congruence.
Qed.

Lemma evictAndInsert_bucketNums cf pr cf1 st :
  evictAndInsert cf pr = Ok (cf1, st) -> bucketNums cf1 = bucketNums cf.
Proof.
  unfold evictAndInsert. intros H.
  destruct (evict_first_loop cf pr) as [[cur w]|] eqn:Hloop; [|discriminate].
  apply evict_first_loop_newest in Hloop. simpl in H.
  destruct w as [bk|bk p v f].
  - injection H as <- <-.
    apply (bucketNums_update cf _ cur); [exact Hloop | reflexivity].
  - destruct (evict_rollback _ _ _ _ _ _ _); [|discriminate].
    injection H as <- <-.
    apply (bucketNums_update cf _ cur); [exact Hloop | reflexivity].
Qed.

Lemma grow_Ok cf cf2 :
  grow cf = Ok cf2 ->
  expansion cf ^ filterNum cf < 2 ^ 53 /\
  cf2 = with_filterNum
          (with_filters cf
             (filters cf ++
              [empty_subCF (u64 (bucketNum cf * expansion cf ^ filterNum cf))
                           (bucketSize cf)]))
          (u16 (filterNum cf + 1)).
Proof.
  intros H.
  assert (Hlt : expansion cf ^ filterNum cf < 2 ^ 53).
  { unfold grow, pow_float_u64 in H.
    destruct (Z.ltb_spec (expansion cf ^ filterNum cf) (2 ^ 53)); [assumption|].
    discriminate. }
  split; [exact Hlt|]. rewrite (grow_exact cf Hlt) in H. congruence.
Qed.

Lemma grow_bucketNums cf cf2 :
  grow cf = Ok cf2 -> exists bn, bucketNums cf2 = bucketNums cf ++ [bn].
Proof.
  intros H. apply grow_Ok in H as [_ ->]. eexists.
  unfold bucketNums. simpl. rewrite fmap_app. reflexivity.
Qed.

Lemma insertFp_bucketNums fuel cf pr cf' st :
  insertFp fuel cf pr = Ok (cf', st) ->
  bucketNums cf `prefix_of` bucketNums cf'.
Proof.
  revert cf. induction fuel as [|fuel IH]; intros cf; simpl; [discriminate|].
  intros H.
  destruct (insert_scan _ cf pr) as [[cf0|]|] eqn:Hscan; simpl in H;
    [| |discriminate].
  - injection H as <- <-. rewrite (insert_scan_bucketNums _ _ _ _ Hscan). done.
  - destruct (evictAndInsert cf pr) as [[cf1 st1]|] eqn:Hev; simpl in H;
      [|discriminate].
    pose proof (evictAndInsert_bucketNums _ _ _ _ Hev) as H1.
    destruct (is_inserted st1).
    + injection H as <- <-. unfold bucketNums in *. simpl. rewrite H1. done.
    + destruct (expansion cf1 =? 0).
      * injection H as <- <-. rewrite H1. done.
      * destruct (grow cf1) as [cf2|] eqn:Hg; simpl in H; [|discriminate].
        destruct (grow_bucketNums _ _ Hg) as (bn & H2).
        apply IH in H. rewrite <- H1. etrans; [|exact H].
        rewrite H2. apply prefix_app_r. done.
Qed.

(** * The two outcomes of evictAndInsert *)

Lemma evictAndInsert_cases cf pr :
  wf cf ->
  exists cur k,
    filters cf !! Z.to_nat (u16 (filterNum cf - 1)) = Some cur /\
    0 <= k < 64 /\ sBucketNum cur = 2 ^ k /\
    (evictAndInsert cf pr = Ok (cf, cuckooNospace) \/
     exists bk',
       evict_walk (Z.to_nat (maxIter cf)) (2 ^ k) (bucketSize cf)
                  (buckets cur) (u64 (h1 pr) mod 2 ^ k) 0 (fp pr)
         = Ok (Placed bk') /\
       shape (2 ^ k) (bucketSize cf) bk' /\
       evictAndInsert cf pr =
         Ok (with_filters cf
               (<[Z.to_nat (u16 (filterNum cf - 1)) := with_buckets cur bk']>
                  (filters cf)),
             cuckooInserted)).
Proof.
  intros H. destruct (wf_newest cf H) as (cur & Hcur & Hsub).
  destruct (wf_sub_shape _ _ Hsub) as (k & Hk & Hbn & Hsh).
  exists cur, k.
  split; [exact Hcur|]. split; [exact Hk|]. split; [exact Hbn|].
  pose proof H as H'. wf_split H'.
  assert (Hpos : 0 < 2 ^ k) by (apply Z.pow_pos_nonneg; lia).
  destruct (evict_walk_total k (bucketSize cf) (Z.to_nat (maxIter cf)) Hk Hbs
              (buckets cur) (u64 (h1 pr) mod 2 ^ k) 0 (fp pr) Hsh)
    as (w & Hw & Hshw); [apply Z.mod_pos_bound; lia | lia |].
  assert (Hloop : evict_first_loop cf pr = Ok (cur, w)).
  { unfold evict_first_loop, idx. rewrite Hcur. simpl. rewrite Hbn.
    unfold umod. destruct (Z.eqb_spec (2 ^ k) 0); [lia|]. simpl.
    rewrite Hw. reflexivity. }
  destruct w as [bk'|bk' p v f].
  - right. exists bk'. split; [exact Hw|]. split; [exact Hshw|].
    unfold evictAndInsert. rewrite Hloop. reflexivity.
  - left. exact (evictAndInsert_exhausted _ _ _ _ _ _ _ H Hloop).
Qed.

(** * The new generation *)

Lemma grown_bucketNum base e n :
  is_pow2 base -> is_pow2 e -> 0 <= n ->
  u64 (base * e ^ n) <> 0 ->
  is_pow2 (u64 (base * e ^ n)) /\ u64 (base * e ^ n) < 2 ^ 64.
Proof.
  intros [Hb0 Hb] [He0 He] Hn Hne.
  pose proof (Z.log2_nonneg base) as Ha. pose proof (Z.log2_nonneg e) as Hk.
  set (a := Z.log2 base) in *. set (k := Z.log2 e) in *.
  assert (Heq : base * e ^ n = 2 ^ (a + k * n)).
  { rewrite Hb, He at 1. rewrite <- Z.pow_mul_r, <- Z.pow_add_r by lia.
    reflexivity. }
  rewrite Heq in *.
  destruct (Z_lt_le_dec (a + k * n) 64) as [Hlt|Hge].
  - assert (2 ^ (a + k * n) < 2 ^ 64) by (apply Z.pow_lt_mono_r; lia).
    assert (0 < 2 ^ (a + k * n)) by (apply Z.pow_pos_nonneg; lia).
    rewrite u64_small by lia. split; [|lia].
    apply pow2_is_pow2. lia.
  - exfalso. apply Hne. unfold u64, wrap.
    replace (a + k * n) with ((a + k * n - 64) + 64) by lia.
    rewrite Z.pow_add_r by lia. apply Z.mod_mul. lia.
Qed.

Lemma sub_findAvailableSlot_empty bn bs pr :
  wf_sub bs (empty_subCF bn bs) -> 1 <= bs ->
  exists p, sub_findAvailableSlot (empty_subCF bn bs) pr = Ok (Some (p, O)).
Proof.
  intros Hs Hbs.
  destruct (candidates _ _ pr Hs)
    as (p1 & p2 & b1 & b2 & H1 & H2 & H3 & H4 & _).
  exists p1. unfold sub_findAvailableSlot. rewrite H1. simpl. rewrite H2. simpl.
  simpl in H3. unfold idx. rewrite H3. simpl.
  apply lookup_replicate in H3 as [-> _].
  unfold makeBucket. destruct (Z.to_nat bs) as [|m] eqn:Hm; [lia|].
  reflexivity.
Qed.

(** The generation [grow] appends to a well-formed filter is well formed
    when its bucket count is not 0. *)
Lemma grow_wf cf cf2 :
  wf cf -> expansion cf <> 0 -> grow cf = Ok cf2 ->
  u64 (bucketNum cf * expansion cf ^ filterNum cf) <> 0 ->
  wf cf2.
Proof.
  intros H He Hg Hne. apply grow_Ok in Hg as [Hpow ->].
  pose proof (wf_filterNum_le cf H) as Hfle.
  wf_split H. destruct Hexp as [?|Hexp]; [contradiction|].
  destruct (grown_bucketNum _ _ (filterNum cf) Hbnp Hexp ltac:(lia) Hne)
    as [Hp Hlt].
  unfold wf. simpl. rewrite length_app. simpl.
  split_and!; try assumption; try lia.
  - right. exact Hexp.
  - rewrite Hlen. unfold u16, wrap.
    rewrite Z.add_mod_idemp_l by lia. f_equal. lia.
  - apply Forall_app. split; [exact Hfs|].
    constructor; [|constructor]. apply empty_subCF_wf; [assumption..|lia].
Qed.

(** * The four ways insertFp returns *)

Lemma insertFp_cases fuel cf pr cf' st :
  wf cf ->
  insertFp fuel cf pr = Ok (cf', st) ->
  Z.of_nat (length (filters cf')) <= 65535 ->
  (st = cuckooInserted /\
   insert_scan (Z.to_nat (filterNum cf)) cf pr = Ok (Some cf')) \/
  (st = cuckooInserted /\
   exists cf1, evictAndInsert cf pr = Ok (cf1, cuckooInserted) /\
               cf' = with_itemNum cf1 (u64 (itemNum cf1 + 1))) \/
  (st = cuckooNospace /\ cf' = cf) \/
  (st = cuckooInserted /\
   exists cf2, grow cf = Ok cf2 /\ wf cf2 /\
               insert_scan (Z.to_nat (filterNum cf2)) cf2 pr = Ok (Some cf')).
Proof.
  intros H Hrun Hlen'. destruct fuel as [|fuel]; [discriminate|].
  simpl in Hrun.
  destruct (insert_scan _ cf pr) as [[cf0|]|] eqn:Hscan; simpl in Hrun;
    [| |discriminate].
  { injection Hrun as <- <-. left. auto. }
  right.
  destruct (evictAndInsert_cases cf pr H)
    as (cur & k & Hcur & Hk & Hbn & [Hev|(bk' & Hw & Hsh & Hev)]);
    rewrite Hev in Hrun; simpl in Hrun.
  2:{ injection Hrun as <- <-. left. split; [reflexivity|]. eauto. }
  right.
  destruct (Z.eqb_spec (expansion cf) 0) as [He|He].
  { injection Hrun as <- <-. left. auto. }
  right.
  destruct (grow cf) as [cf2|] eqn:Hg; simpl in Hrun; [|discriminate].
  pose proof (insertFp_bucketNums _ _ _ _ _ Hrun) as Hpre.
  apply prefix_length in Hpre. unfold bucketNums in Hpre.
  rewrite !length_fmap in Hpre.
  pose proof Hg as Hg'. apply grow_Ok in Hg' as [Hpow Hcf2].
  pose proof H as H'. wf_split H'.
  assert (Hl2 : length (filters cf2) = S (length (filters cf)))
    by (rewrite Hcf2; simpl; rewrite length_app; simpl; lia).
  destruct (wf_filterNum cf H ltac:(lia)) as [Hfeq Hfr].
  assert (Hfn2 : filterNum cf2 = filterNum cf + 1)
    by (rewrite Hcf2; simpl; apply u16_small; lia).
  (* the recursive call starts by looking at the new generation *)
  destruct fuel as [|fuel]; [discriminate|]. simpl in Hrun.
  assert (Hn : Z.to_nat (filterNum cf2) = S (length (filters cf))) by lia.
  rewrite Hn in Hrun.
  set (new := empty_subCF (u64 (bucketNum cf * expansion cf ^ filterNum cf))
                          (bucketSize cf)) in *.
  assert (Hnew : filters cf2 !! length (filters cf) = Some new).
  { rewrite Hcf2. simpl. rewrite lookup_app_r by lia.
    rewrite Nat.sub_diag. reflexivity. }
  assert (Hne : u64 (bucketNum cf * expansion cf ^ filterNum cf) <> 0).
  { simpl in Hrun. unfold idx at 1 in Hrun. rewrite Nat2Z.id, Hnew in Hrun.
    simpl in Hrun.
    destruct (sub_findAvailableSlot new pr) as [r|] eqn:Hr; [|discriminate].
    unfold sub_findAvailableSlot in Hr.
    destruct (bucketIndex new (h1 pr)) as [p1|] eqn:Hp1; [|discriminate].
    apply bucketIndex_Ok in Hp1 as [Hp1 _]. exact Hp1. }
  assert (Hwf2 : wf cf2) by (apply (grow_wf cf); assumption).
  destruct (sub_findAvailableSlot_empty
              (u64 (bucketNum cf * expansion cf ^ filterNum cf))
              (bucketSize cf) pr) as (p & Hp); [|lia|].
  { apply (wf_lookup cf2 _ _ Hwf2) in Hnew. rewrite Hcf2 in Hnew. exact Hnew. }
  fold new in Hp.
  assert (Hscan2 : exists cf3,
            insert_scan (S (length (filters cf))) cf2 pr = Ok (Some cf3)).
  { simpl. unfold idx. rewrite Nat2Z.id, Hnew. simpl. rewrite Hp. simpl. eauto. }
  destruct Hscan2 as (cf3 & Hscan2). rewrite Hscan2 in Hrun. simpl in Hrun.
  injection Hrun as <- <-. split; [reflexivity|].
  exists cf2. rewrite Hn. auto.
Qed.

(** * Insertion keeps the filter well formed *)

Lemma insert_scan_wf n cf pr cf' :
  wf cf -> insert_scan n cf pr = Ok (Some cf') -> wf cf'.
Proof.
  intros H Hscan.
  destruct (insert_scan_Some _ _ _ _ Hscan)
    as (i & s & p & b & j & _ & Hs & _ & Hb & _ & _ & ->).
  apply wf_with_itemNum, wf_update; [exact H|].
  pose proof (wf_lookup _ _ _ H Hs) as Hsub.
  rewrite <- (set_slot_eq s p j (fp pr) b Hb). apply wf_set_slot. exact Hsub.
Qed.

Lemma evictAndInsert_wf cf pr cf1 st :
  wf cf -> evictAndInsert cf pr = Ok (cf1, st) -> wf cf1.
Proof.
  intros H Hev.
  destruct (evictAndInsert_cases cf pr H)
    as (cur & k & Hcur & Hk & Hbn & [Hev'|(bk' & Hw & Hsh & Hev')]);
    rewrite Hev' in Hev; injection Hev as <- <-; [exact H|].
  apply wf_update; [exact H|].
  apply wf_sub_with_buckets; [exact (wf_lookup _ _ _ H Hcur)|].
  rewrite Hbn. exact Hsh.
Qed.

Lemma insertFp_wf fuel cf pr cf' st :
  wf cf ->
  insertFp fuel cf pr = Ok (cf', st) ->
  Z.of_nat (length (filters cf')) <= 65535 ->
  wf cf'.
Proof.
  intros H Hrun Hlen.
  destruct (insertFp_cases _ _ _ _ _ H Hrun Hlen)
    as [[_ Hscan]|[[_ (cf1 & Hev & ->)]|[[_ ->]|[_ (cf2 & Hg & Hwf2 & Hscan)]]]].
  - exact (insert_scan_wf _ _ _ _ H Hscan).
  - apply wf_with_itemNum. exact (evictAndInsert_wf _ _ _ _ H Hev).
  - exact H.
  - exact (insert_scan_wf _ _ _ _ Hwf2 Hscan).
Qed.

(** * Stored keys stay stored *)

Lemma stored_update cf i s s' q :
  filters cf !! i = Some s ->
  (holds s q -> holds s' q) ->
  stored cf q ->
  stored (with_filters cf (<[i := s']> (filters cf))) q.
Proof.
  intros Hs Himp (s0 & Hin & Hh).
  apply list_elem_of_lookup in Hin as (i0 & Hi0).
  destruct (decide (i0 = i)) as [->|Hne].
  - rewrite Hs in Hi0. injection Hi0 as <-.
    exists s'. split; [|auto]. apply list_elem_of_lookup. exists i. simpl.
    apply list_lookup_insert_eq. apply lookup_lt_is_Some. eauto.
  - exists s0. split; [|exact Hh]. apply list_elem_of_lookup. exists i0. simpl.
    rewrite list_lookup_insert_ne by congruence. exact Hi0.
Qed.

Lemma stored_new cf i s s' q :
  filters cf !! i = Some s -> holds s' q ->
  stored (with_filters cf (<[i := s']> (filters cf))) q.
Proof.
  intros Hs Hh. exists s'. split; [|exact Hh].
  apply list_elem_of_lookup. exists i. simpl.
  apply list_lookup_insert_eq. apply lookup_lt_is_Some. eauto.
Qed.

(** Writing a fingerprint to an empty slot hides no other fingerprint. *)
Lemma holds_fill_slot s p b j v q :
  buckets s !! Z.to_nat p = Some b -> b !! j = Some nullFp -> 0 <= p ->
  fp q <> nullFp ->
  holds s q ->
  holds (with_buckets s (<[Z.to_nat p := <[j := v]> b]> (buckets s))) q.
Proof.
  intros Hb Hj Hp Hfp (p0 & b0 & Hc & Hb0 & Hin).
  assert (Hp0 : 0 <= p0).
  { destruct Hc as [Hc|Hc]; apply bucketIndex_Ok in Hc as [_ ->];
      apply wrap_range; lia. }
  unfold holds. simpl.
  destruct (decide (p0 = p)) as [->|Hne].
  - rewrite Hb in Hb0. injection Hb0 as <-.
    exists p, (<[j := v]> b). split; [exact Hc|]. split.
    + apply list_lookup_insert_eq. apply lookup_lt_is_Some. eauto.
    + apply elem_of_insert_other; [exact Hin|]. rewrite Hj. congruence.
  - exists p0, b0. split; [exact Hc|]. split; [|exact Hin].
    rewrite list_lookup_insert_ne by lia. exact Hb0.
Qed.

Lemma insert_scan_stored n cf pr cf' :
  insert_scan n cf pr = Ok (Some cf') ->
  stored cf' pr /\
  forall q, fp q <> nullFp -> stored cf q -> stored cf' q.
Proof.
  intros Hscan.
  destruct (insert_scan_Some _ _ _ _ Hscan)
    as (i & s & p & b & j & _ & Hs & Hc & Hb & Hj & _ & ->).
  assert (Hp : 0 <= p).
  { destruct Hc as [Hc|Hc]; apply bucketIndex_Ok in Hc as [_ ->];
      apply wrap_range; lia. }
  split.
  - apply (stored_new cf i s); [exact Hs|].
    exists p, (<[j := fp pr]> b). simpl. split; [exact Hc|]. split.
    + apply list_lookup_insert_eq. apply lookup_lt_is_Some. eauto.
    + apply elem_of_insert_new. apply lookup_lt_is_Some. eauto.
  - intros q Hq Hst. apply (stored_update cf i s); [exact Hs| |exact Hst].
    apply holds_fill_slot; assumption.
Qed.

Lemma evictAndInsert_stored cf pr cf1 :
  wf cf -> keyed pr ->
  evictAndInsert cf pr = Ok (cf1, cuckooInserted) ->
  Forall (fun s => sBucketNum s <= 2 ^ 32) (filters cf) ->
  stored cf1 pr /\
  forall q, keyed q -> stored cf q -> stored cf1 q.
Proof.
  intros H Hpr Hev Hsmall.
  destruct (evictAndInsert_cases cf pr H)
    as (cur & k & Hcur & Hk & Hbn & [Hev'|(bk' & Hw & Hsh & Hev')]);
    rewrite Hev' in Hev; [discriminate|]. injection Hev as <-.
  assert (Hpos : 0 < 2 ^ k) by (apply Z.pow_pos_nonneg; lia).
  assert (Hle : 0 < sBucketNum cur <= 2 ^ 32).
  { rewrite Forall_lookup in Hsmall. pose proof (Hsmall _ _ Hcur). lia. }
  assert (Hle' : 0 < sBucketNum (with_buckets cur bk') <= 2 ^ 32) by exact Hle.
  assert (Hp0 : 0 <= u64 (h1 pr) mod 2 ^ k < 2 ^ k)
    by (apply Z.mod_pos_bound; exact Hpos).
  split.
  - apply (stored_new cf _ cur); [exact Hcur|].
    apply (holds_holds_bk _ _ Hle'). simpl. rewrite Hbn.
    refine (evict_walk_covers k _ _ pr Hk Hpr _ _ _ _ _ Hp0 _ _ Hw); [lia|].
    right. split; [reflexivity|]. left. reflexivity.
  - intros q Hq Hst. apply (stored_update cf _ cur); [exact Hcur| |exact Hst].
    intros Hh. apply (holds_holds_bk _ _ Hle'). simpl. rewrite Hbn.
    refine (evict_walk_covers k _ _ q Hk Hq _ _ _ _ _ Hp0 _ _ Hw); [lia|].
    left. rewrite <- Hbn. apply (holds_holds_bk _ _ Hle). exact Hh.
Qed.

Lemma grow_stored cf cf2 q : grow cf = Ok cf2 -> stored cf q -> stored cf2 q.
Proof.
  intros Hg (s & Hin & Hh). apply grow_Ok in Hg as [_ ->].
  exists s. split; [|exact Hh]. simpl. apply elem_of_app. left. exact Hin.
Qed.

Lemma addressable_prefix cf cf' :
  bucketNums cf `prefix_of` bucketNums cf' -> addressable cf' -> addressable cf.
Proof.
  intros (l & Hl) Hall. unfold addressable in *. rewrite Hl in Hall.
  apply Forall_app in Hall as [Hall _]. exact Hall.
Qed.

Lemma addressable_filters cf :
  addressable cf -> Forall (fun s => sBucketNum s <= 2 ^ 32) (filters cf).
Proof.
  unfold addressable, bucketNums. rewrite Forall_fmap.
  apply Forall_impl. intros s Hs. simpl in Hs. lia.
Qed.

(** [insertFp], through any number of calls of [grow]: the filter stays
    well formed, a stored fingerprint stays stored, and the fingerprint of
    an insertion that succeeds is stored. *)
Lemma insertFp_stored fuel :
  forall cf pr cf' st,
    wf cf -> keyed pr ->
    insertFp fuel cf pr = Ok (cf', st) ->
    addressable cf' ->
    wf cf' /\
    (st = cuckooInserted \/ st = cuckooNospace) /\
    (st = cuckooInserted -> stored cf' pr) /\
    forall q, keyed q -> stored cf q -> stored cf' q.
Proof.
  induction fuel as [|fuel IH]; intros cf pr cf' st H Hpr Hrun Hadr;
    [discriminate|].
  pose proof (addressable_prefix _ _ (insertFp_bucketNums _ _ _ _ _ Hrun) Hadr)
    as Hadr0.
  simpl in Hrun.
  destruct (insert_scan _ cf pr) as [[cf0|]|] eqn:Hscan; simpl in Hrun;
    [| |discriminate].
  { injection Hrun as <- <-.
    destruct (insert_scan_stored _ _ _ _ Hscan) as [Hnew Hold].
    split; [exact (insert_scan_wf _ _ _ _ H Hscan)|].
    split; [auto|]. split; [auto|]. intros q [_ Hq]. auto. }
  destruct (evictAndInsert_cases cf pr H)
    as (cur & k & Hcur & Hk & Hbn & [Hev|(bk' & Hw & Hsh & Hev)]).
  2:{ pose proof (evictAndInsert_wf _ _ _ _ H Hev) as Hwf1.
      destruct (evictAndInsert_stored _ _ _ H Hpr Hev
                  (addressable_filters _ Hadr0)) as [Hnew Hold].
      rewrite Hev in Hrun. simpl in Hrun. injection Hrun as <- <-.
      split; [exact Hwf1|]. split; [auto|]. split; [auto|]. exact Hold. }
  rewrite Hev in Hrun. simpl in Hrun.
  destruct (Z.eqb_spec (expansion cf) 0) as [He|He].
  { injection Hrun as <- <-. split; [exact H|]. split; [auto|].
    split; [discriminate|auto]. }
  destruct (grow cf) as [cf2|] eqn:Hg; simpl in Hrun; [|discriminate].
  assert (Hwf2 : wf cf2).
  { apply (grow_wf cf); try assumption.
    pose proof (insertFp_bucketNums _ _ _ _ _ Hrun) as Hpre.
    pose proof (addressable_prefix _ _ Hpre Hadr) as Hadr2.
    pose proof Hg as Hg'. apply grow_Ok in Hg' as [_ Hcf2].
    unfold addressable, bucketNums in Hadr2. rewrite Hcf2 in Hadr2.
    simpl in Hadr2. rewrite fmap_app in Hadr2.
    apply Forall_app in Hadr2 as [_ Hlast].
    inversion Hlast as [|? ? Hpos _]; subst. simpl in Hpos. lia. }
  destruct (IH _ _ _ _ Hwf2 Hpr Hrun Hadr) as (Hwf' & Hst & Hnew & Hold).
  split; [exact Hwf'|]. split; [exact Hst|]. split; [exact Hnew|].
  intros q Hq Hs. apply Hold; [exact Hq|]. exact (grow_stored _ _ _ Hg Hs).
Qed.

(** * Sequences of calls *)

Lemma limits_prefix cf cf' :
  bucketNums cf `prefix_of` bucketNums cf' -> limits cf' -> limits cf.
Proof.
  intros Hpre [Hlen Hall]. pose proof (prefix_length _ _ Hpre) as Hl.
  unfold bucketNums in Hl. rewrite !length_fmap in Hl.
  destruct Hpre as (l & Hl'). rewrite Hl' in Hall.
  apply Forall_app in Hall as [Hall _].
  split; [lia | exact Hall].
Qed.

Section Runs.

Variable MurmurHash64A : list Byte.byte -> Z -> Z.
Variable over_tenth : Z -> Z -> bool.

Abbreviation apply_op := (apply_op MurmurHash64A over_tenth).
Abbreviation run := (run MurmurHash64A over_tenth).
Abbreviation buildParams := (buildParams MurmurHash64A).

Lemma buildParams_keyed data : keyed (buildParams data).
Proof. apply paramsOfHash_keyed. Qed.

Lemma apply_op_bucketNums fuel cf o cf' out :
  is_delete o = false ->
  apply_op fuel cf o = Ok (cf', out) ->
  bucketNums cf `prefix_of` bucketNums cf'.
Proof.
  destruct o as [d|d|d|d]; simpl; intros Hnd H; try discriminate.
  - unfold Insert in H.
    destruct (insertFp fuel cf (buildParams d)) as [[cf1 st]|] eqn:Hi;
      [|discriminate].
    simpl in H. injection H as <- _.
    exact (insertFp_bucketNums _ _ _ _ _ Hi).
  - unfold Exist in H. destruct (existFp cf _); [|discriminate].
    simpl in H. injection H as <- _. done.
  - unfold Count in H. destruct (count_scan _ _ _); [|discriminate].
    simpl in H. injection H as <- _. done.
Qed.

Lemma run_cons fuel cf o rest cf' outs :
  run fuel cf (o :: rest) = Ok (cf', outs) ->
  exists cf1 out outs',
    apply_op fuel cf o = Ok (cf1, out) /\
    run fuel cf1 rest = Ok (cf', outs') /\
    outs = out :: outs'.
Proof.
  simpl. intros H.
  destruct (apply_op fuel cf o) as [[cf1 out]|] eqn:Hop; [|discriminate].
  simpl in H.
  destruct (run fuel cf1 rest) as [[cf2 outs']|] eqn:Hrest; [|discriminate].
  simpl in H. injection H as <- <-. exists cf1, out, outs'. auto.
Qed.

Lemma run_app fuel cf l1 l2 cf' outs :
  run fuel cf (l1 ++ l2) = Ok (cf', outs) ->
  exists cf1 o1 o2,
    run fuel cf l1 = Ok (cf1, o1) /\
    run fuel cf1 l2 = Ok (cf', o2) /\
    outs = o1 ++ o2 /\ length o1 = length l1.
Proof.
  revert cf outs. induction l1 as [|o l1 IH]; intros cf outs H.
  - exists cf, [], outs. auto.
  - rewrite <- app_comm_cons in H.
    apply run_cons in H as (c1 & out & outs' & Hop & Hrest & ->).
    destruct (IH _ _ Hrest) as (c2 & o1 & o2 & H1 & H2 & -> & Hlen).
    exists c2, (out :: o1), o2. simpl. rewrite Hop. simpl. rewrite H1. simpl.
    split_and!; auto.
Qed.

Lemma run_bucketNums fuel cf ops cf' outs :
  Forall (fun o => is_delete o = false) ops ->
  run fuel cf ops = Ok (cf', outs) ->
  bucketNums cf `prefix_of` bucketNums cf'.
Proof.
  intros Hnd. revert cf outs.
  induction Hnd as [|o rest Ho _ IH]; intros cf outs H.
  - injection H as <- _. done.
  - apply run_cons in H as (c1 & out & outs' & Hop & Hrest & ->).
    etrans; [exact (apply_op_bucketNums _ _ _ _ _ Ho Hop)|].
    exact (IH _ _ Hrest).
Qed.

(** One call other than [Delete]. *)
Lemma apply_op_stored fuel cf o cf' out :
  wf cf -> is_delete o = false ->
  apply_op fuel cf o = Ok (cf', out) ->
  addressable cf' ->
  wf cf' /\
  (forall q, keyed q -> stored cf q -> stored cf' q) /\
  (forall d, o = OpInsert d -> out = Done true -> stored cf' (buildParams d)).
Proof.
  intros H Hnd Hop Hadr.
  destruct o as [d|d|d|d]; simpl in Hop; try discriminate.
  - unfold Insert in Hop.
    destruct (insertFp fuel cf (buildParams d)) as [[cf1 st]|] eqn:Hi;
      [|discriminate].
    simpl in Hop. injection Hop as <- <-.
    destruct (insertFp_stored _ _ _ _ _ H (buildParams_keyed d) Hi Hadr)
      as (Hwf' & Hst & Hnew & Hold).
    split; [exact Hwf'|]. split; [exact Hold|].
    intros d' [= <-] Hout. apply Hnew.
    destruct Hst as [->| ->]; [reflexivity|discriminate].
  - unfold Exist in Hop. destruct (existFp cf _); [|discriminate].
    simpl in Hop. injection Hop as <- <-.
    split; [exact H|]. split; [auto|]. discriminate.
  - unfold Count in Hop. destruct (count_scan _ _ _); [|discriminate].
    simpl in Hop. injection Hop as <- <-.
    split; [exact H|]. split; [auto|]. discriminate.
Qed.

Lemma run_stored fuel cf ops cf' outs :
  wf cf -> Forall (fun o => is_delete o = false) ops ->
  run fuel cf ops = Ok (cf', outs) ->
  addressable cf' ->
  wf cf' /\ forall q, keyed q -> stored cf q -> stored cf' q.
Proof.
  intros H Hnd. revert cf outs H.
  induction Hnd as [|o rest Ho Hrest IH]; intros cf outs H Hrun Hadr.
  - injection Hrun as <- _. auto.
  - apply run_cons in Hrun as (c1 & out & outs' & Hop & Hrun & ->).
    pose proof (addressable_prefix _ _ (run_bucketNums _ _ _ _ _ Hrest Hrun) Hadr)
      as Hadr1.
    destruct (apply_op_stored _ _ _ _ _ H Ho Hop Hadr1) as (Hwf1 & Hold & _).
    destruct (IH _ _ Hwf1 Hrun Hadr) as [Hwf' Hold'].
    split; [exact Hwf'|]. auto.
Qed.

(** ** Runs without Delete

    X17: take a well-formed filter and a sequence of calls without
    [Delete] at the end of which every generation has at least one and at
    most [2^32] buckets.  If [Insert] of a key returned true somewhere in
    the sequence, [Exist] of that key at the end returns true. *)
Theorem no_false_negatives fuel cf0 ops1 ops2 data cf outs :
  wf cf0 ->
  Forall (fun o => is_delete o = false) (ops1 ++ ops2) ->
  run fuel cf0 (ops1 ++ OpInsert data :: ops2) = Ok (cf, outs) ->
  outs !! length ops1 = Some (Done true) ->
  addressable cf ->
  Exist MurmurHash64A cf data = Ok (cf, true).
Proof.
  intros H Hnd Hrun Hout Hadr.
  apply Forall_app in Hnd as [Hnd1 Hnd2].
  apply run_app in Hrun as (c1 & o1 & o2 & Hrun1 & Hrun2 & -> & Hlen1).
  apply run_cons in Hrun2 as (c2 & out & o3 & Hop & Hrun3 & ->).
  rewrite lookup_app_r, Hlen1, Nat.sub_diag in Hout by lia.
  injection Hout as ->.
  pose proof (addressable_prefix _ _ (run_bucketNums _ _ _ _ _ Hnd2 Hrun3) Hadr)
    as Hadr2.
  assert (Hins : is_delete (OpInsert data) = false) by reflexivity.
  pose proof (addressable_prefix _ _ (apply_op_bucketNums _ _ _ _ _ Hins Hop) Hadr2)
    as Hadr1.
  destruct (run_stored _ _ _ _ _ H Hnd1 Hrun1 Hadr1) as [Hwf1 _].
  destruct (apply_op_stored _ _ _ _ _ Hwf1 Hins Hop Hadr2) as (Hwf2 & _ & Hnew).
  destruct (run_stored _ _ _ _ _ Hwf2 Hnd2 Hrun3 Hadr) as [Hwf Hold].
  assert (Hst : stored cf (buildParams data)).
  { apply Hold; [apply buildParams_keyed|]. apply (Hnew data); reflexivity. }
  unfold Exist. fold buildParams.
  rewrite (proj2 (existFp_true cf _ Hwf) Hst). reflexivity.
Qed.

End Runs.

(** * Counting occupied slots *)

Lemma sumZ_app {A : Type} (f : A -> Z) l1 l2 :
  sumZ f (l1 ++ l2) = sumZ f l1 + sumZ f l2.
Proof. induction l1 as [|x l1 IH]; simpl; [reflexivity|]. rewrite IH. lia. Qed.

Lemma sumZ_insert {A : Type} (f : A -> Z) l i x y :
  l !! i = Some x -> sumZ f (<[i := y]> l) = sumZ f l - f x + f y.
Proof.
  revert i. induction l as [|z l IH]; intros [|i]; simpl; try discriminate.
  - intros [= ->]. lia.
  - intros H. rewrite (IH _ H). lia.
Qed.

Lemma sumZ_nonneg {A : Type} (f : A -> Z) l :
  (forall x, 0 <= f x) -> 0 <= sumZ f l.
Proof.
  intros Hf. induction l as [|x l IH]; simpl; [lia|]. specialize (Hf x). lia.
Qed.

Lemma sumZ_zero {A : Type} (f : A -> Z) l :
  Forall (fun x => f x = 0) l -> sumZ f l = 0.
Proof. induction 1 as [|x l Hx _ IH]; simpl; lia. Qed.

Lemma sumZ_bound {A : Type} (f : A -> Z) l c :
  Forall (fun x => f x <= c) l -> sumZ f l <= c * Z.of_nat (length l).
Proof. induction 1 as [|x l Hx _ IH]; simpl length; simpl sumZ; lia. Qed.

Lemma sumZ_lookup_le {A : Type} (f : A -> Z) l i x :
  (forall y, 0 <= f y) -> l !! i = Some x -> f x <= sumZ f l.
Proof.
  intros Hf. revert i. induction l as [|z l IH]; intros [|i]; simpl;
    try discriminate.
  - intros [= ->]. pose proof (sumZ_nonneg f l Hf). lia.
  - intros H. specialize (IH _ H). specialize (Hf z). lia.
Qed.

Lemma occ_slot_range v : 0 <= occ_slot v <= 1.
Proof. unfold occ_slot. destruct (v =? nullFp); lia. Qed.

Lemma occ_slot_nonzero v : v <> nullFp -> occ_slot v = 1.
Proof. unfold occ_slot. intros H. destruct (Z.eqb_spec v nullFp); [contradiction|reflexivity]. Qed.

Lemma occ_nonneg b : 0 <= occ b.
Proof. apply sumZ_nonneg. intros v. apply occ_slot_range. Qed.

Lemma occ_sub_nonneg s : 0 <= occ_sub s.
Proof. apply sumZ_nonneg. apply occ_nonneg. Qed.

Lemma occ_le_length b : occ b <= Z.of_nat (length b).
Proof.
  unfold occ. etrans; [apply (sumZ_bound _ _ 1)|lia].
  apply Forall_forall. intros v _. apply occ_slot_range.
Qed.

Lemma occ_insert (b : bucket) j x v :
  b !! j = Some x -> occ (<[j := v]> b) = occ b - occ_slot x + occ_slot v.
Proof. intros Hj. unfold occ. apply sumZ_insert. exact Hj. Qed.

(** [*slot = v] on the slot [(p, j)] of [s]. *)
Lemma occ_sub_write s p b j x v :
  buckets s !! p = Some b -> b !! j = Some x ->
  occ_sub (with_buckets s (<[p := <[j := v]> b]> (buckets s))) =
  occ_sub s - occ_slot x + occ_slot v.
Proof.
  intros Hb Hj. unfold occ_sub. simpl. rewrite (sumZ_insert _ _ _ _ _ Hb).
  rewrite (occ_insert _ _ _ _ Hj). lia.
Qed.

Lemma occupied_update cf i s s' :
  filters cf !! i = Some s ->
  occupied (with_filters cf (<[i := s']> (filters cf))) =
  occupied cf - occ_sub s + occ_sub s'.
Proof. intros Hs. unfold occupied. simpl. apply sumZ_insert. exact Hs. Qed.

(** The size bound of a filter within the limits. *)
Lemma occupied_bound cf : wf cf -> limits cf -> occupied cf < 2 ^ 64.
Proof.
  intros H [Hlen Hsmall]. wf_split H.
  assert (Hall : Forall (fun s => occ_sub s <= 2 ^ 32 * 65535) (filters cf)).
  { apply Forall_forall. intros s Hin.
    rewrite Forall_forall in Hfs. destruct (Hfs _ Hin) as (_ & _ & _ & Hl & Hb).
    unfold bucketNums in Hsmall. rewrite Forall_fmap, Forall_forall in Hsmall.
    pose proof (Hsmall _ Hin) as Hbn'. simpl in Hbn'.
    unfold occ_sub. etrans; [apply (sumZ_bound _ _ 65535)|].
    - apply Forall_forall. intros b Hinb. rewrite Forall_forall in Hb.
      pose proof (Hb _ Hinb). pose proof (occ_le_length b). lia.
    - lia. }
  apply sumZ_bound in Hall. unfold occupied. lia.
Qed.

(** * Insertion adds one *)

Lemma insert_scan_occupied n cf pr cf' :
  fp pr <> nullFp ->
  insert_scan n cf pr = Ok (Some cf') ->
  occupied cf' = occupied cf + 1 /\ itemNum cf' = u64 (itemNum cf + 1).
Proof.
  intros Hfp Hscan.
  destruct (insert_scan_Some _ _ _ _ Hscan)
    as (i & s & p & b & j & _ & Hs & _ & Hb & Hj & _ & ->).
  split; [|reflexivity].
  change (occupied (with_itemNum ?c _)) with (occupied c).
  rewrite (occupied_update _ _ _ _ Hs), (occ_sub_write _ _ _ _ _ _ Hb Hj).
  rewrite (occ_slot_nonzero _ Hfp). change (occ_slot nullFp) with 0. lia.
Qed.

Lemma evict_walk_occ n bn bs :
  forall bk p v f bk',
    evict_walk n bn bs bk p v f = Ok (Placed bk') ->
    sumZ occ bk' = sumZ occ bk + occ_slot f.
Proof.
  induction n as [|n IH]; intros bk p v f bk' Hw; [discriminate|].
  simpl in Hw.
  destruct (idx bk p) as [b|] eqn:Hb; [|discriminate]. simpl in Hw.
  destruct (idx b v) as [old|] eqn:Hold; [|discriminate]. simpl in Hw.
  apply idx_Ok in Hb, Hold.
  destruct (umod _ bn) as [p1|]; [|discriminate]. simpl in Hw.
  assert (H1 : sumZ occ (<[Z.to_nat p := <[Z.to_nat v := f]> b]> bk) =
               sumZ occ bk - occ_slot old + occ_slot f).
  { rewrite (sumZ_insert _ _ _ _ _ Hb), (occ_insert _ _ _ _ Hold). lia. }
  destruct (bucket_findAvailableSlot _) as [i|] eqn:Hfree.
  - injection Hw as <-. apply bucket_findAvailableSlot_Some in Hfree.
    rewrite list_insert_insert_eq.
    rewrite (sumZ_insert _ _ _ _ _ Hb), (occ_insert _ _ _ _ Hfree).
    rewrite (occ_insert _ _ _ _ Hold).
    change (occ_slot nullFp) with 0. lia.
  - destruct (umod _ _) as [v1|]; [|discriminate]. simpl in Hw.
    rewrite (IH _ _ _ _ _ Hw), H1. lia.
Qed.

Lemma evictAndInsert_occupied cf pr cf1 :
  wf cf -> fp pr <> nullFp ->
  evictAndInsert cf pr = Ok (cf1, cuckooInserted) ->
  occupied cf1 = occupied cf + 1 /\ itemNum cf1 = itemNum cf.
Proof.
  intros H Hfp Hev.
  destruct (evictAndInsert_cases cf pr H)
    as (cur & k & Hcur & Hk & Hbn & [Hev'|(bk' & Hw & Hsh & Hev')]);
    rewrite Hev' in Hev; [discriminate|]. injection Hev as <-.
  split; [|reflexivity].
  rewrite (occupied_update _ _ _ _ Hcur). unfold occ_sub at 2. simpl.
  rewrite (evict_walk_occ _ _ _ _ _ _ _ _ Hw), (occ_slot_nonzero _ Hfp).
  unfold occ_sub. lia.
Qed.

Lemma grow_occupied cf cf2 :
  grow cf = Ok cf2 -> occupied cf2 = occupied cf /\ itemNum cf2 = itemNum cf.
Proof.
  intros Hg. apply grow_Ok in Hg as [_ ->]. split; [|reflexivity].
  unfold occupied. simpl. rewrite sumZ_app. simpl.
  assert (Hz : occ_sub (empty_subCF
                 (u64 (bucketNum cf * expansion cf ^ filterNum cf))
                 (bucketSize cf)) = 0).
  { unfold occ_sub, empty_subCF. simpl. apply sumZ_zero, Forall_replicate.
    unfold occ, makeBucket. apply sumZ_zero, Forall_replicate. reflexivity. }
  rewrite Hz. lia.
Qed.

(** [insertFp] keeps [itemNum] equal to the number of occupied slots. *)
Lemma insertFp_counts fuel cf pr cf' st :
  wf cf -> fp pr <> nullFp ->
  insertFp fuel cf pr = Ok (cf', st) ->
  limits cf' ->
  itemNum cf = occupied cf ->
  itemNum cf' = occupied cf'.
Proof.
  intros H Hfp Hrun Hlim Hinv.
  pose proof (insertFp_wf _ _ _ _ _ H Hrun (proj1 Hlim)) as Hwf'.
  pose proof (occupied_bound _ Hwf' Hlim) as Hb.
  pose proof (sumZ_nonneg occ_sub (filters cf) occ_sub_nonneg) as Hnn.
  fold (occupied cf) in Hnn.
  destruct (insertFp_cases _ _ _ _ _ H Hrun (proj1 Hlim))
    as [[_ Hscan]|[[_ (cf1 & Hev & ->)]|[[_ ->]|[_ (cf2 & Hg & Hwf2 & Hscan)]]]].
  - destruct (insert_scan_occupied _ _ _ _ Hfp Hscan) as [Ho Hi].
    rewrite Hi, Hinv, Ho. apply u64_small. lia.
  - destruct (evictAndInsert_occupied _ _ _ H Hfp Hev) as [Ho Hi].
    change (occupied (with_itemNum cf1 _)) with (occupied cf1) in *.
    simpl. rewrite Hi, Hinv, Ho. apply u64_small. lia.
  - exact Hinv.
  - destruct (grow_occupied _ _ Hg) as [Ho2 Hi2].
    destruct (insert_scan_occupied _ _ _ _ Hfp Hscan) as [Ho Hi].
    rewrite Hi, Hi2, Hinv, Ho, Ho2. apply u64_small. lia.
Qed.

(** * Compaction *)

Lemma moved_refl fi cf : wf cf -> moved fi cf cf.
Proof.
  intros H. unfold moved. rewrite with_filters_id. auto.
Qed.

Lemma moved_trans fi cf1 cf2 cf3 :
  moved fi cf1 cf2 -> moved fi cf2 cf3 -> moved fi cf1 cf3.
Proof.
  intros (_ & E1 & B1 & O1 & Z1) (W2 & E2 & B2 & O2 & Z2).
  unfold moved. split_and!; try congruence; auto.
  rewrite E2. rewrite E1 at 1. reflexivity.
Qed.

Lemma set_slot_bucketNum s p j v : sBucketNum (set_slot s p j v) = sBucketNum s.
Proof. unfold set_slot. destruct (buckets s !! Z.to_nat p); reflexivity. Qed.

Lemma occ_sub_set_slot s p b j x v :
  buckets s !! Z.to_nat p = Some b -> b !! j = Some x ->
  occ_sub (set_slot s p j v) = occ_sub s - occ_slot x + occ_slot v.
Proof.
  intros Hb Hj. rewrite (set_slot_eq _ _ _ _ _ Hb).
  apply occ_sub_write; assumption.
Qed.

(** The loop of [relocateSlot] over the generations before [fi]. *)
Lemma relocate_into_moved fi cur b v bIx sIx n :
  forall i cf cf' r,
    wf cf ->
    0 <= i -> i + Z.of_nat n <= Z.of_nat fi -> 0 <= bIx -> 0 <= sIx ->
    filters cf !! fi = Some cur ->
    buckets cur !! Z.to_nat bIx = Some b ->
    b !! Z.to_nat sIx = Some v ->
    v <> nullFp ->
    relocate_into n i cf (mkParams (u64 bIx) (altHash v (u64 bIx)) v)
                  (Z.of_nat fi) bIx sIx = Ok (cf', r) ->
    moved fi cf cf' /\
    (r = relocFail \/
     slot_at cf' fi (Z.to_nat bIx) (Z.to_nat sIx) = Some nullFp).
Proof.
  induction n as [|n IH]; intros i cf cf' r H Hi Hin HbI HsI Hcur Hb Hv Hne Hrun.
  - injection Hrun as <- <-. split; [apply moved_refl; exact H | left; reflexivity].
  - simpl in Hrun.
    destruct (idx (filters cf) i) as [s|] eqn:Hs; [|discriminate].
    simpl in Hrun. apply idx_Ok in Hs.
    destruct (sub_findAvailableSlot s _) as [[[p j]|]|] eqn:Hfree;
      simpl in Hrun; [| |discriminate].
    + (* a free slot in generation [i] *)
      destruct (sub_findAvailableSlot_Some _ _ _ _ Hfree)
        as (b0 & Hc & Hb0 & Hj).
      assert (Hnefi : Z.to_nat i <> fi) by lia.
      assert (Hcur1 : <[Z.to_nat i := set_slot s p j v]> (filters cf) !! fi
                      = Some cur).
      { rewrite list_lookup_insert_ne by exact Hnefi. exact Hcur. }
      unfold idx in Hrun. rewrite Nat2Z.id, Hcur1 in Hrun. simpl in Hrun.
      injection Hrun as <- <-.
      set (cf1 := with_filters cf
                    (<[Z.to_nat i := set_slot s p j v]> (filters cf))).
      assert (Hwf1 : wf cf1).
      { apply wf_update; [exact H|]. apply wf_set_slot.
        exact (wf_lookup _ _ _ H Hs). }
      assert (Hwf' : wf (with_filters cf1
                 (<[fi := set_slot cur bIx (Z.to_nat sIx) nullFp]>
                    (filters cf1)))).
      { apply wf_update; [exact Hwf1|]. apply wf_set_slot.
        exact (wf_lookup _ _ _ H Hcur). }
      split; [|right].
      * unfold moved. split; [exact Hwf'|]. split; [reflexivity|]. split_and!.
        -- unfold bucketNums. simpl.
           rewrite (bucketNums_update cf1 fi cur)
             by (try exact Hcur1; apply set_slot_bucketNum).
           apply (bucketNums_update cf _ s); [exact Hs|].
           apply set_slot_bucketNum.
        -- change (occupied (with_filters cf1
                     (<[fi := set_slot cur bIx (Z.to_nat sIx) nullFp]>
                        (filters cf1))) = occupied cf).
           rewrite (occupied_update cf1 fi cur) by exact Hcur1.
           unfold cf1. rewrite (occupied_update cf _ s) by exact Hs.
           rewrite (occ_sub_set_slot _ _ _ _ _ _ Hb0 Hj).
           rewrite (occ_sub_set_slot _ _ _ _ _ _ Hb Hv).
           rewrite (occ_slot_nonzero _ Hne). change (occ_slot nullFp) with 0.
           lia.
        -- intros bi si. unfold slot_at. simpl.
           rewrite Hcur.
           rewrite list_lookup_insert_eq
             by (rewrite length_insert; apply lookup_lt_is_Some; eauto).
           rewrite (set_slot_eq _ _ _ _ _ Hb). simpl.
           destruct (decide (bi = Z.to_nat bIx)) as [->|Hbi].
           ++ rewrite Hb.
              rewrite list_lookup_insert_eq by (apply lookup_lt_is_Some; eauto).
              destruct (decide (si = Z.to_nat sIx)) as [->|Hsi].
              ** intros _. apply list_lookup_insert_eq.
                 apply lookup_lt_is_Some; eauto.
              ** rewrite list_lookup_insert_ne by congruence. auto.
           ++ rewrite list_lookup_insert_ne by congruence. auto.
      * unfold slot_at. simpl.
        rewrite list_lookup_insert_eq
          by (rewrite length_insert; apply lookup_lt_is_Some; eauto).
        rewrite (set_slot_eq _ _ _ _ _ Hb). simpl.
        rewrite list_lookup_insert_eq by (apply lookup_lt_is_Some; eauto).
        apply list_lookup_insert_eq. apply lookup_lt_is_Some; eauto.
    + apply (IH (i + 1) cf cf' r); try assumption; lia.
Qed.

Lemma relocateSlot_moved fi cf bIx sIx cf' r :
  wf cf -> 0 <= bIx -> 0 <= sIx ->
  relocateSlot cf (Z.of_nat fi) bIx sIx = Ok (cf', r) ->
  moved fi cf cf' /\
  (r = relocFail \/
   slot_at cf' fi (Z.to_nat bIx) (Z.to_nat sIx) = Some nullFp).
Proof.
  intros H HbI HsI Hrun. unfold relocateSlot in Hrun.
  destruct (idx (filters cf) (Z.of_nat fi)) as [cur|] eqn:Hcur; [|discriminate].
  simpl in Hrun. apply idx_Ok in Hcur. rewrite Nat2Z.id in Hcur.
  destruct (idx (buckets cur) bIx) as [b|] eqn:Hb; [|discriminate].
  simpl in Hrun. apply idx_Ok in Hb.
  destruct (idx b sIx) as [v|] eqn:Hv; [|discriminate].
  simpl in Hrun. apply idx_Ok in Hv.
  destruct (Z.eqb_spec v nullFp) as [->|Hne].
  - injection Hrun as <- <-. split; [apply moved_refl; exact H|].
    right. unfold slot_at. rewrite Hcur, Hb. exact Hv.
  - rewrite Nat2Z.id in Hrun.
    apply (relocate_into_moved fi cur b v bIx sIx fi 0 cf cf' r);
      try assumption; lia.
Qed.

Lemma compact_slots_moved fi bIx n :
  forall sIx cf rv cf' rv',
    wf cf -> 0 <= bIx -> 0 <= sIx ->
    compact_slots n sIx cf (Z.of_nat fi) bIx rv = Ok (cf', rv') ->
    moved fi cf cf' /\
    (rv' = relocOk ->
     rv = relocOk /\
     forall s, sIx <= s < sIx + Z.of_nat n ->
               slot_at cf' fi (Z.to_nat bIx) (Z.to_nat s) = Some nullFp).
Proof.
  induction n as [|n IH]; intros sIx cf rv cf' rv' H HbI HsI Hrun.
  - injection Hrun as <- <-. split; [apply moved_refl; exact H|].
    intros ->. split; [reflexivity|]. intros s Hs. lia.
  - simpl in Hrun.
    destruct (relocateSlot cf (Z.of_nat fi) bIx sIx) as [[cf1 r]|] eqn:Hrel;
      [|discriminate].
    simpl in Hrun.
    destruct (relocateSlot_moved _ _ _ _ _ _ H HbI HsI Hrel) as [Hm1 Hr].
    pose proof Hm1 as (Hwf1 & _).
    assert (Hs1 : 0 <= sIx + 1) by lia.
    destruct (IH _ _ _ _ _ Hwf1 HbI Hs1 Hrun) as [Hm2 Hok].
    split; [exact (moved_trans _ _ _ _ Hm1 Hm2)|].
    intros Hrv'. destruct (Hok Hrv') as [Hrv1 Hz].
    destruct (Z.eqb_spec r relocFail) as [->|Hne]; [discriminate|].
    split; [exact Hrv1|]. intros s Hs.
    destruct (decide (s = sIx)) as [->|Hne'].
    + destruct Hr as [?|Hr]; [contradiction|].
      destruct Hm2 as (_ & _ & _ & _ & Hmono). apply Hmono. exact Hr.
    + apply Hz. lia.
Qed.

Lemma compact_buckets_moved fi ns n :
  forall bIx cf rv cf' rv',
    wf cf -> 0 <= bIx ->
    compact_buckets n bIx ns cf (Z.of_nat fi) rv = Ok (cf', rv') ->
    moved fi cf cf' /\
    (rv' = relocOk ->
     rv = relocOk /\
     forall b s, bIx <= b < bIx + Z.of_nat n -> 0 <= s < Z.of_nat ns ->
                 slot_at cf' fi (Z.to_nat b) (Z.to_nat s) = Some nullFp).
Proof.
  induction n as [|n IH]; intros bIx cf rv cf' rv' H HbI Hrun.
  - injection Hrun as <- <-. split; [apply moved_refl; exact H|].
    intros ->. split; [reflexivity|]. intros b s Hb. lia.
  - simpl in Hrun.
    destruct (compact_slots ns 0 cf (Z.of_nat fi) bIx rv) as [[cf1 rv1]|] eqn:Hs;
      [|discriminate].
    simpl in Hrun.
    assert (H00 : 0 <= 0) by lia.
    destruct (compact_slots_moved _ _ _ _ _ _ _ _ H HbI H00 Hs)
      as [Hm1 Hok1].
    pose proof Hm1 as (Hwf1 & _).
    assert (Hb1 : 0 <= bIx + 1) by lia.
    destruct (IH _ _ _ _ _ Hwf1 Hb1 Hrun) as [Hm2 Hok2].
    split; [exact (moved_trans _ _ _ _ Hm1 Hm2)|].
    intros Hrv'. destruct (Hok2 Hrv') as [Hrv1 Hz2].
    destruct (Hok1 Hrv1) as [Hrv Hz1].
    split; [exact Hrv|]. intros b s Hb Hs'.
    destruct (decide (b = bIx)) as [->|Hne].
    + destruct Hm2 as (_ & _ & _ & _ & Hmono). apply Hmono, Hz1. lia.
    + apply Hz2; lia.
Qed.

(** A generation all of whose slots are empty holds nothing. *)
Lemma occ_sub_emptied bs cf fi s :
  wf_sub bs s -> filters cf !! fi = Some s ->
  (forall b j, 0 <= b < sBucketNum s -> 0 <= j < bs ->
               slot_at cf fi (Z.to_nat b) (Z.to_nat j) = Some nullFp) ->
  occ_sub s = 0.
Proof.
  intros (_ & _ & _ & Hl & Hf) Hs Hz. unfold occ_sub.
  apply sumZ_zero. apply Forall_lookup. intros bi b Hb.
  unfold occ. apply sumZ_zero. apply Forall_lookup. intros si v Hv.
  rewrite Forall_lookup in Hf. pose proof (Hf _ _ Hb) as Hbl.
  pose proof (lookup_lt_Some _ _ _ Hb). pose proof (lookup_lt_Some _ _ _ Hv).
  specialize (Hz (Z.of_nat bi) (Z.of_nat si) ltac:(lia) ltac:(lia)).
  unfold slot_at in Hz. rewrite !Nat2Z.id, Hs, Hb, Hv in Hz.
  injection Hz as ->. reflexivity.
Qed.

Lemma int_of_u64_small x : 0 <= x < 2 ^ 63 -> int_of_u64 x = x.
Proof.
  intros Hx. unfold int_of_u64. destruct (Z.ltb_spec x (2 ^ 63)); lia.
Qed.

(** [compactSingle] on a generation other than the oldest. *)
Lemma compactSingle_keeps fi cf cf' rv :
  wf cf -> limits cf -> (1 <= fi)%nat ->
  compactSingle cf (Z.of_nat fi) = Ok (cf', rv) ->
  wf cf' /\ limits cf' /\
  occupied cf' = occupied cf /\
  itemNum cf' = itemNum cf.
Proof.
  intros H Hlim Hfi Hrun. unfold compactSingle in Hrun.
  destruct (idx (filters cf) (Z.of_nat fi)) as [cur|] eqn:Hcur; [|discriminate].
  simpl in Hrun. apply idx_Ok in Hcur. rewrite Nat2Z.id in Hcur.
  destruct (compact_buckets _ 0 _ cf (Z.of_nat fi) relocOk)
    as [[cf1 rv1]|] eqn:Hb; [|discriminate].
  simpl in Hrun.
  assert (H00 : 0 <= 0) by lia.
  destruct (compact_buckets_moved _ _ _ _ _ _ _ _ H H00 Hb)
    as [(Hwf1 & E1 & B1 & O1 & _) Hok].
  assert (Hlim1 : limits cf1).
  { destruct Hlim as [Hlen Hsm]. split; [|rewrite B1; exact Hsm].
    assert (Hl : length (bucketNums cf1) = length (bucketNums cf))
      by (rewrite B1; reflexivity).
    unfold bucketNums in Hl. rewrite !length_fmap in Hl. lia. }
  assert (Hi1 : itemNum cf1 = itemNum cf) by (rewrite E1; reflexivity).
  destruct ((rv1 =? relocOk) && (Z.of_nat fi =? u16 (filterNum cf1 - 1)))
    eqn:Hpop.
  2:{ injection Hrun as <- <-. auto. }
  injection Hrun as <- <-.
  apply andb_true_iff in Hpop as [Hrv Hlast].
  apply Z.eqb_eq in Hrv, Hlast.
  pose proof Hwf1 as Hwf1'. wf_split Hwf1'.
  destruct (wf_filterNum cf1 Hwf1 (proj1 Hlim1)) as [Hfeq Hfr].
  rewrite u16_small in Hlast |- * by lia.
  (* the generation is empty *)
  pose proof (wf_lookup _ _ _ H Hcur) as Hsub.
  assert (Hbn32 : sBucketNum cur <= 2 ^ 32).
  { destruct Hlim as [_ Hsm]. unfold bucketNums in Hsm.
    rewrite Forall_fmap, Forall_lookup in Hsm. exact (Hsm _ _ Hcur). }
  pose proof (wf_sub_bn_pos _ _ Hsub) as Hbnpos.
  rewrite int_of_u64_small in Hok by lia.
  destruct (lookup_lt_is_Some_2 (filters cf1) fi) as [cur1 Hcur1]; [lia|].
  assert (Hnum : sBucketNum cur1 = sBucketNum cur).
  { assert (Hl : bucketNums cf1 !! fi = bucketNums cf !! fi) by (rewrite B1; reflexivity).
    unfold bucketNums in Hl. rewrite !list_lookup_fmap, Hcur, Hcur1 in Hl.
    simpl in Hl. congruence. }
  assert (Hbs1 : bucketSize cf1 = bucketSize cf) by (rewrite E1; reflexivity).
  assert (Hsz : sBucketSize cur = bucketSize cf) by (destruct Hsub; assumption).
  assert (Hempty : occ_sub cur1 = 0).
  { apply (occ_sub_emptied (bucketSize cf1) cf1 fi).
    - exact (wf_lookup _ _ _ Hwf1 Hcur1).
    - exact Hcur1.
    - intros b j Hb' Hj. destruct (Hok Hrv) as [_ Hz].
      apply Hz; [lia|]. rewrite Hsz. lia. }
  assert (Hsplit : filters cf1 = take fi (filters cf1) ++ [cur1]).
  { rewrite <- (take_drop fi (filters cf1)) at 1. f_equal.
    apply list_eq. intros [|j]; simpl.
    - rewrite lookup_drop, Nat.add_0_r. exact Hcur1.
    - rewrite lookup_drop. apply lookup_ge_None. lia. }
  replace (Z.to_nat (filterNum cf1 - 1)) with fi by lia.
  split_and!.
  - unfold wf. simpl. rewrite length_take.
    split_and!; try assumption; try lia.
    + rewrite u16_small by lia. lia.
    + apply Forall_take. exact Hfs.
  - destruct Hlim1 as [Hlen1 Hsm]. unfold limits, bucketNums. simpl.
    rewrite length_take. split; [lia|].
    rewrite fmap_take. apply Forall_take. exact Hsm.
  - unfold occupied at 1. simpl. rewrite <- O1. unfold occupied.
    rewrite Hsplit at 2. rewrite sumZ_app. simpl. lia.
  - exact Hi1.
Qed.

Lemma compact_from_keeps n :
  forall cf cont cf',
    wf cf -> limits cf ->
    compact_from n cf cont = Ok cf' ->
    wf cf' /\ limits cf' /\
    occupied cf' = occupied cf /\ itemNum cf' = itemNum cf.
Proof.
  induction n as [|n IH]; intros cf cont cf' H Hlim Hrun.
  - injection Hrun as <-. auto.
  - cbn [compact_from] in Hrun.
    destruct (compactSingle cf (Z.of_nat (S n))) as [[cf1 rv]|] eqn:Hs;
      [|discriminate].
    simpl in Hrun.
    assert (Hn1 : (1 <= S n)%nat) by lia.
    destruct (compactSingle_keeps _ _ _ _ H Hlim Hn1 Hs)
      as (Hwf1 & Hlim1 & Ho1 & Hi1).
    destruct ((rv =? relocFail) && negb cont).
    + injection Hrun as <-. auto.
    + destruct (IH _ _ _ Hwf1 Hlim1 Hrun) as (Hwf' & Hlim' & Ho & Hi).
      split_and!; try assumption; congruence.
Qed.

Lemma compact_keeps cf cont cf' :
  wf cf -> limits cf ->
  compact cf cont = Ok cf' ->
  wf cf' /\ limits cf' /\
  occupied cf' = occupied cf /\ itemNum cf' = itemNum cf.
Proof.
  intros H Hlim Hrun. unfold compact in Hrun.
  destruct (compact_from _ cf cont) as [cf1|] eqn:Hc; [|discriminate].
  simpl in Hrun. injection Hrun as <-.
  exact (compact_from_keeps _ _ _ _ H Hlim Hc).
Qed.

(** * Deletion removes one *)

Lemma sub_delete_found bs s pr s' :
  wf_sub bs s -> fp pr <> nullFp ->
  sub_delete s pr = Ok (s', true) ->
  wf_sub bs s' /\ sBucketNum s' = sBucketNum s /\ occ_sub s' = occ_sub s - 1.
Proof.
  intros Hs Hfp Hrun.
  assert (Hone : forall p b b',
            buckets s !! Z.to_nat p = Some b ->
            bucket_delete b (fp pr) = (b', true) ->
            wf_sub bs (with_buckets s (<[Z.to_nat p := b']> (buckets s))) /\
            occ_sub (with_buckets s (<[Z.to_nat p := b']> (buckets s))) =
              occ_sub s - 1).
  { intros p b b' Hb Hdel.
    destruct (bucket_delete_found _ _ _ Hdel) as (i & Hi & ->). split.
    - apply wf_sub_with_buckets; [exact Hs|].
      apply shape_insert; [apply wf_sub_shape'; exact Hs|].
      rewrite length_insert.
      destruct Hs as (_ & _ & _ & _ & Hf). rewrite Forall_lookup in Hf.
      exact (Hf _ _ Hb).
    - rewrite (occ_sub_write _ _ _ _ _ _ Hb Hi).
      rewrite (occ_slot_nonzero _ Hfp). change (occ_slot nullFp) with 0. lia. }
  unfold sub_delete in Hrun.
  destruct (bucketIndex s (h1 pr)) as [p1|]; [|discriminate]. simpl in Hrun.
  destruct (bucketIndex s (h2 pr)) as [p2|]; [|discriminate]. simpl in Hrun.
  destruct (idx (buckets s) p1) as [b1|] eqn:Hb1; [|discriminate].
  simpl in Hrun. apply idx_Ok in Hb1.
  destruct (bucket_delete b1 (fp pr)) as [b1' ok1] eqn:Hd1.
  destruct ok1.
  - injection Hrun as <-. destruct (Hone _ _ _ Hb1 Hd1). auto.
  - destruct (idx (buckets s) p2) as [b2|] eqn:Hb2; [|discriminate].
    simpl in Hrun. apply idx_Ok in Hb2.
    destruct (bucket_delete b2 (fp pr)) as [b2' ok2] eqn:Hd2.
    destruct ok2; [|discriminate].
    injection Hrun as <-. destruct (Hone _ _ _ Hb2 Hd2). auto.
Qed.

Section Counting.

Variable MurmurHash64A : list Byte.byte -> Z -> Z.
Variable over_tenth : Z -> Z -> bool.

Abbreviation apply_op := (apply_op MurmurHash64A over_tenth).
Abbreviation buildParams := (buildParams MurmurHash64A).

Lemma delete_scan_keeps n cf pr cf' b :
  wf cf -> limits cf -> fp pr <> nullFp ->
  itemNum cf = occupied cf ->
  delete_scan over_tenth n cf pr = Ok (cf', b) ->
  wf cf' /\ limits cf' /\ itemNum cf' = occupied cf'.
Proof.
  intros H Hlim Hfp Hinv. induction n as [|n IH]; simpl; intros Hrun.
  - injection Hrun as <- _. auto.
  - destruct (idx (filters cf) (Z.of_nat n)) as [s|] eqn:Hs; [|discriminate].
    simpl in Hrun. apply idx_Ok in Hs. rewrite Nat2Z.id in Hs.
    destruct (sub_delete s pr) as [[s' ok]|] eqn:Hdel; [|discriminate].
    simpl in Hrun. destruct ok; [|exact (IH Hrun)].
    destruct (sub_delete_found _ _ _ _ (wf_lookup _ _ _ H Hs) Hfp Hdel)
      as (Hs' & Hnum & Hocc).
    set (cf1 := with_deleteNum
                  (with_itemNum (with_filters cf (<[n := s']> (filters cf)))
                                (u64 (itemNum cf - 1)))
                  (u64 (deleteNum cf + 1))) in *.
    assert (Hwf1 : wf cf1) by (apply (wf_update cf n s' H Hs')).
    assert (Hlim1 : limits cf1).
    { destruct Hlim as [Hlen Hsm]. unfold limits, bucketNums. simpl.
      rewrite length_insert. split; [exact Hlen|].
      rewrite (bucketNums_update cf n s s' Hs Hnum). exact Hsm. }
    assert (Ho1 : occupied cf1 = occupied cf - 1).
    { change (occupied cf1)
        with (occupied (with_filters cf (<[n := s']> (filters cf)))).
      rewrite (occupied_update _ _ _ _ Hs). lia. }
    assert (Hinv1 : itemNum cf1 = occupied cf1).
    { change (itemNum cf1) with (u64 (itemNum cf - 1)).
      rewrite Ho1, Hinv. apply u64_small.
      pose proof (occupied_bound _ H Hlim).
      pose proof (sumZ_nonneg occ_sub (filters cf1) occ_sub_nonneg) as Hnn.
      fold (occupied cf1) in Hnn. lia. }
    match type of Hrun with
    | context [if ?c then _ else _] => destruct c
    end.
    + destruct (compact cf1 false) as [cf2|] eqn:Hc; [|discriminate].
      simpl in Hrun. injection Hrun as <- _.
      destruct (compact_keeps _ _ _ Hwf1 Hlim1 Hc) as (Hwf2 & Hlim2 & Ho2 & Hi2).
      split_and!; try assumption. congruence.
    + injection Hrun as <- _. auto.
Qed.

(** One call keeps the filter well formed and its item count right. *)
Lemma apply_op_counts fuel cf o cf' out :
  wf cf -> limits cf -> itemNum cf = occupied cf ->
  apply_op fuel cf o = Ok (cf', out) ->
  limits cf' ->
  wf cf' /\ itemNum cf' = occupied cf'.
Proof.
  intros H Hlim Hinv Hop Hlim'.
  destruct o as [d|d|d|d]; simpl in Hop.
  - unfold Insert in Hop.
    destruct (insertFp fuel cf (buildParams d)) as [[cf1 st]|] eqn:Hi;
      [|discriminate].
    simpl in Hop. injection Hop as <- _.
    split; [exact (insertFp_wf _ _ _ _ _ H Hi (proj1 Hlim'))|].
    apply (insertFp_counts _ _ _ _ _ H (proj2 (buildParams_keyed _ d)) Hi Hlim' Hinv).
  - unfold Delete in Hop.
    destruct (delete_scan _ _ cf _) as [[cf1 b]|] eqn:Hd; [|discriminate].
    simpl in Hop. injection Hop as <- _.
    destruct (delete_scan_keeps _ _ _ _ _ H Hlim
                (proj2 (buildParams_keyed _ d)) Hinv Hd) as (? & _ & ?).
    auto.
  - unfold Exist in Hop. destruct (existFp cf _); [|discriminate].
    simpl in Hop. injection Hop as <- _. auto.
  - unfold Count in Hop. destruct (count_scan _ _ _); [|discriminate].
    simpl in Hop. injection Hop as <- _. auto.
Qed.

End Counting.

(** * Every constructed filter is well formed *)

Lemma next2N_large n : 2 ^ 63 < n < 2 ^ 64 -> next2N n = 0.
Proof.
  intros Hn. rewrite next2N_smear. rewrite (u64_small (n - 1)) by lia.
  rewrite smear_ones by lia.
  rewrite (Z.log2_unique (n - 1) 63) by lia. reflexivity.
Qed.

Lemma next2N_cases n :
  0 <= n < 2 ^ 64 ->
  next2N n = 0 \/ (is_pow2 (next2N n) /\ next2N n <= 2 ^ 63).
Proof.
  intros Hn.
  destruct (decide (n = 0)) as [->|Hn0]; [left; reflexivity|].
  destruct (Z_le_gt_dec n (2 ^ 63)) as [Hle|Hgt].
  - right. rewrite next2N_log2_up by lia.
    pose proof (Z.log2_up_nonneg n).
    split; [apply pow2_is_pow2; lia|].
    apply Z.pow_le_mono_r; [lia|]. apply Z.log2_up_le_pow2; lia.
  - left. apply next2N_large. lia.
Qed.

Lemma base_bucketNum_pow2 q :
  0 <= q < 2 ^ 64 -> is_pow2 (base_bucketNum q) /\ base_bucketNum q <= 2 ^ 63.
Proof.
  intros Hq. unfold base_bucketNum.
  destruct (next2N_cases q Hq) as [->|[Hp Hle]].
  - simpl. split; [apply (pow2_is_pow2 0); lia | lia].
  - destruct Hp as [Hpos Heq].
    destruct (Z.eqb_spec (next2N q) 0); [lia|]. split; [split|]; assumption.
Qed.

Lemma expansion_pow2 e :
  0 <= e < 2 ^ 16 -> u16 (next2N e) = 0 \/ is_pow2 (u16 (next2N e)).
Proof.
  intros He. destruct (decide (e = 0)) as [->|He0]; [left; reflexivity|].
  rewrite next2N_log2_up by lia.
  pose proof (Z.log2_up_nonneg e).
  assert (Hle : Z.log2_up e <= 16) by (apply Z.log2_up_le_pow2; lia).
  destruct (decide (Z.log2_up e = 16)) as [->|Hne]; [left; reflexivity|].
  right. rewrite u16_small.
  - apply pow2_is_pow2. lia.
  - split; [apply Z.pow_nonneg; lia|]. apply Z.pow_lt_mono_r; lia.
Qed.

(** The first call of [grow], on the filter without generations. *)
Lemma grow_first b bs mi e :
  0 < b < 2 ^ 64 ->
  grow (mkCF b bs 0 0 mi e 0 []) = Ok (mkCF b bs 0 0 mi e 1 [empty_subCF b bs]).
Proof.
  intros Hb. unfold grow, pow_float_u64. cbn [expansion filterNum].
  rewrite Z.pow_0_r. change (1 <? 2 ^ 53) with true. cbn [bind bucketNum].
  rewrite Z.mul_1_r, u64_small by lia. reflexivity.
Qed.

Lemma quotient_range c bs : 0 <= c < 2 ^ 64 -> 1 <= bs -> 0 <= c / bs < 2 ^ 64.
Proof.
  intros Hc Hbs. split; [apply Z.div_pos; lia|].
  apply (Z.le_lt_trans _ c); [|lia]. apply Z.div_le_upper_bound; nia.
Qed.

Lemma base_bucketNum_range q :
  0 <= q < 2 ^ 64 -> 0 < base_bucketNum q < 2 ^ 64.
Proof.
  intros Hq. destruct (base_bucketNum_pow2 q Hq) as [[Hpos _] Hle]. lia.
Qed.

Lemma base_bucketNum_eq q :
  base_bucketNum q = if next2N q =? 0 then 1 else next2N q.
Proof. reflexivity. Qed.

Lemma NewCuckooFilter_value c bs mi e :
  0 <= c < 2 ^ 64 -> 1 <= bs ->
  NewCuckooFilter c bs mi e =
  Ok (mkCF (base_bucketNum (c / bs)) bs 0 0 mi (u16 (next2N e)) 1
           [empty_subCF (base_bucketNum (c / bs)) bs]).
Proof.
  intros Hc Hbs.
  pose proof (base_bucketNum_range _ (quotient_range c bs Hc Hbs)) as Hb.
  assert (Hne : (bs =? 0) = false) by (apply Z.eqb_neq; lia).
  unfold NewCuckooFilter. rewrite Hne. cbn [bind]. cbv zeta.
  rewrite <- base_bucketNum_eq. apply grow_first. exact Hb.
Qed.

Lemma NewCuckooFilter_wf c bs mi e cf :
  0 <= c < 2 ^ 64 -> 0 <= bs < 2 ^ 16 -> 0 <= mi < 2 ^ 16 -> 0 <= e < 2 ^ 16 ->
  NewCuckooFilter c bs mi e = Ok cf ->
  wf cf /\ itemNum cf = occupied cf.
Proof.
  intros Hc Hbs Hmi He Hnew.
  assert (Hbs1 : 1 <= bs).
  { destruct (decide (bs = 0)) as [->|]; [discriminate|lia]. }
  rewrite (NewCuckooFilter_value c bs mi e Hc Hbs1) in Hnew.
  injection Hnew as <-.
  pose proof (quotient_range c bs Hc Hbs1) as Hq.
  destruct (base_bucketNum_pow2 _ Hq) as [Hp Hle].
  assert (Hexp : 0 <= u16 (next2N e) < 2 ^ 16) by (apply wrap_range; lia).
  split.
  - unfold wf. simpl. split_and!; try lia; try assumption; try reflexivity.
    + apply expansion_pow2. exact He.
    + constructor; [|constructor]. apply empty_subCF_wf; [exact Hp|lia|lia].
  - unfold occupied. simpl.
    assert (Hz : occ_sub (empty_subCF (base_bucketNum (c / bs)) bs) = 0).
    { unfold occ_sub, empty_subCF. simpl. apply sumZ_zero, Forall_replicate.
      unfold occ, makeBucket. apply sumZ_zero, Forall_replicate. reflexivity. }
    rewrite Hz. reflexivity.
Qed.

(** * Reachable filters *)

Section Reachable.

Variable MurmurHash64A : list Byte.byte -> Z -> Z.
Variable over_tenth : Z -> Z -> bool.

Abbreviation reachable := (reachable MurmurHash64A over_tenth).

Lemma reachable_inv cf :
  reachable cf -> wf cf /\ limits cf /\ itemNum cf = occupied cf.
Proof.
  induction 1 as [c bs mi e cf Hc Hbs Hmi He Hnew Hlim
                 |fuel cf o cf' out _ (Hwf & Hlim & Hinv) Hop Hlim'].
  - destruct (NewCuckooFilter_wf _ _ _ _ _ Hc Hbs Hmi He Hnew). auto.
  - destruct (apply_op_counts _ _ _ _ _ _ _ Hwf Hlim Hinv Hop Hlim'). auto.
Qed.

(** ** The item count

    X18: in every filter reached from [NewCuckooFilter] by calls of
    [Insert], [Delete], [Exist] and [Count], within 65535 generations of at
    most [2^32] buckets each, [itemNum] is the number of slots that hold a
    fingerprint, over all buckets of all generations. *)
Theorem itemNum_counts_occupied_slots cf :
  reachable cf -> itemNum cf = occupied cf.
Proof. intros H. apply reachable_inv in H. tauto. Qed.

End Reachable.

Lemma no_false_negatives_witness :
  wf two_buckets /\
  run le_hash tenth 2 two_buckets ([] ++ OpInsert [x03; x01] :: [OpInsert [x01]])
    = Ok (two_buckets_full, [Done true; Done true]) /\
  addressable two_buckets_full /\
  Exist le_hash two_buckets_full [x03; x01] = Ok (two_buckets_full, true).
Proof.
  assert (Hwf : wf two_buckets)
    by (apply (bool_decide_unpack _); vm_compute; exact I).
  assert (Hrun : run le_hash tenth 2 two_buckets
                   ([] ++ OpInsert [x03; x01] :: [OpInsert [x01]])
                 = Ok (two_buckets_full, [Done true; Done true]))
    by (vm_compute; reflexivity).
  assert (Hlim : addressable two_buckets_full)
    by (apply (bool_decide_unpack _); vm_compute; exact I).
  split; [exact Hwf|]. split; [exact Hrun|]. split; [exact Hlim|].
  apply (no_false_negatives le_hash tenth 2 two_buckets [] [OpInsert [x01]]
           [x03; x01] two_buckets_full [Done true; Done true] Hwf).
  - repeat constructor.
  - exact Hrun.
  - reflexivity.
  - exact Hlim.
Defined.

Lemma itemNum_counts_occupied_slots_witness :
  reachable le_hash tenth after_delete /\
  itemNum after_delete = occupied after_delete.
Proof.
  assert (Hlim : forall cf, bool_decide (limits cf) = true -> limits cf)
    by (intros cf H; apply (bool_decide_unpack _); rewrite H; exact I).
  assert (H0 : reachable le_hash tenth
                 (mkCF 2 1 0 0 1 1 1 [mkSubCF 2 1 [[0]; [0]]])).
  { apply (reach_new _ _ 2 1 1 1); try lia; [|apply Hlim]; vm_compute; reflexivity. }
  assert (H1 : reachable le_hash tenth
                 (mkCF 2 1 1 0 1 1 1 [mkSubCF 2 1 [[2]; [0]]])).
  { apply (reach_call _ _ 2%nat _ (OpInsert [x00; x01]) _ (Done true) H0);
      [|apply Hlim]; vm_compute; reflexivity. }
  assert (H2 : reachable le_hash tenth
                 (mkCF 2 1 2 0 1 1 2
                    [mkSubCF 2 1 [[2]; [0]]; mkSubCF 2 1 [[4]; [0]]])).
  { apply (reach_call _ _ 2%nat _ (OpInsert [x02; x01]) _ (Done true) H1);
      [|apply Hlim]; vm_compute; reflexivity. }
  assert (H3 : reachable le_hash tenth two_filters).
  { apply (reach_call _ _ 2%nat _ (OpInsert [x01]) _ (Done true) H2);
      [|apply Hlim]; vm_compute; reflexivity. }
  assert (H4 : reachable le_hash tenth two_filters_after).
  { apply (reach_call _ _ 2%nat _ (OpInsert [x03]) _ (Done true) H3);
      [|apply Hlim]; vm_compute; reflexivity. }
  assert (H5 : reachable le_hash tenth after_delete).
  { apply (reach_call _ _ 2%nat _ (OpDelete [x03]) _ (Done true) H4);
      [|apply Hlim]; vm_compute; reflexivity. }
  split; [exact H5|].
  exact (itemNum_counts_occupied_slots le_hash tenth after_delete H5).
Defined.

(** * Fuel

    In a well-formed filter of fewer than 65535 generations [insertFp]
    calls itself at most once: the generation [grow] appends is empty. *)

Lemma sub_findAvailableSlot_fault s pr f :
  sub_findAvailableSlot s pr = Fail f -> f = Panic.
Proof.
  unfold sub_findAvailableSlot, bucketIndex, umod, idx.
  destruct (sBucketNum s =? 0); simpl; [intros [= <-]; reflexivity|].
  destruct (buckets s !! _); simpl; [|intros [= <-]; reflexivity].
  destruct (bucket_findAvailableSlot _); [discriminate|].
  destruct (buckets s !! _); simpl; [|intros [= <-]; reflexivity].
  destruct (bucket_findAvailableSlot _); discriminate.
Qed.

Lemma insert_scan_fault n cf pr f :
  insert_scan n cf pr = Fail f -> f = Panic.
Proof.
  induction n as [|n IH]; simpl; [discriminate|].
  unfold idx. destruct (filters cf !! _) as [s|]; simpl;
    [|intros [= <-]; reflexivity].
  destruct (sub_findAvailableSlot s pr) as [[[p j]|]|f'] eqn:Hs; simpl.
  - discriminate.
  - exact IH.
  - intros [= <-]. exact (sub_findAvailableSlot_fault _ _ _ Hs).
Qed.

(** The call of [insertFp] after [grow] ends in its scan. *)
Lemma insertFp_after_grow fuel cf cf2 pr :
  wf cf -> Z.of_nat (length (filters cf)) < 65535 -> expansion cf <> 0 ->
  grow cf = Ok cf2 ->
  insertFp (S fuel) cf2 pr = insertFp 1 cf2 pr /\
  insertFp 1 cf2 pr <> Fail OutOfFuel.
Proof.
  intros H Hfn He Hg.
  pose proof Hg as Hg'. apply grow_Ok in Hg' as [Hpow Hcf2].
  destruct (wf_filterNum cf H ltac:(lia)) as [Hfeq Hfr].
  pose proof H as H'. wf_split H'.
  assert (Hfn2 : Z.to_nat (filterNum cf2) = S (length (filters cf))).
  { rewrite Hcf2. simpl. rewrite u16_small by lia. lia. }
  set (new := empty_subCF (u64 (bucketNum cf * expansion cf ^ filterNum cf))
                          (bucketSize cf)) in *.
  assert (Hnew : filters cf2 !! length (filters cf) = Some new).
  { rewrite Hcf2. simpl. rewrite lookup_app_r by lia.
    rewrite Nat.sub_diag. reflexivity. }
  assert (Hscan : insert_scan (Z.to_nat (filterNum cf2)) cf2 pr = Fail Panic \/
                  exists cf3,
                    insert_scan (Z.to_nat (filterNum cf2)) cf2 pr = Ok (Some cf3)).
  { rewrite Hfn2. cbn [insert_scan]. unfold idx. rewrite Nat2Z.id, Hnew. simpl.
    destruct (decide (u64 (bucketNum cf * expansion cf ^ filterNum cf) = 0))
      as [Hz|Hnz].
    - left.
      assert (Hp : sub_findAvailableSlot new pr = Fail Panic).
      { unfold sub_findAvailableSlot, bucketIndex, umod, new. simpl.
        rewrite Hz. reflexivity. }
      rewrite Hp. reflexivity.
    - right.
      assert (Hwf2 : wf cf2) by (apply (grow_wf cf); assumption).
      destruct (sub_findAvailableSlot_empty
                  (u64 (bucketNum cf * expansion cf ^ filterNum cf))
                  (bucketSize cf) pr) as (p & Hp); [|lia|].
      { apply (wf_lookup cf2 _ _ Hwf2) in Hnew. rewrite Hcf2 in Hnew.
        exact Hnew. }
      fold new in Hp. rewrite Hp. simpl. eauto. }
  cbn [insertFp].
  destruct Hscan as [Hscan|(cf3 & Hscan)]; rewrite Hscan; simpl;
    (split; [reflexivity | discriminate]).
Qed.

Lemma insertFp_fuel fuel cf pr :
  wf cf -> Z.of_nat (length (filters cf)) < 65535 ->
  insertFp (2 + fuel) cf pr = insertFp 2 cf pr /\
  insertFp 2 cf pr <> Fail OutOfFuel.
Proof.
  intros H Hfn.
  change (2 + fuel)%nat with (S (S fuel)). change 2%nat with (S 1).
  cbn [insertFp].
  destruct (insert_scan _ cf pr) as [[cf0|]|f] eqn:Hscan; simpl.
  - split; [reflexivity|discriminate].
  - destruct (evictAndInsert_cases cf pr H)
      as (cur & k & Hcur & Hk & Hbn & [Hev|(bk' & Hw & Hsh & Hev)]);
      rewrite Hev; simpl; [|split; [reflexivity|discriminate]].
    destruct (Z.eqb_spec (expansion cf) 0) as [He|He];
      [split; [reflexivity|discriminate]|].
    destruct (grow cf) as [cf2|f] eqn:Hg; simpl.
    + exact (insertFp_after_grow fuel cf cf2 pr H Hfn He Hg).
    + split; [reflexivity|]. intros [= ->].
      unfold grow, pow_float_u64 in Hg.
      destruct (_ <? _); discriminate.
  - split; [reflexivity|]. intros [= ->].
    apply insert_scan_fault in Hscan. discriminate.
Qed.

(** * A run past 65535 generations *)

Lemma run_app_Ok mh ot fuel cf l1 l2 c1 o1 c2 o2 :
  run mh ot fuel cf l1 = Ok (c1, o1) ->
  run mh ot fuel c1 l2 = Ok (c2, o2) ->
  run mh ot fuel cf (l1 ++ l2) = Ok (c2, o1 ++ o2).
Proof.
  revert cf o1. induction l1 as [|o l1 IH]; intros cf o1 H1 H2.
  - injection H1 as <- <-. exact H2.
  - simpl in H1. simpl.
    destruct (apply_op mh ot fuel cf o) as [[c out]|]; [|discriminate].
    simpl in *.
    destruct (run mh ot fuel c l1) as [[c' outs]|] eqn:Hr; [|discriminate].
    simpl in H1. injection H1 as <- <-.
    rewrite (IH _ _ Hr H2). reflexivity.
Qed.

Lemma insert_scan_full n cf pr :
  (n <= length (filters cf))%nat ->
  (forall (i : nat) s, filters cf !! i = Some s ->
                       sub_findAvailableSlot s pr = Ok None) ->
  insert_scan n cf pr = Ok None.
Proof.
  intros Hn Hfull. induction n as [|n IH]; [reflexivity|].
  cbn [insert_scan].
  destruct (lookup_lt_is_Some_2 (filters cf) n) as [s Hs]; [lia|].
  unfold idx. rewrite Nat2Z.id, Hs. simpl. rewrite (Hfull _ _ Hs). simpl.
  apply IH. lia.
Qed.

Lemma stacked_wf m : (1 <= m)%nat -> Z.of_nat m <= 65535 -> wf (stacked m).
Proof.
  intros Hm Hle. unfold wf, stacked. simpl. rewrite length_replicate.
  split_and!; try lia.
  - right. apply (pow2_is_pow2 0). lia.
  - apply (pow2_is_pow2 1). lia.
  - rewrite u16_small; lia.
  - apply Forall_replicate. apply (bool_decide_unpack _). vm_compute. exact I.
Qed.

Lemma key_low_params : buildParams le_hash key_low = pr_low.
Proof. vm_compute. reflexivity. Qed.

Lemma key_high_params : buildParams le_hash key_high = pr_high.
Proof. vm_compute. reflexivity. Qed.

(** [evictAndInsert] in terms of the generation it works on. *)
Lemma evictAndInsert_at cf pr i cur w :
  Z.to_nat (u16 (filterNum cf - 1)) = i ->
  filters cf !! i = Some cur ->
  (let* p := umod (u64 (h1 pr)) (sBucketNum cur) in
   evict_walk (Z.to_nat (maxIter cf)) (sBucketNum cur) (bucketSize cf)
              (buckets cur) p 0 (fp pr)) = Ok w ->
  evictAndInsert cf pr =
  match w with
  | Placed bk =>
      Ok (with_filters cf (<[i := with_buckets cur bk]> (filters cf)),
          cuckooInserted)
  | Exhausted bk p v f =>
      let* bk' := evict_rollback (Z.to_nat (maxIter cf)) (sBucketNum cur)
                                 (bucketSize cf) bk p v f in
      Ok (with_filters cf (<[i := with_buckets cur bk']> (filters cf)),
          cuckooNospace)
  end.
Proof.
  intros Hi Hcur Hw. unfold evictAndInsert, evict_first_loop, idx.
  rewrite Hi, Hcur. cbn [bind].
  destruct (umod (u64 (h1 pr)) (sBucketNum cur)) as [p|]; [|discriminate].
  cbn [bind] in *. rewrite Hw. cbn [bind]. reflexivity.
Qed.

Lemma insert_scan_last pre s pr p j cf :
  filters cf = pre ++ [s] ->
  sub_findAvailableSlot s pr = Ok (Some (p, j)) ->
  insert_scan (S (length pre)) cf pr =
  Ok (Some (with_itemNum
              (with_filters cf (pre ++ [set_slot s p j (fp pr)]))
              (u64 (itemNum cf + 1)))).
Proof.
  intros Hfs Hslot. cbn [insert_scan]. unfold idx.
  rewrite Nat2Z.id, Hfs, lookup_app_r, Nat.sub_diag by lia.
  cbn [bind lookup list_lookup]. rewrite Hslot. cbn [bind].
  rewrite insert_app_r_alt, Nat.sub_diag by lia. reflexivity.
Qed.

Lemma grow_unit_expansion cf :
  expansion cf = 1 -> 0 <= filterNum cf -> bucketNum cf = 2 -> bucketSize cf = 1 ->
  grow cf =
  Ok (with_filterNum (with_filters cf (filters cf ++ [gen_none]))
                     (u16 (filterNum cf + 1))).
Proof.
  intros He Hfn Hbn Hbs. rewrite grow_exact.
  - rewrite He, Hbn, Hbs, Z.pow_1_l by exact Hfn. reflexivity.
  - rewrite He, Z.pow_1_l by exact Hfn. lia.
Qed.

Lemma stacked_insert m :
  (1 <= m)%nat -> Z.of_nat m < 65535 ->
  insertFp 2 (stacked m) pr_low = Ok (stacked (S m), cuckooInserted).
Proof.
  intros Hm Hlt.
  assert (Hscan : insert_scan (Z.to_nat (filterNum (stacked m))) (stacked m)
                              pr_low = Ok None).
  { apply insert_scan_full.
    - simpl. rewrite length_replicate. lia.
    - intros i s Hs. simpl in Hs. apply lookup_replicate in Hs as [-> _].
      vm_compute. reflexivity. }
  assert (Hev : evictAndInsert (stacked m) pr_low = Ok (stacked m, cuckooNospace)).
  { apply (evictAndInsert_exhausted _ _ gen_low [[2]; [0]] 0 0 2);
      [apply stacked_wf; lia|].
    unfold evict_first_loop, idx. cbn [stacked filters filterNum].
    rewrite u16_small by lia. rewrite lookup_replicate_2 by lia.
    vm_compute. reflexivity. }
  change (insertFp 2 (stacked m) pr_low) with
    (let* r := insert_scan (Z.to_nat (filterNum (stacked m))) (stacked m) pr_low in
     match r with
     | Some cf' => Ok (cf', cuckooInserted)
     | None =>
         let* '(cf1, st) := evictAndInsert (stacked m) pr_low in
         if is_inserted st
         then Ok (with_itemNum cf1 (u64 (itemNum cf1 + 1)), cuckooInserted)
         else if expansion cf1 =? 0 then Ok (cf1, cuckooNospace)
         else let* cf2 := grow cf1 in insertFp 1 cf2 pr_low
     end).
  rewrite Hscan. cbn [bind]. rewrite Hev. cbn [bind is_inserted].
  change (expansion (stacked m) =? 0) with false. cbn iota.
  rewrite grow_unit_expansion by (try reflexivity; simpl; lia).
  cbn [bind]. cbn [insertFp].
  cbn [stacked filterNum filters with_filters with_filterNum bucketNum
       bucketSize itemNum deleteNum maxIter expansion].
  rewrite u16_small by lia.
  replace (Z.to_nat (Z.of_nat m + 1)) with (S (length (replicate m gen_low)))
    by (rewrite length_replicate; lia).
  rewrite (insert_scan_last (replicate m gen_low) gen_none pr_low 0 0%nat);
    [|reflexivity|vm_compute; reflexivity].
  cbn [bind]. unfold stacked. f_equal. f_equal.
  unfold with_itemNum, with_filters, with_filterNum.
  cbn [filterNum filters bucketNum bucketSize itemNum deleteNum maxIter
       expansion].
  rewrite u64_small by lia.
  replace (Z.of_nat m + 1) with (Z.of_nat (S m)) by lia.
  f_equal. change (set_slot gen_none 0 0 (fp pr_low)) with gen_low.
  rewrite replicate_S_end. reflexivity.
Qed.

Lemma past_limit_evict fuel n pre last pr bk :
  Z.of_nat (length pre) = 65535 -> 0 <= n < 2 ^ 63 ->
  (let* p := umod (u64 (h1 pr)) (sBucketNum last) in
   evict_walk 2 (sBucketNum last) 1 (buckets last) p 0 (fp pr))
    = Ok (Placed bk) ->
  insertFp (S fuel) (past_limit n pre last) pr =
  Ok (past_limit (n + 1) pre (with_buckets last bk), cuckooInserted).
Proof.
  intros Hlen Hn Hw. cbn [insertFp].
  change (insert_scan _ _ _) with (@Ok (option CuckooFilter) None).
  cbn [bind].
  rewrite (evictAndInsert_at _ pr (length pre) last (Placed bk)).
  - cbn [bind is_inserted]. unfold past_limit, with_itemNum, with_filters.
    cbn [filterNum filters bucketNum bucketSize itemNum deleteNum maxIter
         expansion].
    rewrite insert_app_r_alt, Nat.sub_diag by lia.
    rewrite u64_small by lia. reflexivity.
  - change (u16 (filterNum (past_limit n pre last) - 1)) with 65535. lia.
  - unfold past_limit. cbn [filters].
    rewrite lookup_app_r, Nat.sub_diag by lia. reflexivity.
  - exact Hw.
Qed.

(** The insertion that makes [filterNum] wrap. *)
Lemma stacked_wraps m :
  Z.of_nat m = 65535 ->
  insertFp 2 (stacked m) pr_low =
  Ok (past_limit 65536 (replicate m gen_low) gen_low, cuckooInserted).
Proof.
  intros Hm.
  assert (Hscan : insert_scan (Z.to_nat (filterNum (stacked m))) (stacked m)
                              pr_low = Ok None).
  { apply insert_scan_full.
    - simpl. rewrite length_replicate. lia.
    - intros i s Hs. simpl in Hs. apply lookup_replicate in Hs as [-> _].
      vm_compute. reflexivity. }
  assert (Hev : evictAndInsert (stacked m) pr_low = Ok (stacked m, cuckooNospace)).
  { apply (evictAndInsert_exhausted _ _ gen_low [[2]; [0]] 0 0 2);
      [apply stacked_wf; lia|].
    unfold evict_first_loop, idx. cbn [stacked filters filterNum].
    rewrite u16_small by lia. rewrite lookup_replicate_2 by lia.
    vm_compute. reflexivity. }
  change (insertFp 2 (stacked m) pr_low) with
    (let* r := insert_scan (Z.to_nat (filterNum (stacked m))) (stacked m) pr_low in
     match r with
     | Some cf' => Ok (cf', cuckooInserted)
     | None =>
         let* '(cf1, st) := evictAndInsert (stacked m) pr_low in
         if is_inserted st
         then Ok (with_itemNum cf1 (u64 (itemNum cf1 + 1)), cuckooInserted)
         else if expansion cf1 =? 0 then Ok (cf1, cuckooNospace)
         else let* cf2 := grow cf1 in insertFp 1 cf2 pr_low
     end).
  rewrite Hscan. cbn [bind]. rewrite Hev. cbn [bind is_inserted].
  change (expansion (stacked m) =? 0) with false. cbn iota.
  rewrite grow_unit_expansion by (try reflexivity; simpl; lia).
  cbn [bind]. unfold stacked, with_filterNum, with_filters.
  cbn [filterNum filters bucketNum bucketSize itemNum deleteNum maxIter
       expansion].
  rewrite Hm. change (u16 (65535 + 1)) with 0.
  fold (past_limit 65535 (replicate m gen_low) gen_none).
  rewrite (past_limit_evict 0 65535 _ gen_none pr_low [[2]; [0]]).
  - reflexivity.
  - rewrite length_replicate. exact Hm.
  - lia.
  - vm_compute. reflexivity.
Qed.

(** The first insertion of the second key: the walk places it in the
    generation it works on. *)
Lemma past_limit_insert_high pre :
  Z.of_nat (length pre) = 65535 ->
  insertFp 2 (past_limit 65536 pre gen_low) pr_high =
  Ok (past_limit 65537 pre gen_both, cuckooInserted).
Proof.
  intros Hlen.
  rewrite (past_limit_evict 1 65536 _ gen_low pr_high [[2]; [2]]).
  - reflexivity.
  - exact Hlen.
  - lia.
  - vm_compute. reflexivity.
Qed.

(** The second insertion of the second key: the walk is exhausted, [grow]
    takes [filterNum] from 0 to 1, and the scan that follows sees the oldest
    generation only. *)
Lemma past_limit_grows pre :
  Z.of_nat (length (gen_low :: pre)) = 65535 ->
  insertFp 2 (past_limit 65537 (gen_low :: pre) gen_both) pr_high =
  Ok (mkCF 2 1 65538 0 2 1 1 (gen_both :: pre ++ [gen_both; gen_none]),
      cuckooInserted).
Proof.
  intros Hlen. set (cf := past_limit 65537 (gen_low :: pre) gen_both).
  assert (Hev : evictAndInsert cf pr_high = Ok (cf, cuckooNospace)).
  { rewrite (evictAndInsert_at cf pr_high (length (gen_low :: pre)) gen_both
               (Exhausted [[2]; [2]] 1 0 2)).
    - change (evict_rollback _ _ _ _ _ _ _) with (@Ok (list bucket) [[2]; [2]]).
      cbn [bind]. change (with_buckets gen_both [[2]; [2]]) with gen_both.
      unfold cf, past_limit, with_filters.
      cbn [filterNum filters bucketNum bucketSize itemNum deleteNum maxIter
           expansion].
      rewrite insert_app_r_alt, Nat.sub_diag by lia. reflexivity.
    - change (u16 (filterNum cf - 1)) with 65535. lia.
    - unfold cf, past_limit. cbn [filters].
      rewrite lookup_app_r, Nat.sub_diag by lia. reflexivity.
    - vm_compute. reflexivity. }
  change (insertFp 2 cf pr_high) with
    (let* '(cf1, st) := evictAndInsert cf pr_high in
     if is_inserted st
     then Ok (with_itemNum cf1 (u64 (itemNum cf1 + 1)), cuckooInserted)
     else if expansion cf1 =? 0 then Ok (cf1, cuckooNospace)
     else let* cf2 := grow cf1 in insertFp 1 cf2 pr_high).
  rewrite Hev. cbn [bind is_inserted].
  change (expansion cf =? 0) with false. cbn iota.
  rewrite grow_unit_expansion by (try reflexivity; simpl; lia).
  cbn [bind]. unfold cf, past_limit.
  replace (pre ++ [gen_both; gen_none]) with ((pre ++ [gen_both]) ++ [gen_none])
    by (rewrite <- app_assoc; reflexivity).
  reflexivity.
Qed.

Lemma cycling_step d tl :
  0 <= d < 2 ^ 63 ->
  run le_hash tenth 2 (cycling d tl) [OpDelete key_high; OpInsert key_high] =
  Ok (cycling (d + 1) tl, [Done true; Done true]).
Proof.
  intros Hd.
  assert (H : run le_hash tenth 2 (cycling d tl)
                [OpDelete key_high; OpInsert key_high] =
              Ok (cycling (u64 (d + 1)) tl, [Done true; Done true]))
    by reflexivity.
  rewrite H, u64_small by lia. reflexivity.
Qed.

(** At 6552 deletions: one more insertion of the second key grows the
    filter to [filterNum] 2; the deletion of the second key leaves
    [deleteNum] at a tenth of [itemNum]; the deletion of the first key
    empties generation 1 and starts the compaction, which finds generation
    1 empty and cuts the list of generations after generation 0. *)
Lemma cycling_ends tl :
  run le_hash tenth 2 (cycling 6552 (gen_low :: tl))
      [OpInsert key_high; OpDelete key_high; OpDelete key_low] =
  Ok (mkCF 2 1 65537 0 2 1 1 [gen_both], [Done true; Done true; Done true]).
Proof. reflexivity. Qed.

(** ** The whole run *)

Lemma apply_op_inserted fuel cf data cf' :
  insertFp fuel cf (buildParams le_hash data) = Ok (cf', cuckooInserted) ->
  apply_op le_hash tenth fuel cf (OpInsert data) = Ok (cf', Done true).
Proof. intros H. simpl. unfold Insert. rewrite H. reflexivity. Qed.

Lemma run_one mh ot fuel cf o cf' out :
  apply_op mh ot fuel cf o = Ok (cf', out) ->
  run mh ot fuel cf [o] = Ok (cf', [out]).
Proof. intros H. simpl. rewrite H. reflexivity. Qed.

Lemma run_stacked n :
  forall m, (1 <= m)%nat -> Z.of_nat (m + n) <= 65535 ->
  run le_hash tenth 2 (stacked m) (replicate n (OpInsert key_low)) =
  Ok (stacked (m + n), replicate n (Done true)).
Proof.
  induction n as [|n IH]; intros m Hm Hle.
  - rewrite Nat.add_0_r. reflexivity.
  - change (replicate (S n) (OpInsert key_low))
      with ([OpInsert key_low] ++ replicate n (OpInsert key_low)).
    change (replicate (S n) (Done true))
      with ([Done true] ++ replicate n (Done true)).
    apply (run_app_Ok _ _ _ _ _ _ (stacked (S m))).
    + apply run_one, apply_op_inserted. rewrite key_low_params.
      apply stacked_insert; lia.
    + replace (m + S n)%nat with (S m + n)%nat by lia. apply IH; lia.
Qed.

Lemma run_cycling n :
  forall d tl, 0 <= d -> d + Z.of_nat n < 2 ^ 63 ->
  run le_hash tenth 2 (cycling d tl)
      (concat (replicate n [OpDelete key_high; OpInsert key_high])) =
  Ok (cycling (d + Z.of_nat n) tl, replicate (n + n) (Done true)).
Proof.
  induction n as [|n IH]; intros d tl Hd Hlt.
  - rewrite Z.add_0_r. reflexivity.
  - change (concat (replicate (S n) [OpDelete key_high; OpInsert key_high]))
      with ([OpDelete key_high; OpInsert key_high] ++
            concat (replicate n [OpDelete key_high; OpInsert key_high])).
    replace (S n + S n)%nat with (2 + (n + n))%nat by lia.
    change (replicate (2 + (n + n)) (Done true))
      with ([Done true; Done true] ++ replicate (n + n) (Done true)).
    apply (run_app_Ok _ _ _ _ _ _ (cycling (d + 1) tl)).
    + apply cycling_step. lia.
    + replace (d + Z.of_nat (S n)) with (d + 1 + Z.of_nat n) by lia.
      apply IH; lia.
Qed.

Lemma run_wrap_ops (n c : nat) :
  Z.of_nat n = 65533 -> Z.of_nat c = 6552 ->
  exists outs,
    run le_hash tenth 2 fresh
        (replicate (S (S (S n))) (OpInsert key_low) ++
         [OpInsert key_high; OpInsert key_high] ++
         concat (replicate c [OpDelete key_high; OpInsert key_high]) ++
         [OpInsert key_high; OpDelete key_high; OpDelete key_low])
      = Ok (cut_short, outs) /\
    Forall (fun out => out = Done true) outs.
Proof.
  intros Hn Hc.
  eexists. split.
  - change (replicate (S (S (S n))) (OpInsert key_low))
      with ([OpInsert key_low] ++ replicate (S (S n)) (OpInsert key_low)).
    rewrite (replicate_S_end (S n)), <- !app_assoc.
    (* the first insertion *)
    eapply (run_app_Ok _ _ _ _ _ _ (stacked 1) [Done true]); [reflexivity|].
    (* up to 65535 generations *)
    eapply run_app_Ok; [apply (run_stacked (S n) 1%nat); lia|].
    (* the insertion that wraps [filterNum] *)
    eapply (run_app_Ok _ _ _ _ [OpInsert key_low]).
    { apply run_one, apply_op_inserted. rewrite key_low_params.
      apply stacked_wraps. lia. }
    (* the second key, twice *)
    eapply (run_app_Ok _ _ _ _ [OpInsert key_high] (_ :: _)).
    { apply run_one, apply_op_inserted. rewrite key_high_params.
      apply past_limit_insert_high. rewrite length_replicate. lia. }
    eapply (run_app_Ok _ _ _ _ [OpInsert key_high]).
    { apply run_one, apply_op_inserted. rewrite key_high_params.
      change (replicate (1 + S n) gen_low)
        with (gen_low :: replicate (S n) gen_low).
      apply past_limit_grows. simpl length. rewrite length_replicate. lia. }
    (* the cycles *)
    eapply run_app_Ok; [apply (run_cycling c 0); lia|].
    (* the end *)
    replace (0 + Z.of_nat c) with 6552 by lia.
    change (replicate (S n) gen_low ++ [gen_both; gen_none])
      with (gen_low :: replicate n gen_low ++ [gen_both; gen_none]).
    apply cycling_ends.
  - repeat (apply Forall_app; split); try apply Forall_replicate;
      repeat constructor.
Qed.

(** C5: [itemNum] departs from the number of occupied slots.  After
    65536 generations [filterNum], a [uint16] that [grow] increments
    without a guard, is back at 0 and no longer counts the generations; a
    later compaction at [filterNum] 2 cuts the list of generations after
    the oldest, though the generation it has emptied is not the newest, and
    drops 65535 fingerprints without a change of [itemNum]: the run ends
    with [itemNum] 65537 and 2 occupied slots. *)
Lemma itemNum_exceeds_occupied_after_wrap :
  NewCuckooFilter 2 1 2 1 = Ok fresh /\
  (exists outs,
     run le_hash tenth 2 fresh wrap_ops = Ok (cut_short, outs) /\
     Forall (fun out => out = Done true) outs) /\
  itemNum cut_short = 65537 /\
  occupied cut_short = 2.
Proof.
  split; [vm_compute; reflexivity|]. split; [|split; reflexivity].
  unfold wrap_ops.
  replace (Z.to_nat 65536) with (S (S (S (Z.to_nat 65533)))) by lia.
  apply run_wrap_ops; lia.
Qed.

(** * A generation of more than [2^32] buckets *)

Lemma sub_findAvailableSlot_first s pr p1 p2 b1 j :
  bucketIndex s (h1 pr) = Ok p1 -> bucketIndex s (h2 pr) = Ok p2 ->
  buckets s !! Z.to_nat p1 = Some b1 ->
  bucket_findAvailableSlot b1 = Some j ->
  sub_findAvailableSlot s pr = Ok (Some (p1, j)).
Proof.
  intros H1 H2 Hb1 Hj. unfold sub_findAvailableSlot, idx.
  rewrite H1, H2. cbn [bind]. rewrite Hb1. cbn [bind]. rewrite Hj. reflexivity.
Qed.

Lemma sub_findAvailableSlot_full s pr p1 p2 b1 b2 :
  bucketIndex s (h1 pr) = Ok p1 -> bucketIndex s (h2 pr) = Ok p2 ->
  buckets s !! Z.to_nat p1 = Some b1 -> buckets s !! Z.to_nat p2 = Some b2 ->
  bucket_findAvailableSlot b1 = None -> bucket_findAvailableSlot b2 = None ->
  sub_findAvailableSlot s pr = Ok None.
Proof.
  intros H1 H2 Hb1 Hb2 Hn1 Hn2. unfold sub_findAvailableSlot, idx.
  rewrite H1, H2. cbn [bind]. rewrite Hb1. cbn [bind]. rewrite Hn1, Hb2.
  cbn [bind]. rewrite Hn2. reflexivity.
Qed.

(** The walk of a fingerprint [f] that starts at an empty one-slot bucket
    [p]: the first iteration writes [f] there and takes the empty slot in
    hand, the second writes the empty slot back, takes [f] in hand and puts
    it into the slot just emptied. *)
Lemma evict_walk_empty_bucket n bn bk p f :
  bk !! Z.to_nat p = Some [nullFp] -> f <> nullFp -> bn <> 0 ->
  u64 (altHash nullFp (u64 p)) mod bn = p ->
  evict_walk (S (S n)) bn 1 bk p 0 f =
  Ok (Placed (<[Z.to_nat p := [f]]>
                (<[Z.to_nat p := [nullFp]]> (<[Z.to_nat p := [f]]> bk)))).
Proof.
  intros Hb Hf Hbn Hp.
  assert (Hlt : (Z.to_nat p < length bk)%nat) by (apply lookup_lt_is_Some; eauto).
  assert (Hum : forall a, umod a bn = Ok (a mod bn))
    by (intros a; apply umod_Ok; auto).
  assert (Hfull : bucket_findAvailableSlot [f] = None).
  { simpl. destruct (Z.eqb_spec f nullFp); [contradiction|reflexivity]. }
  cbn [evict_walk]. unfold idx at 1. rewrite Hb. cbn [bind].
  change (idx [nullFp] 0) with (@Ok Z nullFp). cbn [bind].
  change (<[Z.to_nat 0 := f]> [nullFp]) with [f].
  rewrite Hum, Hp. cbn [bind]. rewrite Hfull.
  change (umod (u32 (0 + 1)) (u32 1)) with (@Ok Z 0). cbn [bind].
  unfold idx at 1. rewrite list_lookup_insert_eq by exact Hlt. cbn [bind].
  change (idx [f] 0) with (@Ok Z f). cbn [bind].
  change (<[Z.to_nat 0 := nullFp]> [f]) with [nullFp].
  rewrite Hum. cbn [bind].
  change (bucket_findAvailableSlot [nullFp]) with (Some O).
  reflexivity.
Qed.

Lemma key_a_params : buildParams le_hash key_a = pr_a.
Proof. vm_compute. reflexivity. Qed.

Lemma key_b_params : buildParams le_hash key_b = pr_b.
Proof. vm_compute. reflexivity. Qed.

Lemma key_c_params : buildParams le_hash key_c = pr_c.
Proof. vm_compute. reflexivity. Qed.

Section Wide.

(** The empty bucket slice, and the two bucket indices above 0 that the
    run touches. *)
Variable bk0 : list bucket.
Variables ib ic : Z.
Hypothesis bk0_length : Z.of_nat (length bk0) = 2 ^ 33.
Hypothesis bk0_empty : forall i : nat, (i < length bk0)%nat -> bk0 !! i = Some [nullFp].
Hypothesis ib_value : ib = 3080966954.
Hypothesis ic_value : ic = 4294967296.

Abbreviation bk_a := (bk_a bk0).
Abbreviation bk_b := (bk_b bk0 ib).
Abbreviation bk_c := (bk_c bk0 ib ic).

Lemma wide_bucketIndex bk h p :
  p = u32 (u64 h mod 2 ^ 33) -> bucketIndex (mkSubCF (2 ^ 33) 1 bk) h = Ok p.
Proof. intros ->. reflexivity. Qed.

Lemma bk_a_0 : bk_a !! Z.to_nat 0 = Some [1].
Proof. unfold bk_a. apply list_lookup_insert_eq. lia. Qed.

Lemma bk_a_ib : bk_a !! Z.to_nat ib = Some [nullFp].
Proof.
  unfold bk_a. rewrite list_lookup_insert_ne by lia. apply bk0_empty. lia.
Qed.

Lemma bk_b_0 : bk_b !! Z.to_nat 0 = Some [1].
Proof. unfold bk_b. rewrite list_lookup_insert_ne by lia. apply bk_a_0. Qed.

Lemma bk_b_ib : bk_b !! Z.to_nat ib = Some [90].
Proof.
  unfold bk_b. apply list_lookup_insert_eq. unfold bk_a.
  rewrite length_insert. lia.
Qed.

Lemma bk_b_ic : bk_b !! Z.to_nat ic = Some [nullFp].
Proof.
  unfold bk_b, bk_a. rewrite !list_lookup_insert_ne by lia.
  apply bk0_empty. lia.
Qed.

Lemma bk_c_0 : bk_c !! Z.to_nat 0 = Some [1].
Proof. unfold bk_c. rewrite !list_lookup_insert_ne by lia. apply bk_b_0. Qed.

Lemma bk_c_ib : bk_c !! Z.to_nat ib = Some [90].
Proof. unfold bk_c. rewrite !list_lookup_insert_ne by lia. apply bk_b_ib. Qed.

(** The first two keys go to the empty first candidate bucket. *)
Lemma wide_insert_a :
  insertFp 2 (wide 0 bk0) pr_a = Ok (wide 1 bk_a, cuckooInserted).
Proof.
  cbn [insertFp]. change (Z.to_nat (filterNum (wide 0 bk0))) with 1%nat.
  rewrite (insert_scan_last [] (mkSubCF (2 ^ 33) 1 bk0) pr_a 0 0%nat);
    [|reflexivity|].
  - cbn [bind].
    rewrite (set_slot_eq _ _ _ _ [nullFp]) by (apply bk0_empty; lia).
    reflexivity.
  - apply (sub_findAvailableSlot_first _ _ 0 1540483477 [nullFp]);
      try reflexivity.
    apply bk0_empty. lia.
Qed.

Lemma wide_insert_b :
  insertFp 2 (wide 1 bk_a) pr_b = Ok (wide 2 bk_b, cuckooInserted).
Proof.
  cbn [insertFp]. change (Z.to_nat (filterNum (wide 1 bk_a))) with 1%nat.
  assert (Hib : bucketIndex (mkSubCF (2 ^ 33) 1 bk_a) (h1 pr_b) = Ok ib)
    by (apply wide_bucketIndex; rewrite ib_value; vm_compute; reflexivity).
  rewrite (insert_scan_last [] (mkSubCF (2 ^ 33) 1 bk_a) pr_b ib 0%nat);
    [|reflexivity|].
  - cbn [bind]. rewrite (set_slot_eq _ _ _ _ [nullFp]) by exact bk_a_ib.
    reflexivity.
  - apply (sub_findAvailableSlot_first _ _ ib (u32 (u64 (h2 pr_b) mod 2 ^ 33))
             [nullFp]); try reflexivity; [exact Hib | exact bk_a_ib].
Qed.

(** For the third key both buckets [bucketIndex] names are full; the walk
    starts at the bucket [2^32], the first hash modulo the bucket count,
    which is empty, and leaves the fingerprint there. *)
Lemma wide_insert_c :
  insertFp 2 (wide 2 bk_b) pr_c = Ok (wide 3 bk_c, cuckooInserted).
Proof.
  assert (H1 : bucketIndex (mkSubCF (2 ^ 33) 1 bk_b) (h1 pr_c) = Ok 0)
    by reflexivity.
  assert (H2 : bucketIndex (mkSubCF (2 ^ 33) 1 bk_b) (h2 pr_c) = Ok ib)
    by (apply wide_bucketIndex; rewrite ib_value; vm_compute; reflexivity).
  assert (Hscan : insert_scan 1 (wide 2 bk_b) pr_c = Ok None).
  { apply insert_scan_full; [simpl; lia|].
    intros i s Hs. destruct i as [|i]; [|destruct i; discriminate].
    injection Hs as <-.
    apply (sub_findAvailableSlot_full _ _ 0 ib [1] [90]);
      auto using bk_b_0, bk_b_ib. }
  assert (Hev : evictAndInsert (wide 2 bk_b) pr_c = Ok (wide 2 bk_c, cuckooInserted)).
  { rewrite (evictAndInsert_at _ pr_c 0%nat (mkSubCF (2 ^ 33) 1 bk_b)
               (Placed bk_c)); try reflexivity.
    change (umod (u64 (h1 pr_c)) (sBucketNum (mkSubCF (2 ^ 33) 1 bk_b)))
      with (@Ok Z 4294967296).
    rewrite <- ic_value. cbn [bind].
    change (Z.to_nat (maxIter (wide 2 bk_b))) with 2%nat.
    cbn [sBucketNum bucketSize wide buckets fp pr_c].
    apply evict_walk_empty_bucket; [exact bk_b_ic | discriminate | lia |].
    rewrite ic_value. vm_compute. reflexivity. }
  cbn [insertFp]. change (Z.to_nat (filterNum (wide 2 bk_b))) with 1%nat.
  rewrite Hscan. cbn [bind]. rewrite Hev. reflexivity.
Qed.

(** [Exist] looks for the third key in the buckets 0 and [0xb7a3d32a]. *)
Lemma wide_exist_c : existFp (wide 3 bk_c) pr_c = Ok false.
Proof.
  assert (H1 : bucketIndex (mkSubCF (2 ^ 33) 1 bk_c) (h1 pr_c) = Ok 0)
    by reflexivity.
  assert (H2 : bucketIndex (mkSubCF (2 ^ 33) 1 bk_c) (h2 pr_c) = Ok ib)
    by (apply wide_bucketIndex; rewrite ib_value; vm_compute; reflexivity).
  unfold existFp. cbn [wide filters exist_scan].
  rewrite (sub_find_eq _ _ _ _ _ _ H1 H2 bk_c_0 bk_c_ib). reflexivity.
Qed.

Lemma wide_run :
  run le_hash tenth 2 (wide 0 bk0)
      [OpInsert key_a; OpInsert key_b; OpInsert key_c] =
    Ok (wide 3 bk_c, [Done true; Done true; Done true]) /\
  Exist le_hash (wide 3 bk_c) key_c = Ok (wide 3 bk_c, false).
Proof.
  split.
  - apply (run_app_Ok _ _ _ _ [OpInsert key_a] _ (wide 1 bk_a) [Done true]).
    { apply run_one, apply_op_inserted. rewrite key_a_params.
      exact wide_insert_a. }
    apply (run_app_Ok _ _ _ _ [OpInsert key_b] _ (wide 2 bk_b) [Done true]).
    { apply run_one, apply_op_inserted. rewrite key_b_params.
      exact wide_insert_b. }
    apply run_one, apply_op_inserted. rewrite key_c_params.
    exact wide_insert_c.
  - unfold Exist. rewrite key_c_params, wide_exist_c. reflexivity.
Qed.

End Wide.

(** C1: the code loses a key it has taken.  In a filter of [2^33] buckets
    [Insert] of the third key returns true: the scan, through
    [bucketIndex], looks at the buckets of the indices truncated to
    [uint32], both full, and the walk, which indexes with the untruncated
    [uint64], leaves the fingerprint in bucket [2^32].  [Exist] of that
    key, through [bucketIndex] again, looks in the buckets of the truncated
    indices only and returns false, in a sequence without [Delete]. *)
Lemma Exist_false_after_Insert_true :
  exists cf0 cf,
    NewCuckooFilter (2 ^ 33) 1 2 0 = Ok cf0 /\
    run le_hash tenth 2 cf0 [OpInsert key_a; OpInsert key_b; OpInsert key_c] =
      Ok (cf, [Done true; Done true; Done true]) /\
    Exist le_hash cf key_c = Ok (cf, false).
Proof.
  assert (Hlen : Z.of_nat (length (replicate (Z.to_nat (2 ^ 33)) (makeBucket 1)))
                 = 2 ^ 33) by (rewrite length_replicate; lia).
  assert (Hempty : forall i : nat,
            (i < length (replicate (Z.to_nat (2 ^ 33)) (makeBucket 1)))%nat ->
            replicate (Z.to_nat (2 ^ 33)) (makeBucket 1) !! i = Some [nullFp]).
  { intros i Hi. rewrite length_replicate in Hi.
    apply lookup_replicate_2. exact Hi. }
  destruct (wide_run _ 3080966954 4294967296 Hlen Hempty eq_refl eq_refl)
    as [Hrun Hex].
  eexists _, _. split; [|split; [exact Hrun | exact Hex]].
  rewrite NewCuckooFilter_value by lia.
  change (base_bucketNum (2 ^ 33 / 1)) with (2 ^ 33).
  reflexivity.
Qed.

(** * Further properties of the cuckoo filter *)

(** ** The alternate bucket *)

Section Alternate.

Variable MurmurHash64A : list Byte.byte -> Z -> Z.

(** X1: among [2^k] buckets the index [altHash(fp, p) % bucketNum] that
    the walk moves to is a bucket index, moving twice with the same
    fingerprint leads back to [p], and the two candidate buckets of the
    parameters [buildParams] derives for a key are each the alternate of
    the other. *)
Theorem alternate_bucket_involution k f p data :
  0 <= k < 64 -> 0 <= p < 2 ^ k ->
  0 <= alt_index (2 ^ k) f p < 2 ^ k /\
  alt_index (2 ^ k) f (alt_index (2 ^ k) f p) = p /\
  let pr := buildParams MurmurHash64A data in
  u64 (h2 pr) mod 2 ^ k = alt_index (2 ^ k) (fp pr) (u64 (h1 pr) mod 2 ^ k) /\
  u64 (h1 pr) mod 2 ^ k = alt_index (2 ^ k) (fp pr) (u64 (h2 pr) mod 2 ^ k).
Proof.
  intros Hk Hp.
  assert (Hpos : 0 < 2 ^ k) by (apply Z.pow_pos_nonneg; lia).
  split; [apply alt_index_range; exact Hpos|].
  split; [apply alt_index_invol; assumption|].
  apply cand_pair; [exact Hk|]. apply paramsOfHash_keyed.
Qed.

End Alternate.

Lemma alternate_bucket_involution_witness :
  0 <= alt_index (2 ^ 3) 5 6 < 2 ^ 3 /\
  alt_index (2 ^ 3) 5 (alt_index (2 ^ 3) 5 6) = 6 /\
  let pr := buildParams le_hash [x03; x01] in
  u64 (h2 pr) mod 2 ^ 3 = alt_index (2 ^ 3) (fp pr) (u64 (h1 pr) mod 2 ^ 3) /\
  u64 (h1 pr) mod 2 ^ 3 = alt_index (2 ^ 3) (fp pr) (u64 (h2 pr) mod 2 ^ 3).
Proof.
  apply (alternate_bucket_involution le_hash 3 5 6 [x03; x01]); lia.
Defined.

(** ** next2N *)

(** X2: [next2N] returns the least power of two that is at least its
    argument when the argument is between 1 and [2^63], and 0 when the
    argument is 0 or above [2^63], where the power of two does not fit. *)
Theorem next2N_rounds_up n :
  0 <= n < 2 ^ 64 ->
  (1 <= n <= 2 ^ 63 -> least_pow2_geq n (next2N n)) /\
  (n = 0 \/ 2 ^ 63 < n -> next2N n = 0).
Proof.
  intros Hn. split.
  - intros Hr. rewrite next2N_log2_up by exact Hr. apply log2_up_least.
  - intros [->|Hbig]; [reflexivity|]. apply next2N_large. lia.
Qed.

Lemma next2N_rounds_up_witness :
  (1 <= 25 <= 2 ^ 63 -> least_pow2_geq 25 (next2N 25)) /\
  (25 = 0 \/ 2 ^ 63 < 25 -> next2N 25 = 0).
Proof. apply (next2N_rounds_up 25). lia. Defined.

(** ** Counting in a bucket *)

Lemma occurrences_range b f : 0 <= occurrences b f <= Z.of_nat (length b).
Proof.
  unfold occurrences. induction b as [|v r IH]; simpl; [lia|].
  destruct (v =? f); lia.
Qed.

Lemma occurrences_pos b f : 0 < occurrences b f <-> f ∈ b.
Proof.
  unfold occurrences. induction b as [|v r IH]; simpl.
  - split; [lia|]. intros H. inversion H.
  - pose proof (occurrences_range r f) as Hr. unfold occurrences in Hr.
    rewrite elem_of_cons. destruct (Z.eqb_spec v f) as [->|Hne].
    + split; [auto|lia].
    + rewrite Z.add_0_l, IH. split; [auto|]. intros [->|H]; [contradiction|exact H].
Qed.

(** The loop of [count], from the running value [res]. *)
Lemma bucket_count_from b f :
  forall res, 0 <= res -> res + Z.of_nat (length b) < 2 ^ 16 ->
  fold_left (fun res v => if v =? f then u16 (res + 1) else res) b res
  = res + occurrences b f.
Proof.
  unfold occurrences. induction b as [|v r IH]; intros res Hres Hlt; simpl.
  - lia.
  - simpl length in Hlt. destruct (v =? f).
    + rewrite u16_small by lia. rewrite IH by lia. lia.
    + rewrite IH by lia. lia.
Qed.

Lemma bucket_count_occurrences b f :
  Z.of_nat (length b) < 2 ^ 16 -> bucket_count b f = occurrences b f.
Proof.
  intros Hlt. unfold bucket_count. rewrite bucket_count_from by lia. lia.
Qed.


(** ** The filter [NewCuckooFilter] returns *)


Section Fresh.

Variable MurmurHash64A : list Byte.byte -> Z -> Z.
Variable over_tenth : Z -> Z -> bool.



End Fresh.


(** * What Insert returns *)

Lemma evictAndInsert_expansion cf pr cf1 st :
  evictAndInsert cf pr = Ok (cf1, st) -> expansion cf1 = expansion cf.
Proof.
  unfold evictAndInsert. intros H.
  destruct (evict_first_loop cf pr) as [[cur w]|]; [|discriminate].
  simpl in H. destruct w as [bk|bk p v f].
  - injection H as <- _. reflexivity.
  - destruct (evict_rollback _ _ _ _ _ _ _); [|discriminate].
    injection H as <- _. reflexivity.
Qed.

Lemma grow_expansion cf cf2 : grow cf = Ok cf2 -> expansion cf2 = expansion cf.
Proof. intros H. apply grow_Ok in H as [_ ->]. reflexivity. Qed.

(** With a growth factor, [insertFp] returns no status but
    [cuckooInserted]. *)
Lemma insertFp_expanding fuel :
  forall cf pr cf' st,
    insertFp fuel cf pr = Ok (cf', st) -> expansion cf <> 0 ->
    st = cuckooInserted.
Proof.
  induction fuel as [|fuel IH]; intros cf pr cf' st Hrun He; [discriminate|].
  simpl in Hrun.
  destruct (insert_scan _ cf pr) as [[cf0|]|]; simpl in Hrun; [| |discriminate].
  { injection Hrun as _ <-. reflexivity. }
  destruct (evictAndInsert cf pr) as [[cf1 st1]|] eqn:Hev; simpl in Hrun;
    [|discriminate].
  pose proof (evictAndInsert_expansion _ _ _ _ Hev) as He1.
  destruct (is_inserted st1); [injection Hrun as _ <-; reflexivity|].
  destruct (Z.eqb_spec (expansion cf1) 0) as [Hz|Hnz]; [congruence|].
  destruct (grow cf1) as [cf2|] eqn:Hg; simpl in Hrun; [|discriminate].
  apply (IH _ _ _ _ Hrun). rewrite (grow_expansion _ _ Hg). exact Hnz.
Qed.

Lemma insertFp_refused fuel cf pr cf' st :
  wf cf -> insertFp fuel cf pr = Ok (cf', st) -> st <> cuckooInserted ->
  st = cuckooNospace /\ cf' = cf /\ expansion cf = 0.
Proof.
  intros H Hrun Hst.
  destruct (Z.eqb_spec (expansion cf) 0) as [He|He].
  2:{ destruct Hst. exact (insertFp_expanding _ _ _ _ _ Hrun He). }
  destruct fuel as [|fuel]; [discriminate|]. simpl in Hrun.
  destruct (insert_scan _ cf pr) as [[cf0|]|]; simpl in Hrun; [| |discriminate].
  { injection Hrun as _ <-. contradiction. }
  destruct (evictAndInsert_cases cf pr H)
    as (cur & k & _ & _ & _ & [Hev|(bk' & _ & _ & Hev)]);
    rewrite Hev in Hrun; simpl in Hrun.
  - rewrite He in Hrun. simpl in Hrun. injection Hrun as <- <-. auto.
  - injection Hrun as _ <-. contradiction.
Qed.




Section Inserting.

Variable MurmurHash64A : list Byte.byte -> Z -> Z.

Abbreviation buildParams := (buildParams MurmurHash64A).

(** X4: in a well-formed filter an [Insert] that returns false has changed
    nothing, and the filter is one that does not grow ([expansion] is 0);
    with an [expansion] other than 0 no [Insert] returns false. *)
Theorem Insert_false_changes_nothing fuel cf data cf' :
  wf cf ->
  Insert MurmurHash64A fuel cf data = Ok (cf', false) ->
  cf' = cf /\ expansion cf = 0.
Proof.
  intros H Hrun. unfold Insert in Hrun.
  destruct (insertFp fuel cf (buildParams data)) as [[cf1 st]|] eqn:Hi;
    [|discriminate].
  simpl in Hrun.
  assert (Hst : st <> cuckooInserted)
    by (intros ->; injection Hrun as _ Hb; discriminate).
  destruct (insertFp_refused _ _ _ _ _ H Hi Hst) as (-> & -> & He).
  injection Hrun as <-. auto.
Qed.


(** X6: an [Insert] that returns true, in a well-formed filter that stays
    within 65535 generations, fills exactly one more slot: the number of
    occupied slots grows by one, [itemNum] by one ([uint64] arithmetic),
    and the filter stays well formed with at most one generation more. *)
Theorem Insert_true_fills_one_slot fuel cf data cf' :
  wf cf ->
  Insert MurmurHash64A fuel cf data = Ok (cf', true) ->
  Z.of_nat (length (filters cf')) <= 65535 ->
  wf cf' /\
  occupied cf' = occupied cf + 1 /\
  itemNum cf' = u64 (itemNum cf + 1) /\
  (length (filters cf) <= length (filters cf') <= S (length (filters cf)))%nat.
Proof.
  intros H Hrun Hlen. unfold Insert in Hrun.
  destruct (insertFp fuel cf (buildParams data)) as [[cf1 st]|] eqn:Hi;
    [|discriminate].
  simpl in Hrun.
  assert (Hfp : fp (buildParams data) <> nullFp) by apply paramsOfHash_keyed.
  injection Hrun as -> Hout.
  split; [exact (insertFp_wf _ _ _ _ _ H Hi Hlen)|].
  destruct (insertFp_cases _ _ _ _ _ H Hi Hlen)
    as [[_ Hscan]|[[_ (cf1 & Hev & ->)]|[[-> _]|[_ (cf2 & Hg & Hwf2 & Hscan)]]]].
  - destruct (insert_scan_occupied _ _ _ _ Hfp Hscan) as [Ho Hn].
    pose proof (insert_scan_bucketNums _ _ _ _ Hscan) as Hb.
    apply (f_equal length) in Hb. unfold bucketNums in Hb.
    rewrite !length_fmap in Hb. split_and!; try assumption; lia.
  - destruct (evictAndInsert_occupied _ _ _ H Hfp Hev) as [Ho Hn].
    pose proof (evictAndInsert_bucketNums _ _ _ _ Hev) as Hb.
    apply (f_equal length) in Hb. unfold bucketNums in Hb.
    rewrite !length_fmap in Hb.
    change (occupied (with_itemNum cf1 _)) with (occupied cf1).
    simpl. rewrite Hn. split_and!; try assumption; try reflexivity; lia.
  - discriminate.
  - destruct (grow_occupied _ _ Hg) as [Ho2 Hn2].
    destruct (insert_scan_occupied _ _ _ _ Hfp Hscan) as [Ho Hn].
    pose proof (insert_scan_bucketNums _ _ _ _ Hscan) as Hb.
    apply (f_equal length) in Hb. unfold bucketNums in Hb.
    rewrite !length_fmap in Hb.
    apply grow_Ok in Hg as [_ Hcf2].
    assert (Hl2 : length (filters cf2) = S (length (filters cf)))
      by (rewrite Hcf2; simpl; rewrite length_app; simpl; lia).
    split_and!; try lia. rewrite Hn, Hn2. reflexivity.
Qed.

End Inserting.

Lemma Insert_false_changes_nothing_witness :
  wf one_in_bucket1 /\
  Insert le_hash 2 one_in_bucket1 [x01] = Ok (one_in_bucket1, false) /\
  one_in_bucket1 = one_in_bucket1 /\ expansion one_in_bucket1 = 0.
Proof.
  assert (Hwf : wf one_in_bucket1)
    by (apply (bool_decide_unpack _); vm_compute; exact I).
  assert (Hrun : Insert le_hash 2 one_in_bucket1 [x01]
                 = Ok (one_in_bucket1, false)) by (vm_compute; reflexivity).
  split; [exact Hwf|]. split; [exact Hrun|].
  exact (Insert_false_changes_nothing le_hash 2 one_in_bucket1 [x01]
           one_in_bucket1 Hwf Hrun).
Defined.


Lemma Insert_true_fills_one_slot_witness :
  wf two_buckets /\
  Insert le_hash 2 two_buckets [x03; x01] = Ok (two_buckets_one, true) /\
  wf two_buckets_one /\
  occupied two_buckets_one = occupied two_buckets + 1 /\
  itemNum two_buckets_one = u64 (itemNum two_buckets + 1) /\
  (length (filters two_buckets) <= length (filters two_buckets_one)
   <= S (length (filters two_buckets)))%nat.
Proof.
  assert (Hwf : wf two_buckets)
    by (apply (bool_decide_unpack _); vm_compute; exact I).
  assert (Hrun : Insert le_hash 2 two_buckets [x03; x01]
                 = Ok (two_buckets_one, true))
    by (vm_compute; reflexivity).
  split; [exact Hwf|]. split; [exact Hrun|].
  apply (Insert_true_fills_one_slot le_hash 2 two_buckets [x03; x01] _ Hwf Hrun).
  vm_compute. discriminate.
Defined.

(** * Count *)

(** What [count] of a generation returns when a bucket has at most 32767
    slots: the occurrences in the two candidate buckets, which is positive
    exactly when [find] answers true. *)
Lemma sub_count_value bs s pr :
  wf_sub bs s -> 0 <= bs <= 32767 ->
  exists c found,
    sub_count s pr = Ok c /\ sub_find s pr = Ok found /\
    0 <= c <= 65534 /\ (found = true <-> 0 < c).
Proof.
  intros Hs Hbs.
  destruct (candidates _ _ pr Hs)
    as (p1 & p2 & b1 & b2 & H1 & H2 & H3 & H4 & _ & _ & Hl1 & Hl2).
  rewrite (sub_count_eq _ _ _ _ _ _ H1 H2 H3 H4).
  rewrite (sub_find_eq _ _ _ _ _ _ H1 H2 H3 H4).
  rewrite !bucket_count_occurrences by lia.
  pose proof (occurrences_range b1 (fp pr)) as Hr1.
  pose proof (occurrences_range b2 (fp pr)) as Hr2.
  rewrite u16_small by lia.
  eexists _, _. split; [reflexivity|]. split; [reflexivity|].
  split; [lia|].
  rewrite orb_true_iff, !bucket_find_true, <- !occurrences_pos. lia.
Qed.

Lemma count_scan_value bs fs pr :
  Forall (wf_sub bs) fs -> 0 <= bs <= 32767 ->
  forall res, 0 <= res -> res + 65534 * Z.of_nat (length fs) < 2 ^ 64 ->
  exists n found,
    count_scan fs pr res = Ok n /\ exist_scan fs pr = Ok found /\
    res <= n <= res + 65534 * Z.of_nat (length fs) /\
    (found = true <-> res < n).
Proof.
  intros Hfs Hbs. induction Hfs as [|s r Hs _ IH]; intros res Hres Hlt.
  - exists res, false. simpl. split_and!; try reflexivity; try lia.
  - simpl length in Hlt |- *. cbn [count_scan exist_scan].
    destruct (sub_count_value _ _ pr Hs Hbs) as (c & found & Hc & Hf & Hcr & Hiff).
    rewrite Hc, Hf. cbn [bind]. rewrite (u64_small c) by lia.
    rewrite u64_small by lia.
    destruct (IH (res + c) ltac:(lia) ltac:(lia)) as (n & found' & Hn & Hf' & Hnr & Hiff').
    rewrite Hn. destruct found.
    + assert (0 < c) by (apply Hiff; reflexivity).
      exists n, true.
      split; [reflexivity|]. split; [reflexivity|]. split; [lia|].
      split; [intros _; lia | reflexivity].
    + assert (c = 0).
      { destruct (decide (c = 0)); [assumption|].
        assert (false = true) by (apply Hiff; lia). discriminate. }
      subst c. rewrite Z.add_0_r in *.
      exists n, found'.
      split; [reflexivity|]. split; [exact Hf'|]. split; [lia|exact Hiff'].
Qed.

Section Counts.

Variable MurmurHash64A : list Byte.byte -> Z -> Z.

(** X7: in a well-formed filter with at most 32767 slots per bucket (so
    that the [uint16] sum of the two bucket counts does not wrap) [Count]
    of a key is positive exactly when [Exist] of the key is true; it is at
    most 65534 per generation. *)
Theorem Count_positive_iff_Exist cf data :
  wf cf -> bucketSize cf <= 32767 ->
  Z.of_nat (length (filters cf)) < 2 ^ 47 ->
  exists n found,
    Count MurmurHash64A cf data = Ok (cf, n) /\
    Exist MurmurHash64A cf data = Ok (cf, found) /\
    (found = true <-> 0 < n) /\
    0 <= n <= 65534 * Z.of_nat (length (filters cf)).
Proof.
  intros H Hbs Hlen. pose proof H as H'. wf_split H'.
  destruct (count_scan_value _ _ (buildParams MurmurHash64A data) Hfs
              ltac:(lia) 0 ltac:(lia) ltac:(lia))
    as (n & found & Hn & Hf & Hr & Hiff).
  exists n, found. unfold Count, Exist, existFp. rewrite Hn, Hf.
  split; [reflexivity|]. split; [reflexivity|]. split; [exact Hiff|lia].
Qed.

End Counts.

Lemma Count_positive_iff_Exist_witness :
  wf two_filters /\
  exists n found,
    Count le_hash two_filters [x01] = Ok (two_filters, n) /\
    Exist le_hash two_filters [x01] = Ok (two_filters, found) /\
    (found = true <-> 0 < n) /\
    0 <= n <= 65534 * Z.of_nat (length (filters two_filters)).
Proof.
  assert (Hwf : wf two_filters)
    by (apply (bool_decide_unpack _); vm_compute; exact I).
  split; [exact Hwf|].
  apply (Count_positive_iff_Exist le_hash two_filters [x01] Hwf);
    vm_compute; congruence.
Defined.

(** X8: when the fingerprint of a key is a multiple of the bucket count
    of a generation (always so for one bucket, for even fingerprints with
    two buckets), the two candidate buckets of the key are the same bucket
    and [count] adds the count of that bucket to itself: it returns twice
    the number of slots that hold the fingerprint, in [uint16] arithmetic,
    which is twice that number itself in buckets of at most 32767 slots. *)
Theorem sub_count_counts_twice bs s pr :
  wf_sub bs s -> sBucketNum s <= 2 ^ 32 -> bs < 2 ^ 16 ->
  keyed pr -> fp pr mod sBucketNum s = 0 ->
  exists b,
    bucketIndex s (h1 pr) = bucketIndex s (h2 pr) /\
    buckets s !! Z.to_nat (u64 (h1 pr) mod sBucketNum s) = Some b /\
    sub_count s pr = Ok (u16 (2 * occurrences b (fp pr))) /\
    (bs <= 32767 -> sub_count s pr = Ok (2 * occurrences b (fp pr))).
Proof.
  intros Hs Hle Hbs [Hh2 Hfp] Hdiv.
  destruct (wf_sub_shape _ _ Hs) as (k & Hk & Hbn & Hsh).
  pose proof (wf_sub_bn_pos _ _ Hs) as Hpos.
  assert (Hbn32 : 0 < sBucketNum s <= 2 ^ 32) by lia.
  assert (Hp1 : 0 <= u64 (h1 pr) mod 2 ^ k < 2 ^ k)
    by (apply Z.mod_pos_bound; lia).
  (* the alternate of the first candidate is the first candidate *)
  assert (Hsame : u64 (h2 pr) mod 2 ^ k = u64 (h1 pr) mod 2 ^ k).
  { destruct (cand_pair k pr Hk Hh2) as [-> _].
    rewrite alt_index_eq by assumption.
    assert (Hz : u64 (fp pr * 1540483477) mod 2 ^ k = 0).
    { unfold u64, wrap. rewrite mod_mod_pow2 by lia.
      rewrite <- Z.mul_mod_idemp_l by lia. rewrite <- Hbn, Hdiv.
      reflexivity. }
    rewrite Hz. apply Z.lxor_0_r. }
  pose proof (bucketIndex_small s (h1 pr) Hbn32) as H1.
  pose proof (bucketIndex_small s (h2 pr) Hbn32) as H2.
  rewrite Hbn in *. rewrite Hsame in H2.
  destruct (shape_lookup _ _ _ _ Hsh Hp1) as (b & Hb & Hbl).
  exists b. split; [congruence|]. split; [exact Hb|].
  rewrite (sub_count_eq _ _ _ _ _ _ H1 H2 Hb Hb).
  rewrite bucket_count_occurrences by lia.
  pose proof (occurrences_range b (fp pr)) as Hr.
  replace (occurrences b (fp pr) + occurrences b (fp pr))
    with (2 * occurrences b (fp pr)) by lia.
  split; [reflexivity|].
  intros Hsmall. rewrite u16_small by lia. reflexivity.
Qed.

Lemma sub_count_counts_twice_witness :
  exists b,
    bucketIndex gen_low (h1 pr_low) = bucketIndex gen_low (h2 pr_low) /\
    buckets gen_low !! Z.to_nat (u64 (h1 pr_low) mod sBucketNum gen_low) = Some b /\
    sub_count gen_low pr_low = Ok (u16 (2 * occurrences b (fp pr_low))) /\
    (1 <= 32767 -> sub_count gen_low pr_low = Ok (2 * occurrences b (fp pr_low))).
Proof.
  apply (sub_count_counts_twice 1 gen_low pr_low).
  - apply (bool_decide_unpack _). vm_compute. exact I.
  - vm_compute. discriminate.
  - lia.
  - split; [reflexivity | discriminate].
  - reflexivity.
Defined.

(** * Compaction returns *)

Lemma bucketNums_lookup cf cf' i s :
  bucketNums cf' = bucketNums cf -> filters cf !! i = Some s ->
  exists s', filters cf' !! i = Some s' /\ sBucketNum s' = sBucketNum s.
Proof.
  intros Hb Hs.
  assert (Hl : bucketNums cf' !! i = Some (sBucketNum s)).
  { rewrite Hb. unfold bucketNums. rewrite list_lookup_fmap, Hs. reflexivity. }
  unfold bucketNums in Hl. rewrite list_lookup_fmap in Hl.
  destruct (filters cf' !! i) as [s'|]; [|discriminate].
  injection Hl as Hl. eauto.
Qed.

Lemma bucketNums_length cf cf' :
  bucketNums cf' = bucketNums cf -> length (filters cf') = length (filters cf).
Proof.
  intros Hb. apply (f_equal length) in Hb. unfold bucketNums in Hb.
  rewrite !length_fmap in Hb. exact Hb.
Qed.

Lemma sub_findAvailableSlot_total bs s pr :
  wf_sub bs s -> exists r, sub_findAvailableSlot s pr = Ok r.
Proof.
  intros Hs.
  destruct (candidates _ _ pr Hs)
    as (p1 & p2 & b1 & b2 & H1 & H2 & H3 & H4 & _).
  unfold sub_findAvailableSlot, idx. rewrite H1, H2. cbn [bind].
  rewrite H3. cbn [bind].
  destruct (bucket_findAvailableSlot b1); [eauto|].
  rewrite H4. cbn [bind].
  destruct (bucket_findAvailableSlot b2); eauto.
Qed.

Lemma relocate_into_total fi pr bIx sIx n :
  forall i cf,
    wf cf -> 0 <= i -> i + Z.of_nat n <= Z.of_nat fi ->
    (fi < length (filters cf))%nat ->
    exists r, relocate_into n i cf pr (Z.of_nat fi) bIx sIx = Ok r.
Proof.
  induction n as [|n IH]; intros i cf H Hi Hin Hfi; [simpl; eauto|].
  cbn [relocate_into].
  destruct (lookup_lt_is_Some_2 (filters cf) (Z.to_nat i)) as [s Hs]; [lia|].
  unfold idx at 1. rewrite Hs. cbn [bind].
  destruct (sub_findAvailableSlot_total _ _ pr (wf_lookup _ _ _ H Hs))
    as (r & Hr).
  rewrite Hr. cbn [bind]. destruct r as [[p j]|].
  - destruct (lookup_lt_is_Some_2
                (<[Z.to_nat i := set_slot s p j (fp pr)]> (filters cf)) fi)
      as [cur Hcur]; [rewrite length_insert; lia|].
    unfold idx. rewrite Nat2Z.id, Hcur. cbn [bind]. eauto.
  - apply IH; try assumption; lia.
Qed.

Lemma relocateSlot_total fi cf cur bIx sIx :
  wf cf -> filters cf !! fi = Some cur ->
  0 <= bIx < sBucketNum cur -> 0 <= sIx < bucketSize cf ->
  exists r, relocateSlot cf (Z.of_nat fi) bIx sIx = Ok r.
Proof.
  intros H Hcur HbI HsI. unfold relocateSlot.
  pose proof (wf_lookup _ _ _ H Hcur) as Hsub.
  destruct (wf_sub_lookup _ _ _ Hsub HbI) as (b & Hb & Hbl).
  destruct (lookup_lt_is_Some_2 b (Z.to_nat sIx)) as [v Hv]; [lia|].
  unfold idx. rewrite Nat2Z.id, Hcur. cbn [bind]. rewrite Hb. cbn [bind].
  rewrite Hv. cbn [bind].
  destruct (v =? nullFp); [eauto|].
  apply relocate_into_total; try assumption; try lia.
  apply lookup_lt_is_Some. eauto.
Qed.

Lemma compact_slots_total fi bIx n :
  forall sIx cf cur rv,
    wf cf -> filters cf !! fi = Some cur ->
    0 <= bIx < sBucketNum cur -> 0 <= sIx ->
    sIx + Z.of_nat n <= bucketSize cf ->
    exists r, compact_slots n sIx cf (Z.of_nat fi) bIx rv = Ok r.
Proof.
  induction n as [|n IH]; intros sIx cf cur rv H Hcur HbI HsI Hn;
    [simpl; eauto|].
  cbn [compact_slots].
  assert (HsI' : 0 <= sIx < bucketSize cf) by lia.
  assert (HbI0 : 0 <= bIx) by lia.
  destruct (relocateSlot_total fi cf cur bIx sIx H Hcur HbI HsI')
    as ([cf1 r] & Hrel).
  rewrite Hrel. cbn [bind].
  destruct (relocateSlot_moved _ _ _ _ _ _ H HbI0 HsI Hrel)
    as [(Hwf1 & E1 & B1 & _) _].
  destruct (bucketNums_lookup _ _ _ _ B1 Hcur) as (cur1 & Hcur1 & Hnum).
  apply (IH _ _ cur1); try assumption; try lia.
  rewrite E1. simpl. lia.
Qed.

Lemma compact_buckets_total fi ns n :
  forall bIx cf cur rv,
    wf cf -> filters cf !! fi = Some cur ->
    0 <= bIx -> bIx + Z.of_nat n <= sBucketNum cur ->
    Z.of_nat ns <= bucketSize cf ->
    exists r, compact_buckets n bIx ns cf (Z.of_nat fi) rv = Ok r.
Proof.
  induction n as [|n IH]; intros bIx cf cur rv H Hcur HbI Hn Hns;
    [simpl; eauto|].
  cbn [compact_buckets].
  assert (HbI' : 0 <= bIx < sBucketNum cur) by lia.
  assert (H00 : 0 <= 0) by lia.
  assert (Hns' : 0 + Z.of_nat ns <= bucketSize cf) by lia.
  destruct (compact_slots_total fi bIx ns 0 cf cur rv H Hcur HbI' H00 Hns')
    as ([cf1 rv1] & Hs).
  rewrite Hs. cbn [bind].
  destruct (compact_slots_moved _ _ _ _ _ _ _ _ H HbI H00 Hs)
    as [(Hwf1 & E1 & B1 & _) _].
  destruct (bucketNums_lookup _ _ _ _ B1 Hcur) as (cur1 & Hcur1 & Hnum).
  apply (IH _ _ cur1); try assumption; try lia.
  rewrite E1. simpl. lia.
Qed.

Lemma compactSingle_total fi cf :
  wf cf -> limits cf -> (fi < length (filters cf))%nat ->
  exists r, compactSingle cf (Z.of_nat fi) = Ok r.
Proof.
  intros H Hlim Hfi. unfold compactSingle.
  destruct (lookup_lt_is_Some_2 (filters cf) fi Hfi) as [cur Hcur].
  unfold idx. rewrite Nat2Z.id, Hcur. cbn [bind].
  pose proof (wf_lookup _ _ _ H Hcur) as Hsub.
  pose proof (wf_sub_bn_pos _ _ Hsub) as Hpos.
  assert (Hbn32 : sBucketNum cur <= 2 ^ 32).
  { destruct Hlim as [_ Hsm]. unfold bucketNums in Hsm.
    rewrite Forall_fmap, Forall_lookup in Hsm. exact (Hsm _ _ Hcur). }
  assert (Hsz : sBucketSize cur = bucketSize cf) by (destruct Hsub; assumption).
  pose proof H as H'. wf_split H'.
  rewrite int_of_u64_small by lia.
  destruct (compact_buckets_total fi (Z.to_nat (sBucketSize cur))
              (Z.to_nat (sBucketNum cur)) 0 cf cur relocOk H Hcur)
    as ([cf1 rv] & Hb); try lia.
  rewrite Hb. cbn [bind]. destruct (_ && _); eauto.
Qed.

Lemma compact_from_total n :
  forall cf cont,
    wf cf -> limits cf -> (n < length (filters cf))%nat ->
    exists cf', compact_from n cf cont = Ok cf'.
Proof.
  induction n as [|n IH]; intros cf cont H Hlim Hn; [simpl; eauto|].
  cbn [compact_from].
  destruct (compactSingle_total (S n) cf H Hlim Hn) as ([cf1 rv] & Hs).
  rewrite Hs. cbn [bind].
  destruct ((rv =? relocFail) && negb cont); [eauto|].
  assert (H1n : (1 <= S n)%nat) by lia.
  destruct (compactSingle_keeps _ _ _ _ H Hlim H1n Hs)
    as (Hwf1 & Hlim1 & _ & _).
  apply IH; try assumption.
  (* the list is cut after generation [S n] at most *)
  unfold compactSingle in Hs.
  destruct (idx (filters cf) (Z.of_nat (S n))) as [cur|]; [|discriminate].
  cbn [bind] in Hs.
  destruct (compact_buckets _ 0 _ cf (Z.of_nat (S n)) relocOk)
    as [[cf2 rv2]|] eqn:Hb; [|discriminate].
  cbn [bind] in Hs.
  assert (H00 : 0 <= 0) by lia.
  destruct (compact_buckets_moved _ _ _ _ _ _ _ _ H H00 Hb)
    as [(Hwf2 & _ & B2 & _) _].
  pose proof (bucketNums_length _ _ B2) as Hl2.
  destruct ((rv2 =? relocOk) && (Z.of_nat (S n) =? u16 (filterNum cf2 - 1)))
    eqn:Hpop.
  - injection Hs as <- _. simpl. rewrite length_take.
    apply andb_true_iff in Hpop as [_ Hlast]. apply Z.eqb_eq in Hlast.
    rewrite <- Hlast. lia.
  - injection Hs as <- _. lia.
Qed.

(** [compact] returns, within the limits. *)
Lemma compact_total cf cont :
  wf cf -> limits cf -> exists cf', compact cf cont = Ok cf'.
Proof.
  intros H Hlim. unfold compact.
  destruct (wf_filterNum cf H (proj1 Hlim)) as [Hfeq Hfr].
  destruct (compact_from_total (Z.to_nat (u16 (filterNum cf - 1))) cf cont
              H Hlim) as (cf1 & Hc).
  - rewrite u16_small by lia. lia.
  - rewrite Hc. cbn [bind]. eauto.
Qed.

(** Compaction keeps the generations or cuts the list of them short. *)
Lemma compactSingle_bucketNums fi cf cf' rv :
  wf cf -> compactSingle cf (Z.of_nat fi) = Ok (cf', rv) ->
  bucketNums cf' `prefix_of` bucketNums cf.
Proof.
  intros H Hs. unfold compactSingle in Hs.
  destruct (idx (filters cf) (Z.of_nat fi)) as [cur|]; [|discriminate].
  cbn [bind] in Hs.
  destruct (compact_buckets _ 0 _ cf (Z.of_nat fi) relocOk)
    as [[cf2 rv2]|] eqn:Hb; [|discriminate].
  cbn [bind] in Hs.
  assert (H00 : 0 <= 0) by lia.
  destruct (compact_buckets_moved _ _ _ _ _ _ _ _ H H00 Hb)
    as [(_ & _ & B2 & _) _].
  destruct (_ && _).
  - injection Hs as <- _. unfold bucketNums in *. simpl.
    rewrite fmap_take, B2. apply prefix_take.
  - injection Hs as <- _. rewrite B2. done.
Qed.

Lemma compact_from_bucketNums n :
  forall cf cont cf',
    wf cf -> limits cf -> compact_from n cf cont = Ok cf' ->
    bucketNums cf' `prefix_of` bucketNums cf.
Proof.
  induction n as [|n IH]; intros cf cont cf' H Hlim Hrun.
  - injection Hrun as <-. done.
  - cbn [compact_from] in Hrun.
    destruct (compactSingle cf (Z.of_nat (S n))) as [[cf1 rv]|] eqn:Hs;
      [|discriminate].
    cbn [bind] in Hrun.
    pose proof (compactSingle_bucketNums _ _ _ _ H Hs) as Hp1.
    assert (H1n : (1 <= S n)%nat) by lia.
    destruct (compactSingle_keeps _ _ _ _ H Hlim H1n Hs)
      as (Hwf1 & Hlim1 & _ & _).
    destruct ((rv =? relocFail) && negb cont).
    + injection Hrun as <-. exact Hp1.
    + etrans; [exact (IH _ _ _ Hwf1 Hlim1 Hrun) | exact Hp1].
Qed.

Lemma compact_bucketNums cf cont cf' :
  wf cf -> limits cf -> compact cf cont = Ok cf' ->
  bucketNums cf' `prefix_of` bucketNums cf.
Proof.
  intros H Hlim Hrun. unfold compact in Hrun.
  destruct (compact_from _ cf cont) as [cf1|] eqn:Hc; [|discriminate].
  cbn [bind] in Hrun. injection Hrun as <-.
  exact (compact_from_bucketNums _ _ _ _ H Hlim Hc).
Qed.

(** X9: within the limits [compact] returns; it leaves the filter well
    formed and within the limits, with the same number of occupied slots
    and the same [itemNum], [deleteNum] at 0, and the list of bucket counts
    of the generations a prefix of what it was (generations are only cut
    off at the end). *)
Theorem compact_returns_and_keeps_count cf cont :
  wf cf -> limits cf ->
  exists cf',
    compact cf cont = Ok cf' /\
    wf cf' /\ limits cf' /\
    occupied cf' = occupied cf /\
    itemNum cf' = itemNum cf /\
    deleteNum cf' = 0 /\
    bucketNums cf' `prefix_of` bucketNums cf.
Proof.
  intros H Hlim. destruct (compact_total cf cont H Hlim) as (cf' & Hrun).
  exists cf'. split; [exact Hrun|].
  destruct (compact_keeps _ _ _ H Hlim Hrun) as (Hwf' & Hlim' & Ho & Hi).
  split_and!; try assumption.
  - unfold compact in Hrun. destruct (compact_from _ _ _); [|discriminate].
    injection Hrun as <-. reflexivity.
  - exact (compact_bucketNums _ _ _ H Hlim Hrun).
Qed.

Lemma compact_returns_and_keeps_count_witness :
  wf two_filters_after /\ limits two_filters_after /\
  exists cf',
    compact two_filters_after false = Ok cf' /\
    wf cf' /\ limits cf' /\
    occupied cf' = occupied two_filters_after /\
    itemNum cf' = itemNum two_filters_after /\
    deleteNum cf' = 0 /\
    bucketNums cf' `prefix_of` bucketNums two_filters_after.
Proof.
  assert (Hwf : wf two_filters_after)
    by (apply (bool_decide_unpack _); vm_compute; exact I).
  assert (Hlim : limits two_filters_after)
    by (apply (bool_decide_unpack _); vm_compute; exact I).
  split; [exact Hwf|]. split; [exact Hlim|].
  exact (compact_returns_and_keeps_count two_filters_after false Hwf Hlim).
Defined.

(** * Deleting a key that is there *)

Lemma bucket_delete_present (b : bucket) f :
  bucket_find b f = true -> exists b', bucket_delete b f = (b', true).
Proof.
  induction b as [|v r IH]; simpl; [discriminate|].
  destruct (v =? f); simpl; [eauto|].
  intros H. destruct (IH H) as (r' & ->). eauto.
Qed.

Lemma sub_delete_present s pr :
  sub_find s pr = Ok true -> exists s', sub_delete s pr = Ok (s', true).
Proof.
  unfold sub_find, sub_delete. intros H.
  destruct (bucketIndex s (h1 pr)) as [p1|]; [|discriminate]. cbn [bind] in *.
  destruct (bucketIndex s (h2 pr)) as [p2|]; [|discriminate]. cbn [bind] in *.
  destruct (idx (buckets s) p1) as [b1|]; [|discriminate]. cbn [bind] in *.
  destruct (bucket_find b1 (fp pr)) eqn:Hf1.
  - destruct (bucket_delete_present _ _ Hf1) as (b1' & ->). eauto.
  - rewrite (bucket_delete_absent _ _ Hf1).
    destruct (idx (buckets s) p2) as [b2|]; [|discriminate]. cbn [bind] in *.
    injection H as Hf2.
    destruct (bucket_delete_present _ _ Hf2) as (b2' & ->). eauto.
Qed.

Lemma sub_find_total bs s pr : wf_sub bs s -> exists b, sub_find s pr = Ok b.
Proof.
  intros Hs.
  destruct (candidates _ _ pr Hs)
    as (p1 & p2 & b1 & b2 & H1 & H2 & H3 & H4 & _).
  rewrite (sub_find_eq _ _ _ _ _ _ H1 H2 H3 H4). eauto.
Qed.

Section Deleting.

Variable MurmurHash64A : list Byte.byte -> Z -> Z.
Variable over_tenth : Z -> Z -> bool.

Lemma delete_scan_found n cf pr :
  wf cf -> limits cf -> fp pr <> nullFp ->
  (n <= length (filters cf))%nat ->
  (exists (i : nat) s, (i < n)%nat /\ filters cf !! i = Some s /\
                       sub_find s pr = Ok true) ->
  exists cf',
    delete_scan over_tenth n cf pr = Ok (cf', true) /\
    wf cf' /\ limits cf' /\
    occupied cf' = occupied cf - 1 /\
    itemNum cf' = u64 (itemNum cf - 1) /\
    bucketNums cf' `prefix_of` bucketNums cf.
Proof.
  intros H Hlim Hfp. induction n as [|n IH]; intros Hn (i & s0 & Hi & Hs0 & Hf0);
    [lia|].
  cbn [delete_scan].
  destruct (lookup_lt_is_Some_2 (filters cf) n) as [s Hs]; [lia|].
  unfold idx. rewrite Nat2Z.id, Hs. cbn [bind].
  destruct (sub_find_total _ _ pr (wf_lookup _ _ _ H Hs)) as ([|] & Hfind).
  - destruct (sub_delete_present _ _ Hfind) as (s' & Hdel).
    rewrite Hdel. cbn [bind].
    destruct (sub_delete_found _ _ _ _ (wf_lookup _ _ _ H Hs) Hfp Hdel)
      as (Hs' & Hnum & Hocc).
    set (cf1 := with_deleteNum
                  (with_itemNum (with_filters cf (<[n := s']> (filters cf)))
                                (u64 (itemNum cf - 1)))
                  (u64 (deleteNum cf + 1))) in *.
    assert (Hwf1 : wf cf1) by (apply (wf_update cf n s' H Hs')).
    assert (Hb1 : bucketNums cf1 = bucketNums cf)
      by (apply (bucketNums_update cf n s s' Hs Hnum)).
    assert (Hlim1 : limits cf1).
    { destruct Hlim as [Hlen Hsm]. unfold limits. rewrite Hb1.
      split; [|exact Hsm]. simpl. rewrite length_insert. exact Hlen. }
    assert (Ho1 : occupied cf1 = occupied cf - 1).
    { change (occupied cf1)
        with (occupied (with_filters cf (<[n := s']> (filters cf)))).
      rewrite (occupied_update _ _ _ _ Hs). lia. }
    destruct ((1 <? filterNum cf1) && over_tenth (deleteNum cf1) (itemNum cf1)).
    + destruct (compact_total cf1 false Hwf1 Hlim1) as (cf2 & Hc).
      rewrite Hc. cbn [bind]. exists cf2. split; [reflexivity|].
      destruct (compact_keeps _ _ _ Hwf1 Hlim1 Hc) as (Hwf2 & Hlim2 & Ho2 & Hi2).
      split_and!; try assumption; try congruence.
      rewrite <- Hb1. exact (compact_bucketNums _ _ _ Hwf1 Hlim1 Hc).
    + exists cf1. split_and!; try assumption; try reflexivity.
      rewrite Hb1. done.
  - rewrite (sub_delete_absent _ _ Hfind). cbn [bind].
    apply IH; [lia|]. exists i, s0. split; [|auto].
    destruct (decide (i = n)) as [->|]; [|lia]. congruence.
Qed.

(** X10: within the limits, [Delete] of a key that [Exist] reports
    returns true; one occupied slot fewer is left, [itemNum] is one less
    ([uint64] arithmetic), and the filter stays well formed and within the
    limits, whether or not the call compacts. *)
Theorem Delete_present_key cf data :
  wf cf -> limits cf ->
  Exist MurmurHash64A cf data = Ok (cf, true) ->
  exists cf',
    Delete MurmurHash64A over_tenth cf data = Ok (cf', true) /\
    wf cf' /\ limits cf' /\
    occupied cf' = occupied cf - 1 /\
    itemNum cf' = u64 (itemNum cf - 1) /\
    bucketNums cf' `prefix_of` bucketNums cf.
Proof.
  intros H Hlim Hex. set (pr := buildParams MurmurHash64A data).
  assert (Hfp : fp pr <> nullFp) by apply paramsOfHash_keyed.
  unfold Exist in Hex. fold pr in Hex.
  destruct (existFp cf pr) as [[|]|] eqn:He; try discriminate.
  apply (existFp_true cf pr H) in He as (s & Hin & Hh).
  apply list_elem_of_lookup in Hin as (i & Hi).
  pose proof (holds_sub_find _ _ _ (wf_lookup _ _ _ H Hi) Hh) as Hfind.
  destruct (wf_filterNum cf H (proj1 Hlim)) as [Hfeq Hfr].
  unfold Delete. fold pr. apply delete_scan_found; try assumption; [lia|].
  exists i, s. split; [|auto].
  pose proof (lookup_lt_Some _ _ _ Hi). lia.
Qed.

End Deleting.

Lemma Delete_present_key_witness :
  wf two_filters_after /\ limits two_filters_after /\
  Exist le_hash two_filters_after [x03] = Ok (two_filters_after, true) /\
  exists cf',
    Delete le_hash tenth two_filters_after [x03] = Ok (cf', true) /\
    wf cf' /\ limits cf' /\
    occupied cf' = occupied two_filters_after - 1 /\
    itemNum cf' = u64 (itemNum two_filters_after - 1) /\
    bucketNums cf' `prefix_of` bucketNums two_filters_after.
Proof.
  assert (Hwf : wf two_filters_after)
    by (apply (bool_decide_unpack _); vm_compute; exact I).
  assert (Hlim : limits two_filters_after)
    by (apply (bool_decide_unpack _); vm_compute; exact I).
  assert (Hex : Exist le_hash two_filters_after [x03]
                = Ok (two_filters_after, true)) by (vm_compute; reflexivity).
  split; [exact Hwf|]. split; [exact Hlim|]. split; [exact Hex|].
  exact (Delete_present_key le_hash tenth two_filters_after [x03] Hwf Hlim Hex).
Defined.

(** * Estimates of the count-min sketch *)

Module CountMinSketchEstimates.
Import CountMinSketch.

Section Estimates.

Variable uintBits : Z.
Variable MurmurHash64A : list Byte.byte -> Z -> Z.
Hypothesis uintBits_nonneg : 0 <= uintBits.

Abbreviation uint := (uint uintBits).
Abbreviation MaxUint := (MaxUint uintBits).
Abbreviation cell := (cell uintBits MurmurHash64A).
Abbreviation sat_add := (sat_add uintBits).
Abbreviation IncrBy := (IncrBy uintBits MurmurHash64A).
Abbreviation Query := (Query uintBits MurmurHash64A).
Abbreviation query_rows := (query_rows uintBits MurmurHash64A).
Abbreviation wf_cms := (wf_cms uintBits).

Lemma MaxUint_nonneg : 0 <= MaxUint.
Proof.
  unfold CountMinSketch.MaxUint.
  pose proof (Z.pow_pos_nonneg 2 uintBits ltac:(lia) uintBits_nonneg). lia.
Qed.

(** The loop of [Query] returns on rows of [w] cells. *)
Lemma query_rows_total w rows k :
  0 < w ->
  Forall (fun row : list Z => Z.of_nat (length row) = w) rows ->
  forall i m0, exists m, query_rows w rows i k m0 = Ok m.
Proof.
  intros Hw. induction 1 as [|row rest Hl _ IH]; intros i m0; simpl.
  - eauto.
  - assert (Hne : (w =? 0) = false) by (apply Z.eqb_neq; lia).
    unfold umod. rewrite Hne. cbn [bind].
    pose proof (CountMinSketchFacts.cell_lt uintBits MurmurHash64A w k i row Hw Hl)
      as Hlt.
    destruct (lookup_lt_is_Some_2 row _ Hlt) as [c Hc].
    unfold idx. fold (cell w k i). rewrite Hc. cbn [bind]. apply IH.
Qed.

(** A relation between the cells of a key in two sketches, kept by [min],
    holds between the two estimates. *)
Lemma query_rows_rel (R : Z -> Z -> Prop) w k :
  (forall a b c c', R a b -> R c c' -> R (Z.min a c) (Z.min b c')) ->
  forall rows rows' i m0 m0' x y,
    (forall (j : nat) row row' c c',
        rows !! j = Some row -> rows' !! j = Some row' ->
        row !! cell w k (i + Z.of_nat j) = Some c ->
        row' !! cell w k (i + Z.of_nat j) = Some c' -> R c c') ->
    R m0 m0' ->
    query_rows w rows i k m0 = Ok x ->
    query_rows w rows' i k m0' = Ok y ->
    length rows = length rows' ->
    R x y.
Proof.
  intros Hmin. induction rows as [|row rest IH];
    intros [|row' rest'] i m0 m0' x y Hcells Hm Hx Hy Hlen;
    try discriminate Hlen.
  - injection Hx as <-. injection Hy as <-. exact Hm.
  - simpl in Hx, Hy. inv_ok Hx. inv_ok Hy.
    apply umod_Ok in E as [_ ->]. apply umod_Ok in E1 as [_ ->].
    apply idx_Ok in E0, E2. fold (cell w k i) in E0, E2.
    eapply (IH rest' (i + 1)); [ | | exact Hx | exact Hy | ].
    + intros j r r' c c' Hr Hr' Hc Hc'.
      replace (i + 1 + Z.of_nat j) with (i + Z.of_nat (S j)) in Hc, Hc' by lia.
      exact (Hcells (S j) r r' c c' Hr Hr' Hc Hc').
    + apply Hmin; [exact Hm|].
      apply (Hcells O row row'); try reflexivity;
        rewrite Z.add_0_r; assumption.
    + simpl in Hlen. lia.
Qed.

(** What one [IncrBy] does to the cells of any key [k]. *)
Lemma IncrBy_cells cms data val :
  wf_cms cms -> 0 <= val < 2 ^ uintBits ->
  exists cms' m,
    IncrBy cms data val = Ok (cms', m) /\
    wf_cms cms' /\
    width cms' = width cms /\
    length (cells cms') = length (cells cms) /\
    counter cms' = uint (counter cms + val) /\
    Query cms' data = Ok m /\
    forall (j : nat) row row' k c c',
      cells cms !! j = Some row -> cells cms' !! j = Some row' ->
      row !! cell (width cms) k (Z.of_nat j) = Some c ->
      row' !! cell (width cms) k (Z.of_nat j) = Some c' ->
      (cell (width cms) k (Z.of_nat j) = cell (width cms) data (Z.of_nat j) /\
       c' = sat_add c val) \/
      (cell (width cms) k (Z.of_nat j) <> cell (width cms) data (Z.of_nat j) /\
       c' = c).
Proof.
  intros [Hw Hrows] Hval.
  destruct (CountMinSketchFacts.incr_rows_spec uintBits MurmurHash64A
              uintBits_nonneg (width cms) (cells cms) data val Hw Hval Hrows
              0 MaxUint)
    as (rows' & m & Hrun & Hlen & Hcells & Hq).
  exists (mkCMS (width cms) (depth cms) (uint (counter cms + val)) rows'), m.
  split_and!; try done.
  - unfold CountMinSketch.IncrBy. rewrite Hrun. reflexivity.
  - split; [exact Hw|]. simpl. apply Forall_lookup. intros j row' Hj.
    destruct (lookup_lt_is_Some_2 (cells cms) j) as [row Hrow].
    { rewrite <- Hlen. apply lookup_lt_is_Some. eauto. }
    destruct (Hcells j row Hrow) as (c & Hc & Hrow').
    rewrite Hrow' in Hj. injection Hj as <-.
    rewrite Forall_lookup in Hrows. destruct (Hrows j row Hrow) as [Hl Hr].
    split; [rewrite length_insert; exact Hl|].
    apply Forall_insert; [exact Hr|].
    rewrite Forall_lookup in Hr. pose proof (Hr _ _ Hc) as Hcr.
    pose proof MaxUint_nonneg.
    unfold CountMinSketch.sat_add, CountMinSketch.MaxUint in *. lia.
  - intros j row row' k c c' Hrow Hrow' Hc Hc'.
    destruct (Hcells j row Hrow) as (c0 & Hc0 & Hr').
    change (0 + Z.of_nat j) with (Z.of_nat j) in *.
    simpl in Hrow'. rewrite Hr' in Hrow'. injection Hrow' as <-.
    destruct (decide (cell (width cms) k (Z.of_nat j)
                      = cell (width cms) data (Z.of_nat j))) as [He|Hne].
    + left. split; [exact He|]. rewrite He in Hc, Hc'.
      rewrite list_lookup_insert_eq in Hc'
        by (apply lookup_lt_is_Some; eauto).
      congruence.
    + right. split; [exact Hne|].
      rewrite list_lookup_insert_ne in Hc' by congruence. congruence.
Qed.

Lemma wf_cms_cell cms (j : nat) row k c :
  wf_cms cms -> cells cms !! j = Some row ->
  row !! cell (width cms) k (Z.of_nat j) = Some c ->
  0 <= c <= MaxUint.
Proof.
  intros [_ Hrows] Hrow Hc. rewrite Forall_lookup in Hrows.
  destruct (Hrows j row Hrow) as [_ Hr]. rewrite Forall_lookup in Hr.
  pose proof (Hr _ _ Hc). unfold CountMinSketch.MaxUint. lia.
Qed.

Lemma Query_total cms k : wf_cms cms -> exists m, Query cms k = Ok m.
Proof.
  intros [Hw Hrows]. apply query_rows_total; [exact Hw|].
  rewrite Forall_forall in Hrows |- *. intros row Hin.
  exact (proj1 (Hrows row Hin)).
Qed.

(** X11: in a sketch whose rows have [width] cells, [IncrBy] returns the
    estimate [Query] gave for the key before the call plus the amount,
    saturating at the largest [uint]; the estimate of any other key does
    not drop and rises by at most the amount. *)
Theorem IncrBy_raises_estimates cms data val :
  wf_cms cms -> 0 <= val < 2 ^ uintBits ->
  exists cms' a,
    Query cms data = Ok a /\
    IncrBy cms data val = Ok (cms', sat_add a val) /\
    wf_cms cms' /\
    forall k, exists x y,
      Query cms k = Ok x /\ Query cms' k = Ok y /\
      x <= y <= sat_add x val.
Proof.
  intros Hwf Hval.
  destruct (IncrBy_cells cms data val Hwf Hval)
    as (cms' & m & Hrun & Hwf' & Hwd & Hlen & _ & Hq & Hcells).
  destruct (Query_total cms data Hwf) as (a & Ha).
  pose proof MaxUint_nonneg as HM.
  exists cms', a. split; [exact Ha|].
  assert (Hm : m = sat_add a val).
  { apply (query_rows_rel (fun c c' => c' = sat_add c val) (width cms) data)
      with (rows := cells cms) (rows' := cells cms') (i := 0)
           (m0 := MaxUint) (m0' := MaxUint).
    - intros a0 b c c' -> ->. unfold CountMinSketch.sat_add. lia.
    - intros j row row' c c' Hrow Hrow' Hc Hc'.
      change (0 + Z.of_nat j) with (Z.of_nat j) in *.
      destruct (Hcells j row row' data c c' Hrow Hrow' Hc Hc')
        as [[_ ->]|[Hne _]]; [reflexivity|contradiction].
    - unfold CountMinSketch.sat_add. lia.
    - exact Ha.
    - unfold CountMinSketch.Query in Hq. rewrite Hwd in Hq. exact Hq.
    - symmetry. exact Hlen. }
  split; [rewrite <- Hm; exact Hrun|]. split; [exact Hwf'|].
  intros k.
  destruct (Query_total cms k Hwf) as (x & Hx).
  destruct (Query_total cms' k Hwf') as (y & Hy).
  exists x, y. split; [exact Hx|]. split; [exact Hy|].
  apply (query_rows_rel (fun c c' => 0 <= c <= MaxUint /\ c <= c' <= sat_add c val)
           (width cms) k)
    with (rows := cells cms) (rows' := cells cms') (i := 0)
         (m0 := MaxUint) (m0' := MaxUint).
  - intros a0 b c c'. unfold CountMinSketch.sat_add. lia.
  - intros j row row' c c' Hrow Hrow' Hc Hc'.
    change (0 + Z.of_nat j) with (Z.of_nat j) in *.
    pose proof (wf_cms_cell cms j row k c Hwf Hrow Hc) as Hcr.
    destruct (Hcells j row row' k c c' Hrow Hrow' Hc Hc')
      as [[_ ->]|[_ ->]]; unfold CountMinSketch.sat_add; lia.
  - unfold CountMinSketch.sat_add. lia.
  - exact Hx.
  - unfold CountMinSketch.Query in Hy. rewrite Hwd in Hy. exact Hy.
  - symmetry. exact Hlen.
Qed.

(** ** Sequences of increments *)

Abbreviation between := (between uintBits MurmurHash64A).

Lemma incr_all_between ops :
  Forall (fun o : list Byte.byte * Z => 0 <= o.2 < 2 ^ uintBits) ops ->
  forall cms lo hi,
    wf_cms cms -> 0 <= counter cms < 2 ^ uintBits -> between cms lo hi ->
    exists cms',
      incr_all uintBits MurmurHash64A cms ops = Ok cms' /\
      wf_cms cms' /\
      length (cells cms') = length (cells cms) /\
      counter cms' = uint (counter cms + added_all ops) /\
      between cms' (fun k => lo k + added ops k) (hi + added_all ops).
Proof.
  pose proof MaxUint_nonneg as HM.
  assert (Hpos : 0 < 2 ^ uintBits) by (apply Z.pow_pos_nonneg; lia).
  induction 1 as [|[data val] rest Hval _ IH]; intros cms lo hi Hwf Hcnt Hb.
  - exists cms. split_and!; try done.
    + unfold added_all. simpl. rewrite Z.add_0_r.
      symmetry. apply Z.mod_small. exact Hcnt.
    + intros j row k c Hrow Hc. unfold added, added_all. simpl.
      rewrite !Z.add_0_r. exact (Hb j row k c Hrow Hc).
  - simpl in Hval.
    destruct (IncrBy_cells cms data val Hwf Hval)
      as (cms1 & m & Hrun & Hwf1 & Hwd & Hlen & Hcnt1 & _ & Hcells).
    assert (Hb1 : between cms1
                    (fun k => lo k + if bool_decide (data = k) then val else 0)
                    (hi + val)).
    { intros j row1 k c' Hrow1 Hc'. rewrite Hwd in Hc'.
      destruct (lookup_lt_is_Some_2 (cells cms) j) as [row Hrow].
      { rewrite <- Hlen. apply lookup_lt_is_Some. eauto. }
      destruct Hwf as [Hw Hrows].
      pose proof Hrows as Hrows'. rewrite Forall_lookup in Hrows'.
      destruct (Hrows' j row Hrow) as [Hl _].
      destruct (lookup_lt_is_Some_2 row (cell (width cms) k (Z.of_nat j)))
        as [c Hc].
      { apply CountMinSketchFacts.cell_lt; assumption. }
      pose proof (Hb j row k c Hrow Hc) as Hbc.
      destruct (Hcells j row row1 k c c' Hrow Hrow1 Hc Hc')
        as [[_ ->]|[Hne ->]].
      - unfold CountMinSketch.sat_add. case_bool_decide; lia.
      - case_bool_decide as Hk; [subst k; contradiction|]. lia. }
    assert (Hr1 : 0 <= counter cms1 < 2 ^ uintBits)
      by (rewrite Hcnt1; apply Z.mod_pos_bound; exact Hpos).
    destruct (IH cms1 _ _ Hwf1 Hr1 Hb1)
      as (cms' & Hall & Hwf' & Hlen' & Hcnt' & Hb').
    exists cms'. split_and!.
    + cbn [incr_all]. rewrite Hrun. cbn [bind]. exact Hall.
    + exact Hwf'.
    + congruence.
    + rewrite Hcnt', Hcnt1. unfold added_all. simpl.
      unfold CountMinSketch.uint, wrap.
      rewrite Z.add_mod_idemp_l by lia. f_equal. lia.
    + intros j row k c Hrow Hc. specialize (Hb' j row k c Hrow Hc).
      simpl in Hb'. unfold added, added_all in *. simpl. lia.
Qed.

(** X12: a sketch built by [New] takes any sequence of [IncrBy] calls, and
    afterwards [Query] of a key returns at least the sum of the amounts
    added for that key and at most the sum of all amounts added, both
    saturated at the largest [uint]; [counter] is the sum of all amounts
    in [uint] arithmetic. *)
Theorem Query_between_count_and_total
    (float64 : Type) (dimFromProb : float64 -> float64 -> Z * Z)
    overEst prob cms0 ops :
  New uintBits float64 dimFromProb overEst prob = Some cms0 ->
  Forall (fun o : list Byte.byte * Z => 0 <= o.2 < 2 ^ uintBits) ops ->
  exists cms,
    incr_all uintBits MurmurHash64A cms0 ops = Ok cms /\
    counter cms = uint (added_all ops) /\
    forall data, exists m,
      Query cms data = Ok m /\
      Z.min (added ops data) MaxUint <= m <= Z.min (added_all ops) MaxUint.
Proof.
  intros Hnew Hops. pose proof MaxUint_nonneg as HM.
  assert (Hpos : 0 < 2 ^ uintBits) by (apply Z.pow_pos_nonneg; lia).
  unfold New in Hnew. destruct (dimFromProb overEst prob) as [w d].
  destruct (Z.leb_spec w 0) as [|Hw]; [discriminate|].
  destruct (Z.leb_spec d 0) as [|Hd]; [discriminate|]. simpl in Hnew.
  destruct (w >? MaxUint / d); [discriminate|]. injection Hnew as <-.
  set (cms0 := mkCMS w d 0 (replicate (Z.to_nat d) (replicate (Z.to_nat w) 0))).
  assert (Hwf0 : wf_cms cms0).
  { split; [exact Hw|]. simpl. apply Forall_replicate.
    split; [rewrite length_replicate; lia|].
    apply Forall_replicate. lia. }
  assert (Hb0 : between cms0 (fun _ => 0) 0).
  { intros j row k c Hrow Hc. simpl in Hrow.
    apply lookup_replicate in Hrow as [-> _].
    apply lookup_replicate in Hc as [-> _]. lia. }
  assert (Hc0 : 0 <= counter cms0 < 2 ^ uintBits) by (simpl; lia).
  destruct (incr_all_between ops Hops cms0 _ _ Hwf0 Hc0 Hb0)
    as (cms & Hall & Hwf & Hlen & Hcnt & Hb).
  exists cms. split; [exact Hall|]. split; [exact Hcnt|].
  intros data. destruct (Query_total cms data Hwf) as (m & Hq).
  exists m. split; [exact Hq|].
  destruct (CountMinSketchFacts.query_rows_min uintBits MurmurHash64A
              _ _ _ _ _ _ Hq) as (Hle & Hlow & Hatt).
  change (0 + Z.of_nat ?j) with (Z.of_nat j) in *.
  split.
  - destruct Hatt as [->|(j & row & Hrow & Hm)]; [lia|].
    change (0 + Z.of_nat j) with (Z.of_nat j) in Hm.
    pose proof (Hb j row data m Hrow Hm) as Hbm. simpl in Hbm. lia.
  - destruct (lookup_lt_is_Some_2 (cells cms) O) as [row Hrow].
    { rewrite Hlen. simpl. rewrite length_replicate. lia. }
    destruct Hwf as [Hw' Hrows].
    pose proof Hrows as Hrows'. rewrite Forall_lookup in Hrows'.
    destruct (Hrows' O row Hrow) as [Hl _].
    destruct (lookup_lt_is_Some_2 row (cell (width cms) data 0)) as [c Hc].
    { apply CountMinSketchFacts.cell_lt; assumption. }
    pose proof (Hlow O row c Hrow Hc) as Hmc.
    pose proof (Hb O row data c Hrow Hc) as Hbc. simpl in Hbc. lia.
Qed.

End Estimates.

Lemma IncrBy_raises_estimates_witness :
  wf_cms 64 small_sketch /\
  exists cms' a,
    Query 64 le_hash small_sketch [x02] = Ok a /\
    IncrBy 64 le_hash small_sketch [x02] 5 = Ok (cms', sat_add 64 a 5) /\
    wf_cms 64 cms' /\
    forall k, exists x y,
      Query 64 le_hash small_sketch k = Ok x /\
      Query 64 le_hash cms' k = Ok y /\
      x <= y <= sat_add 64 x 5.
Proof.
  assert (Hwf : wf_cms 64 small_sketch)
    by (apply (bool_decide_unpack _); vm_compute; exact I).
  split; [exact Hwf|].
  apply (IncrBy_raises_estimates 64 le_hash ltac:(lia) small_sketch [x02] 5 Hwf).
  lia.
Defined.

Lemma Query_between_count_and_total_witness :
  New 64 unit three_by_two tt tt = Some (mkCMS 3 2 0 [[0; 0; 0]; [0; 0; 0]]) /\
  exists cms,
    incr_all 64 le_hash (mkCMS 3 2 0 [[0; 0; 0]; [0; 0; 0]]) some_increments
      = Ok cms /\
    counter cms = uint 64 (added_all some_increments) /\
    forall data, exists m,
      Query 64 le_hash cms data = Ok m /\
      Z.min (added some_increments data) (MaxUint 64) <= m
      <= Z.min (added_all some_increments) (MaxUint 64).
Proof.
  assert (Hnew : New 64 unit three_by_two tt tt
                 = Some (mkCMS 3 2 0 [[0; 0; 0]; [0; 0; 0]]))
    by (vm_compute; reflexivity).
  assert (Hops : Forall (fun o : list Byte.byte * Z => 0 <= o.2 < 2 ^ 64)
                        some_increments)
    by (apply (bool_decide_unpack _); vm_compute; exact I).
  split; [exact Hnew|].
  exact (Query_between_count_and_total 64 le_hash ltac:(lia) unit three_by_two
           tt tt _ some_increments Hnew Hops).
Defined.

End CountMinSketchEstimates.

(** * Compaction keeps the keys *)

Lemma sorted_lookup (l : list Z) :
  non_decreasing l ->
  forall (i j : nat) a b,
    (i <= j)%nat -> l !! i = Some a -> l !! j = Some b -> a <= b.
Proof.
  induction l as [|x l IH]; intros Hl i j a b Hij Ha Hb; [discriminate|].
  destruct Hl as [Hx Hs].
  destruct i as [|i], j as [|j]; simpl in Ha, Hb.
  - injection Ha as <-. injection Hb as <-. lia.
  - injection Ha as <-. rewrite Forall_lookup in Hx. exact (Hx _ _ Hb).
  - lia.
  - apply (IH Hs i j); [lia|assumption..].
Qed.

Lemma sorted_app_l (l k : list Z) : non_decreasing (l ++ k) -> non_decreasing l.
Proof.
  induction l as [|x l IH]; simpl; [auto|].
  intros [Hx Hs]. apply Forall_app in Hx as [Hx _]. auto.
Qed.

Lemma ascending_lookup cf (i j : nat) s t :
  ascending cf -> (i <= j)%nat ->
  filters cf !! i = Some s -> filters cf !! j = Some t ->
  sBucketNum s <= sBucketNum t.
Proof.
  intros Ha Hij Hs Ht.
  apply (sorted_lookup _ Ha i j); [exact Hij|..];
    unfold bucketNums; rewrite list_lookup_fmap; [rewrite Hs|rewrite Ht];
    reflexivity.
Qed.

Lemma ascending_prefix cf cf' :
  bucketNums cf' `prefix_of` bucketNums cf -> ascending cf -> ascending cf'.
Proof.
  intros [k Hk] Ha. unfold ascending in *. rewrite Hk in Ha.
  exact (sorted_app_l _ _ Ha).
Qed.

Lemma limits_bucketNums cf cf' :
  bucketNums cf' `prefix_of` bucketNums cf -> limits cf -> limits cf'.
Proof.
  intros [k Hk] [Hlen Hsm]. unfold limits. rewrite Hk in Hsm.
  apply Forall_app in Hsm as [Hsm _]. split; [|exact Hsm].
  assert (Hl : length (bucketNums cf) = (length (bucketNums cf') + length k)%nat)
    by (rewrite Hk; apply length_app).
  unfold bucketNums in Hl. rewrite !length_fmap in Hl. lia.
Qed.

Lemma limits_lookup cf i s :
  wf cf -> limits cf -> filters cf !! i = Some s -> 0 < sBucketNum s <= 2 ^ 32.
Proof.
  intros H [_ Hsm] Hs. pose proof (wf_sub_bn_pos _ _ (wf_lookup _ _ _ H Hs)).
  unfold bucketNums in Hsm. rewrite Forall_fmap, Forall_lookup in Hsm.
  pose proof (Hsm _ _ Hs) as Hle. simpl in Hle. lia.
Qed.

Lemma stored_at cf i s q : filters cf !! i = Some s -> holds s q -> stored cf q.
Proof.
  intros Hs Hh. exists s. split; [|exact Hh].
  apply list_elem_of_lookup. eauto.
Qed.

(** The two buckets [relocateSlot] looks at in an older generation are the
    candidate buckets there of every key that has the bucket the
    fingerprint comes from as a candidate. *)
Lemma relocated_cand ks kc q bIx p :
  0 <= ks <= kc -> kc <= 32 ->
  keyed q ->
  cand_ix (2 ^ kc) q bIx ->
  p = u64 (u64 bIx) mod 2 ^ ks \/
  p = u64 (altHash (fp q) (u64 bIx)) mod 2 ^ ks ->
  cand_ix (2 ^ ks) q p.
Proof.
  intros Hks Hkc [Hh2 _] Hc Hp.
  assert (Hpc : 0 < 2 ^ kc) by (apply Z.pow_pos_nonneg; lia).
  assert (Hps : 0 < 2 ^ ks) by (apply Z.pow_pos_nonneg; lia).
  assert (Hle : 2 ^ kc <= 2 ^ 32) by (apply Z.pow_le_mono_r; lia).
  assert (Hr : 0 <= bIx < 2 ^ kc)
    by (destruct Hc as [->| ->]; apply Z.mod_pos_bound; exact Hpc).
  assert (Hu : u64 bIx = bIx) by (apply u64_small; lia).
  assert (Hc' : cand_ix (2 ^ ks) q (bIx mod 2 ^ ks)).
  { destruct Hc as [->| ->]; [left|right];
      rewrite mod_mod_pow2 by lia; reflexivity. }
  rewrite !Hu in Hp. destruct Hp as [->| ->]; [exact Hc'|].
  assert (Hb : 0 <= bIx mod 2 ^ ks < 2 ^ ks)
    by (apply Z.mod_pos_bound; exact Hps).
  assert (Hk64 : 0 <= ks < 64) by lia.
  apply (cand_ix_alt ks q _ Hk64 Hb Hh2) in Hc'.
  rewrite alt_index_eq in Hc' by assumption.
  unfold u64 at 1. unfold wrap. rewrite mod_mod_pow2 by lia.
  unfold altHash. rewrite lxor_mod_pow2 by lia. exact Hc'.
Qed.

(** Emptying a slot hides only the keys with its fingerprint that have the
    bucket as a candidate. *)
Lemma holds_clear_slot cur bIx b sIx v q :
  0 <= bIx ->
  buckets cur !! Z.to_nat bIx = Some b -> b !! sIx = Some v ->
  holds cur q ->
  holds (set_slot cur bIx sIx nullFp) q \/
  (fp q = v /\
   (bucketIndex cur (h1 q) = Ok bIx \/ bucketIndex cur (h2 q) = Ok bIx)).
Proof.
  intros HbI Hb Hv (p0 & b0 & Hc & Hb0 & Hin).
  assert (Hp0 : 0 <= p0).
  { destruct Hc as [Hc|Hc]; apply bucketIndex_Ok in Hc as [_ ->];
      apply wrap_range; lia. }
  rewrite (set_slot_eq _ _ _ _ _ Hb).
  destruct (decide (p0 = bIx)) as [->|Hne].
  - rewrite Hb in Hb0. injection Hb0 as <-.
    destruct (decide (fp q = v)) as [Hfv|Hfv]; [right; auto|].
    left. exists bIx, (<[sIx := nullFp]> b). split; [exact Hc|].
    split.
    + simpl. apply list_lookup_insert_eq. apply lookup_lt_is_Some. eauto.
    + apply elem_of_insert_other; [exact Hin|]. rewrite Hv. congruence.
  - left. exists p0, b0. split; [exact Hc|]. split; [|exact Hin].
    simpl. rewrite list_lookup_insert_ne by lia. exact Hb0.
Qed.

(** A generation that holds a key has an occupied slot. *)
Lemma holds_occ_pos s q : holds s q -> fp q <> nullFp -> 0 < occ_sub s.
Proof.
  intros (p & b & _ & Hb & Hin) Hfp.
  apply list_elem_of_lookup in Hin as (j & Hj).
  pose proof (sumZ_lookup_le occ_slot b j _
                (fun v => proj1 (occ_slot_range v)) Hj) as H1.
  pose proof (sumZ_lookup_le occ (buckets s) _ _ occ_nonneg Hb) as H2.
  rewrite (occ_slot_nonzero _ Hfp) in H1. unfold occ_sub. unfold occ at 1 in H2.
  lia.
Qed.

(** Moving a fingerprint to an older generation keeps every key stored. *)
Lemma relocate_into_stored fi cur b v bIx sIx n :
  forall i cf cf' r,
    wf cf -> limits cf -> ascending cf ->
    0 <= i -> i + Z.of_nat n <= Z.of_nat fi -> 0 <= bIx -> 0 <= sIx ->
    filters cf !! fi = Some cur ->
    buckets cur !! Z.to_nat bIx = Some b ->
    b !! Z.to_nat sIx = Some v ->
    relocate_into n i cf (mkParams (u64 bIx) (altHash v (u64 bIx)) v)
                  (Z.of_nat fi) bIx sIx = Ok (cf', r) ->
    forall q, keyed q -> stored cf q -> stored cf' q.
Proof.
  induction n as [|n IH];
    intros i cf cf' r H Hlim Hasc Hi Hin HbI HsI Hcur Hb Hv Hrun q Hq Hst.
  - injection Hrun as <- <-. exact Hst.
  - simpl in Hrun.
    destruct (idx (filters cf) i) as [s|] eqn:Hs; [|discriminate].
    simpl in Hrun. apply idx_Ok in Hs.
    destruct (sub_findAvailableSlot s _) as [[[p j]|]|] eqn:Hfree;
      simpl in Hrun; [| |discriminate].
    2:{ apply (IH (i + 1) cf cf' r); try assumption; lia. }
    destruct (sub_findAvailableSlot_Some _ _ _ _ Hfree)
      as (b0 & Hc & Hb0 & Hj).
    cbn [h1 h2] in Hc.
    assert (Hnefi : Z.to_nat i <> fi) by lia.
    assert (Hcur1 : <[Z.to_nat i := set_slot s p j v]> (filters cf) !! fi
                    = Some cur).
    { rewrite list_lookup_insert_ne by exact Hnefi. exact Hcur. }
    unfold idx in Hrun. rewrite Nat2Z.id, Hcur1 in Hrun. simpl in Hrun.
    injection Hrun as <- <-.
    assert (Hp0 : 0 <= p).
    { destruct Hc as [Hc|Hc]; apply bucketIndex_Ok in Hc as [_ ->];
        apply wrap_range; lia. }
    assert (Hli : (Z.to_nat i < length (filters cf))%nat)
      by (apply lookup_lt_is_Some; eauto).
    assert (Hlf : (fi < length (filters cf))%nat)
      by (apply lookup_lt_is_Some; eauto).
    (* the two generations after the move *)
    assert (Hnew_i : forall s', 
               <[fi := s']> (<[Z.to_nat i := set_slot s p j v]> (filters cf))
                 !! Z.to_nat i = Some (set_slot s p j v)).
    { intros s'. rewrite list_lookup_insert_ne by congruence.
      apply list_lookup_insert_eq. exact Hli. }
    destruct Hst as (s0 & Hin0 & Hh).
    apply list_elem_of_lookup in Hin0 as (g & Hg).
    destruct (decide (g = fi)) as [->|Hgfi].
    + rewrite Hcur in Hg. injection Hg as <-.
      destruct (holds_clear_slot cur bIx b (Z.to_nat sIx) v q HbI Hb Hv Hh)
        as [Hkeep|[Hfv Hcand]].
      * apply (stored_at _ fi (set_slot cur bIx (Z.to_nat sIx) nullFp));
          [|exact Hkeep].
        simpl. apply list_lookup_insert_eq. rewrite length_insert. exact Hlf.
      * (* the key follows the fingerprint *)
        apply (stored_at _ (Z.to_nat i) (set_slot s p j v));
          [simpl; apply Hnew_i|].
        pose proof (limits_lookup _ _ _ H Hlim Hs) as Hbs.
        pose proof (limits_lookup _ _ _ H Hlim Hcur) as Hbc.
        assert (Hle : sBucketNum s <= sBucketNum cur)
          by (apply (ascending_lookup cf (Z.to_nat i) fi); try assumption; lia).
        destruct (wf_lookup _ _ _ H Hs) as (_ & Hps & _).
        destruct (wf_lookup _ _ _ H Hcur) as (_ & Hpc & _).
        destruct (is_pow2_exp _ Hps) as (ks & Hks & Eks); [lia|].
        destruct (is_pow2_exp _ Hpc) as (kc & Hkc & Ekc); [lia|].
        assert (Hkk : ks <= kc).
        { apply (Z.pow_le_mono_r_iff 2); [lia | lia |]. rewrite <- Eks, <- Ekc.
          exact Hle. }
        assert (Hk32 : kc <= 32).
        { apply (Z.pow_le_mono_r_iff 2); [lia | lia |]. rewrite <- Ekc. lia. }
        assert (Hcq : cand_ix (2 ^ ks) q p).
        { apply (relocated_cand ks kc q bIx p); [lia | exact Hk32 | exact Hq | |].
          - rewrite <- Ekc. unfold cand_ix.
            rewrite !bucketIndex_small in Hcand by exact Hbc.
            destruct Hcand as [[= <-]|[= <-]]; auto.
          - rewrite <- Eks. rewrite Hfv.
            rewrite !bucketIndex_small in Hc by exact Hbs.
            destruct Hc as [[= <-]|[= <-]]; auto. }
        rewrite (set_slot_eq _ _ _ _ _ Hb0).
        exists p, (<[j := v]> b0). split.
        -- unfold cand_ix in Hcq. rewrite <- Eks in Hcq.
           change (bucketIndex (with_buckets s _) ?h) with (bucketIndex s h).
           rewrite !bucketIndex_small by exact Hbs.
           destruct Hcq as [->| ->]; auto.
        -- split.
           ++ simpl. apply list_lookup_insert_eq. apply lookup_lt_is_Some. eauto.
           ++ rewrite Hfv. apply elem_of_insert_new.
              apply lookup_lt_is_Some. eauto.
    + destruct (decide (g = Z.to_nat i)) as [->|Hgi].
      * rewrite Hs in Hg. injection Hg as <-.
        apply (stored_at _ (Z.to_nat i) (set_slot s p j v));
          [simpl; apply Hnew_i|].
        rewrite (set_slot_eq _ _ _ _ _ Hb0).
        apply holds_fill_slot; try assumption. exact (proj2 Hq).
      * apply (stored_at _ g s0); [|exact Hh]. simpl.
        rewrite !list_lookup_insert_ne by congruence. exact Hg.
Qed.

Lemma moved_limits fi cf cf' :
  moved fi cf cf' -> limits cf -> ascending cf -> limits cf' /\ ascending cf'.
Proof.
  intros (_ & _ & B & _) Hlim Hasc.
  assert (Hp : bucketNums cf' `prefix_of` bucketNums cf) by (rewrite B; done).
  split; [exact (limits_bucketNums _ _ Hp Hlim)|].
  exact (ascending_prefix _ _ Hp Hasc).
Qed.

Lemma relocateSlot_stored fi cf bIx sIx cf' r :
  wf cf -> limits cf -> ascending cf -> 0 <= bIx -> 0 <= sIx ->
  relocateSlot cf (Z.of_nat fi) bIx sIx = Ok (cf', r) ->
  forall q, keyed q -> stored cf q -> stored cf' q.
Proof.
  intros H Hlim Hasc HbI HsI Hrun. unfold relocateSlot in Hrun.
  destruct (idx (filters cf) (Z.of_nat fi)) as [cur|] eqn:Hcur; [|discriminate].
  simpl in Hrun. apply idx_Ok in Hcur. rewrite Nat2Z.id in Hcur.
  destruct (idx (buckets cur) bIx) as [b|] eqn:Hb; [|discriminate].
  simpl in Hrun. apply idx_Ok in Hb.
  destruct (idx b sIx) as [v|] eqn:Hv; [|discriminate].
  simpl in Hrun. apply idx_Ok in Hv.
  destruct (Z.eqb_spec v nullFp) as [->|Hne].
  - injection Hrun as <- <-. auto.
  - rewrite Nat2Z.id in Hrun.
    apply (relocate_into_stored fi cur b v bIx sIx fi 0 cf cf' r);
      try assumption; lia.
Qed.

Lemma compact_slots_stored fi bIx n :
  forall sIx cf rv cf' rv',
    wf cf -> limits cf -> ascending cf -> 0 <= bIx -> 0 <= sIx ->
    compact_slots n sIx cf (Z.of_nat fi) bIx rv = Ok (cf', rv') ->
    forall q, keyed q -> stored cf q -> stored cf' q.
Proof.
  induction n as [|n IH]; intros sIx cf rv cf' rv' H Hlim Hasc HbI HsI Hrun q Hq Hst.
  - injection Hrun as <- <-. exact Hst.
  - simpl in Hrun.
    destruct (relocateSlot cf (Z.of_nat fi) bIx sIx) as [[cf1 r]|] eqn:Hrel;
      [|discriminate].
    simpl in Hrun.
    destruct (relocateSlot_moved _ _ _ _ _ _ H HbI HsI Hrel) as [Hm1 _].
    pose proof Hm1 as (Hwf1 & _).
    destruct (moved_limits _ _ _ Hm1 Hlim Hasc) as [Hlim1 Hasc1].
    assert (Hs1 : 0 <= sIx + 1) by lia.
    apply (IH _ _ _ _ _ Hwf1 Hlim1 Hasc1 HbI Hs1 Hrun q Hq).
    exact (relocateSlot_stored _ _ _ _ _ _ H Hlim Hasc HbI HsI Hrel q Hq Hst).
Qed.

Lemma compact_buckets_stored fi ns n :
  forall bIx cf rv cf' rv',
    wf cf -> limits cf -> ascending cf -> 0 <= bIx ->
    compact_buckets n bIx ns cf (Z.of_nat fi) rv = Ok (cf', rv') ->
    forall q, keyed q -> stored cf q -> stored cf' q.
Proof.
  induction n as [|n IH]; intros bIx cf rv cf' rv' H Hlim Hasc HbI Hrun q Hq Hst.
  - injection Hrun as <- <-. exact Hst.
  - simpl in Hrun.
    destruct (compact_slots ns 0 cf (Z.of_nat fi) bIx rv) as [[cf1 rv1]|] eqn:Hs;
      [|discriminate].
    simpl in Hrun.
    assert (H00 : 0 <= 0) by lia.
    destruct (compact_slots_moved _ _ _ _ _ _ _ _ H HbI H00 Hs) as [Hm1 _].
    pose proof Hm1 as (Hwf1 & _).
    destruct (moved_limits _ _ _ Hm1 Hlim Hasc) as [Hlim1 Hasc1].
    assert (Hb1 : 0 <= bIx + 1) by lia.
    apply (IH _ _ _ _ _ Hwf1 Hlim1 Hasc1 Hb1 Hrun q Hq).
    exact (compact_slots_stored _ _ _ _ _ _ _ _ H Hlim Hasc HbI H00 Hs q Hq Hst).
Qed.

(** [compactSingle] cuts off the newest generation only when every slot
    of it has been emptied. *)
Lemma compactSingle_stored fi cf cf' rv :
  wf cf -> limits cf -> ascending cf ->
  compactSingle cf (Z.of_nat fi) = Ok (cf', rv) ->
  forall q, keyed q -> stored cf q -> stored cf' q.
Proof.
  intros H Hlim Hasc Hrun q Hq Hst. unfold compactSingle in Hrun.
  destruct (idx (filters cf) (Z.of_nat fi)) as [cur|] eqn:Hcur; [|discriminate].
  simpl in Hrun. apply idx_Ok in Hcur. rewrite Nat2Z.id in Hcur.
  destruct (compact_buckets _ 0 _ cf (Z.of_nat fi) relocOk)
    as [[cf1 rv1]|] eqn:Hb; [|discriminate].
  simpl in Hrun.
  assert (H00 : 0 <= 0) by lia.
  pose proof (compact_buckets_stored _ _ _ _ _ _ _ _ H Hlim Hasc H00 Hb q Hq Hst)
    as Hst1.
  destruct (compact_buckets_moved _ _ _ _ _ _ _ _ H H00 Hb) as [Hm Hok].
  pose proof Hm as (Hwf1 & E1 & B1 & _ & _).
  destruct (moved_limits _ _ _ Hm Hlim Hasc) as [Hlim1 _].
  destruct ((rv1 =? relocOk) && (Z.of_nat fi =? u16 (filterNum cf1 - 1)))
    eqn:Hpop.
  2:{ injection Hrun as <- <-. exact Hst1. }
  injection Hrun as <- <-.
  apply andb_true_iff in Hpop as [Hrv Hlast].
  apply Z.eqb_eq in Hrv, Hlast.
  destruct (wf_filterNum cf1 Hwf1 (proj1 Hlim1)) as [Hfeq Hfr].
  rewrite u16_small in Hlast |- * by lia.
  (* the generation is empty *)
  pose proof (wf_lookup _ _ _ H Hcur) as Hsub.
  pose proof (limits_lookup _ _ _ H Hlim Hcur) as Hbn32.
  rewrite int_of_u64_small in Hok by lia.
  destruct (lookup_lt_is_Some_2 (filters cf1) fi) as [cur1 Hcur1]; [lia|].
  destruct (bucketNums_lookup _ _ _ _ B1 Hcur) as (cur1' & Hcur1' & Hnum).
  rewrite Hcur1 in Hcur1'. injection Hcur1' as <-.
  assert (Hbs1 : bucketSize cf1 = bucketSize cf) by (rewrite E1; reflexivity).
  assert (Hsz : sBucketSize cur = bucketSize cf) by (destruct Hsub; assumption).
  assert (Hempty : occ_sub cur1 = 0).
  { apply (occ_sub_emptied (bucketSize cf1) cf1 fi).
    - exact (wf_lookup _ _ _ Hwf1 Hcur1).
    - exact Hcur1.
    - intros b j Hb' Hj. destruct (Hok Hrv) as [_ Hz].
      apply Hz; [lia|]. rewrite Hsz. lia. }
  destruct Hst1 as (s0 & Hin0 & Hh).
  apply list_elem_of_lookup in Hin0 as (g & Hg).
  destruct (decide (g = fi)) as [->|Hne].
  - rewrite Hcur1 in Hg. injection Hg as <-.
    pose proof (holds_occ_pos _ _ Hh (proj2 Hq)). lia.
  - pose proof (lookup_lt_Some _ _ _ Hg) as Hlt.
    apply (stored_at _ g s0); [|exact Hh]. simpl.
    rewrite lookup_take_lt by lia. exact Hg.
Qed.

Lemma compactSingle_ascending fi cf cf' rv :
  wf cf -> ascending cf -> compactSingle cf (Z.of_nat fi) = Ok (cf', rv) ->
  ascending cf'.
Proof.
  intros H Hasc Hs.
  exact (ascending_prefix _ _ (compactSingle_bucketNums _ _ _ _ H Hs) Hasc).
Qed.

Lemma compact_from_stored n :
  forall cf cont cf',
    wf cf -> limits cf -> ascending cf ->
    compact_from n cf cont = Ok cf' ->
    forall q, keyed q -> stored cf q -> stored cf' q.
Proof.
  induction n as [|n IH]; intros cf cont cf' H Hlim Hasc Hrun q Hq Hst.
  - injection Hrun as <-. exact Hst.
  - cbn [compact_from] in Hrun.
    destruct (compactSingle cf (Z.of_nat (S n))) as [[cf1 rv]|] eqn:Hs;
      [|discriminate].
    cbn [bind] in Hrun.
    assert (Hn1 : (1 <= S n)%nat) by lia.
    destruct (compactSingle_keeps _ _ _ _ H Hlim Hn1 Hs) as (Hwf1 & Hlim1 & _).
    pose proof (compactSingle_ascending _ _ _ _ H Hasc Hs) as Hasc1.
    pose proof (compactSingle_stored _ _ _ _ H Hlim Hasc Hs q Hq Hst) as Hst1.
    destruct ((rv =? relocFail) && negb cont).
    + injection Hrun as <-. exact Hst1.
    + exact (IH _ _ _ Hwf1 Hlim1 Hasc1 Hrun q Hq Hst1).
Qed.

Lemma compact_stored cf cont cf' :
  wf cf -> limits cf -> ascending cf ->
  compact cf cont = Ok cf' ->
  forall q, keyed q -> stored cf q -> stored cf' q.
Proof.
  intros H Hlim Hasc Hrun q Hq Hst. unfold compact in Hrun.
  destruct (compact_from _ cf cont) as [cf1|] eqn:Hc; [|discriminate].
  cbn [bind] in Hrun. injection Hrun as <-.
  exact (compact_from_stored _ _ _ _ H Hlim Hasc Hc q Hq Hst).
Qed.

Lemma compact_ascending cf cont cf' :
  wf cf -> limits cf -> ascending cf -> compact cf cont = Ok cf' ->
  ascending cf'.
Proof.
  intros H Hlim Hasc Hrun.
  exact (ascending_prefix _ _ (compact_bucketNums _ _ _ H Hlim Hrun) Hasc).
Qed.

(** * Deleting keeps the keys of other fingerprints *)

Lemma bucket_delete_other (b b' : bucket) f x ok :
  bucket_delete b f = (b', ok) -> x ∈ b -> x <> f -> x ∈ b'.
Proof.
  intros Hdel Hin Hne. destruct ok.
  - destruct (bucket_delete_found _ _ _ Hdel) as (i & Hi & ->).
    apply elem_of_insert_other; [exact Hin|]. rewrite Hi. congruence.
  - revert b' Hdel. induction b as [|v r IH]; intros b' Hdel; simpl in Hdel.
    + injection Hdel as <-. exact Hin.
    + destruct (v =? f); [discriminate|].
      destruct (bucket_delete r f) as [r' ok'] eqn:Hr.
      injection Hdel as <- ->.
      apply elem_of_cons in Hin as [->|Hin]; [left|].
      right. exact (IH Hin _ eq_refl).
Qed.

Lemma sub_delete_other s pr s' ok q :
  sub_delete s pr = Ok (s', ok) -> fp q <> fp pr ->
  holds s q -> holds s' q.
Proof.
  intros Hrun Hne (p0 & b0 & Hc & Hb0 & Hin).
  assert (Hp0 : 0 <= p0).
  { destruct Hc as [Hc|Hc]; apply bucketIndex_Ok in Hc as [_ ->];
      apply wrap_range; lia. }
  assert (Hone : forall p b b' o,
            0 <= p -> buckets s !! Z.to_nat p = Some b ->
            bucket_delete b (fp pr) = (b', o) ->
            holds (with_buckets s (<[Z.to_nat p := b']> (buckets s))) q).
  { intros p b b' o Hp Hb Hdel.
    destruct (decide (p0 = p)) as [->|Hpp].
    - rewrite Hb in Hb0. injection Hb0 as <-.
      exists p, b'. split; [exact Hc|]. split.
      + simpl. apply list_lookup_insert_eq. apply lookup_lt_is_Some. eauto.
      + exact (bucket_delete_other _ _ _ _ _ Hdel Hin Hne).
    - exists p0, b0. split; [exact Hc|]. split; [|exact Hin].
      simpl. rewrite list_lookup_insert_ne by lia. exact Hb0. }
  unfold sub_delete in Hrun.
  destruct (bucketIndex s (h1 pr)) as [p1|] eqn:Hp1; [|discriminate].
  cbn [bind] in Hrun.
  destruct (bucketIndex s (h2 pr)) as [p2|] eqn:Hp2; [|discriminate].
  cbn [bind] in Hrun.
  assert (Hp1' : 0 <= p1)
    by (apply bucketIndex_Ok in Hp1 as [_ ->]; apply wrap_range; lia).
  assert (Hp2' : 0 <= p2)
    by (apply bucketIndex_Ok in Hp2 as [_ ->]; apply wrap_range; lia).
  destruct (idx (buckets s) p1) as [b1|] eqn:Hb1; [|discriminate].
  cbn [bind] in Hrun. apply idx_Ok in Hb1.
  destruct (bucket_delete b1 (fp pr)) as [b1' ok1] eqn:Hd1.
  destruct ok1.
  - injection Hrun as <- <-. exact (Hone _ _ _ _ Hp1' Hb1 Hd1).
  - destruct (idx (buckets s) p2) as [b2|] eqn:Hb2; [|discriminate].
    cbn [bind] in Hrun. apply idx_Ok in Hb2.
    destruct (bucket_delete b2 (fp pr)) as [b2' ok2] eqn:Hd2.
    destruct ok2.
    + injection Hrun as <- <-. exact (Hone _ _ _ _ Hp2' Hb2 Hd2).
    + injection Hrun as <- <-. exists p0, b0. auto.
Qed.

Section Keeping.

Variable MurmurHash64A : list Byte.byte -> Z -> Z.
Variable over_tenth : Z -> Z -> bool.

Lemma Exist_stored cf data :
  wf cf ->
  (Exist MurmurHash64A cf data = Ok (cf, true) <->
   stored cf (buildParams MurmurHash64A data)).
Proof.
  intros H. unfold Exist, stored.
  rewrite <- (existFp_true cf (buildParams MurmurHash64A data) H).
  destruct (existFp cf (buildParams MurmurHash64A data)) as [[|]|]; simpl;
    split; intros E; try discriminate; try reflexivity; congruence.
Qed.

Lemma delete_scan_stored n cf pr cf' ok :
  wf cf -> limits cf -> ascending cf -> fp pr <> nullFp ->
  delete_scan over_tenth n cf pr = Ok (cf', ok) ->
  wf cf' /\ limits cf' /\ ascending cf' /\
  bucketNums cf' `prefix_of` bucketNums cf /\
  forall q, keyed q -> fp q <> fp pr -> stored cf q -> stored cf' q.
Proof.
  intros H Hlim Hasc Hfp. induction n as [|n IH]; intros Hrun.
  - injection Hrun as <- <-. split_and!; auto.
  - cbn [delete_scan] in Hrun.
    destruct (idx (filters cf) (Z.of_nat n)) as [s|] eqn:Hs; [|discriminate].
    cbn [bind] in Hrun. apply idx_Ok in Hs. rewrite Nat2Z.id in Hs.
    destruct (sub_delete s pr) as [[s' [|]]|] eqn:Hdel; [| |discriminate];
      cbn [bind] in Hrun; [|exact (IH Hrun)].
    destruct (sub_delete_found _ _ _ _ (wf_lookup _ _ _ H Hs) Hfp Hdel)
      as (Hs' & Hnum & _).
    set (cf1 := with_deleteNum
                  (with_itemNum (with_filters cf (<[n := s']> (filters cf)))
                                (u64 (itemNum cf - 1)))
                  (u64 (deleteNum cf + 1))) in *.
    assert (Hwf1 : wf cf1) by (apply (wf_update cf n s' H Hs')).
    assert (Hb1 : bucketNums cf1 = bucketNums cf)
      by (apply (bucketNums_update cf n s s' Hs Hnum)).
    assert (Hp1 : bucketNums cf1 `prefix_of` bucketNums cf)
      by (rewrite Hb1; done).
    pose proof (limits_bucketNums _ _ Hp1 Hlim) as Hlim1.
    pose proof (ascending_prefix _ _ Hp1 Hasc) as Hasc1.
    assert (Hst1 : forall q, keyed q -> fp q <> fp pr ->
                             stored cf q -> stored cf1 q).
    { intros q Hq Hne Hst.
      apply (stored_update cf n s s' q Hs); [|exact Hst].
      exact (sub_delete_other _ _ _ _ _ Hdel Hne). }
    destruct ((1 <? filterNum cf1) && over_tenth (deleteNum cf1) (itemNum cf1)).
    + destruct (compact cf1 false) as [cf2|] eqn:Hc; [|discriminate].
      cbn [bind] in Hrun. injection Hrun as <- <-.
      destruct (compact_keeps _ _ _ Hwf1 Hlim1 Hc) as (Hwf2 & Hlim2 & _).
      pose proof (compact_bucketNums _ _ _ Hwf1 Hlim1 Hc) as Hp2.
      split_and!; try assumption.
      * exact (ascending_prefix _ _ Hp2 Hasc1).
      * etrans; [exact Hp2 | exact Hp1].
      * intros q Hq Hne Hst.
        exact (compact_stored _ _ _ Hwf1 Hlim1 Hasc1 Hc q Hq (Hst1 q Hq Hne Hst)).
    + injection Hrun as <- <-. split_and!; assumption.
Qed.

(** X13: in a filter within the limits in which no generation has more
    buckets than a newer one, [compact] loses no key: a key that [Exist]
    reports before the call is reported after it. *)
Theorem compact_keeps_keys cf cont cf' :
  wf cf -> limits cf -> ascending cf ->
  compact cf cont = Ok cf' ->
  forall data,
    Exist MurmurHash64A cf data = Ok (cf, true) ->
    Exist MurmurHash64A cf' data = Ok (cf', true).
Proof.
  intros H Hlim Hasc Hrun data Hex.
  destruct (compact_keeps _ _ _ H Hlim Hrun) as (Hwf' & _).
  apply (Exist_stored cf' data Hwf').
  apply (compact_stored _ _ _ H Hlim Hasc Hrun).
  - apply paramsOfHash_keyed.
  - apply (Exist_stored cf data H). exact Hex.
Qed.

(** X14: in such a filter, [Delete] of a key, with the compaction it may
    run, loses no key of another fingerprint: a key that [Exist] reports
    before the call, and whose fingerprint is not that of the deleted key,
    is reported after it. *)
Theorem Delete_keeps_other_fingerprints cf d cf' ok :
  wf cf -> limits cf -> ascending cf ->
  Delete MurmurHash64A over_tenth cf d = Ok (cf', ok) ->
  forall data,
    fp (buildParams MurmurHash64A data) <> fp (buildParams MurmurHash64A d) ->
    Exist MurmurHash64A cf data = Ok (cf, true) ->
    Exist MurmurHash64A cf' data = Ok (cf', true).
Proof.
  intros H Hlim Hasc Hrun data Hne Hex. unfold Delete in Hrun.
  assert (Hfp : fp (buildParams MurmurHash64A d) <> nullFp)
    by apply paramsOfHash_keyed.
  destruct (delete_scan_stored _ _ _ _ _ H Hlim Hasc Hfp Hrun)
    as (Hwf' & _ & _ & _ & Hkeep).
  apply (Exist_stored cf' data Hwf'). apply Hkeep.
  - apply paramsOfHash_keyed.
  - exact Hne.
  - apply (Exist_stored cf data H). exact Hex.
Qed.

End Keeping.

Lemma compact_keeps_keys_witness :
  wf two_filters /\ limits two_filters /\ ascending two_filters /\
  compact two_filters false = Ok two_filters_compacted /\
  forall data,
    Exist le_hash two_filters data = Ok (two_filters, true) ->
    Exist le_hash two_filters_compacted data = Ok (two_filters_compacted, true).
Proof.
  assert (Hwf : wf two_filters)
    by (apply (bool_decide_unpack _); vm_compute; exact I).
  assert (Hlim : limits two_filters)
    by (apply (bool_decide_unpack _); vm_compute; exact I).
  assert (Hasc : ascending two_filters)
    by (apply (bool_decide_unpack _); vm_compute; exact I).
  assert (Hrun : compact two_filters false = Ok two_filters_compacted)
    by (vm_compute; reflexivity).
  split_and!; try assumption.
  exact (compact_keeps_keys le_hash two_filters false two_filters_compacted
           Hwf Hlim Hasc Hrun).
Defined.

Lemma Delete_keeps_other_fingerprints_witness :
  wf two_filters /\ limits two_filters /\ ascending two_filters /\
  Delete le_hash tenth two_filters [x00; x01] = Ok (two_filters_deleted, true) /\
  forall data,
    fp (buildParams le_hash data) <> fp (buildParams le_hash [x00; x01]) ->
    Exist le_hash two_filters data = Ok (two_filters, true) ->
    Exist le_hash two_filters_deleted data = Ok (two_filters_deleted, true).
Proof.
  assert (Hwf : wf two_filters)
    by (apply (bool_decide_unpack _); vm_compute; exact I).
  assert (Hlim : limits two_filters)
    by (apply (bool_decide_unpack _); vm_compute; exact I).
  assert (Hasc : ascending two_filters)
    by (apply (bool_decide_unpack _); vm_compute; exact I).
  assert (Hrun : Delete le_hash tenth two_filters [x00; x01]
                 = Ok (two_filters_deleted, true))
    by (vm_compute; reflexivity).
  split_and!; try assumption.
  exact (Delete_keeps_other_fingerprints le_hash tenth two_filters [x00; x01]
           two_filters_deleted true Hwf Hlim Hasc Hrun).
Defined.

(** * The sizes of the generations *)

(** ** The calls leave [bucketNum] and [expansion] as they are *)

Lemma insert_scan_frame n cf pr cf' :
  insert_scan n cf pr = Ok (Some cf') ->
  bucketNum cf' = bucketNum cf /\ expansion cf' = expansion cf.
Proof.
  intros H.
  destruct (insert_scan_Some _ _ _ _ H)
    as (i & s & p & b & j & _ & _ & _ & _ & _ & _ & ->).
  split; reflexivity.
Qed.

Lemma evictAndInsert_frame cf pr cf1 st :
  evictAndInsert cf pr = Ok (cf1, st) ->
  bucketNum cf1 = bucketNum cf /\ expansion cf1 = expansion cf.
Proof.
  unfold evictAndInsert. intros H.
  destruct (evict_first_loop cf pr) as [[cur w]|]; [|discriminate].
  simpl in H. destruct w as [bk|bk p v f].
  - injection H as <- _. split; reflexivity.
  - destruct (evict_rollback _ _ _ _ _ _ _); [|discriminate].
    injection H as <- _. split; reflexivity.
Qed.

Lemma moved_frame fi cf cf' :
  moved fi cf cf' ->
  bucketNum cf' = bucketNum cf /\ expansion cf' = expansion cf.
Proof. intros (_ & -> & _). split; reflexivity. Qed.

Lemma compactSingle_frame fi cf cf' rv :
  wf cf -> compactSingle cf (Z.of_nat fi) = Ok (cf', rv) ->
  bucketNum cf' = bucketNum cf /\ expansion cf' = expansion cf.
Proof.
  intros H Hs. unfold compactSingle in Hs.
  destruct (idx (filters cf) (Z.of_nat fi)) as [cur|]; [|discriminate].
  cbn [bind] in Hs.
  destruct (compact_buckets _ 0 _ cf (Z.of_nat fi) relocOk)
    as [[cf2 rv2]|] eqn:Hb; [|discriminate].
  cbn [bind] in Hs.
  assert (H00 : 0 <= 0) by lia.
  destruct (compact_buckets_moved _ _ _ _ _ _ _ _ H H00 Hb) as [Hm _].
  destruct (moved_frame _ _ _ Hm) as [Eb Ee].
  destruct (_ && _); injection Hs as <- _; simpl; auto.
Qed.

Lemma compact_from_frame n :
  forall cf cont cf',
    wf cf -> limits cf -> compact_from n cf cont = Ok cf' ->
    bucketNum cf' = bucketNum cf /\ expansion cf' = expansion cf.
Proof.
  induction n as [|n IH]; intros cf cont cf' H Hlim Hrun.
  - injection Hrun as <-. auto.
  - cbn [compact_from] in Hrun.
    destruct (compactSingle cf (Z.of_nat (S n))) as [[cf1 rv]|] eqn:Hs;
      [|discriminate].
    cbn [bind] in Hrun.
    destruct (compactSingle_frame _ _ _ _ H Hs) as [Eb Ee].
    assert (H1n : (1 <= S n)%nat) by lia.
    destruct (compactSingle_keeps _ _ _ _ H Hlim H1n Hs) as (Hwf1 & Hlim1 & _).
    destruct ((rv =? relocFail) && negb cont).
    + injection Hrun as <-. auto.
    + destruct (IH _ _ _ Hwf1 Hlim1 Hrun) as [Eb' Ee']. split; congruence.
Qed.

Lemma compact_frame cf cont cf' :
  wf cf -> limits cf -> compact cf cont = Ok cf' ->
  bucketNum cf' = bucketNum cf /\ expansion cf' = expansion cf.
Proof.
  intros H Hlim Hrun. unfold compact in Hrun.
  destruct (compact_from _ cf cont) as [cf1|] eqn:Hc; [|discriminate].
  cbn [bind] in Hrun. injection Hrun as <-.
  exact (compact_from_frame _ _ _ _ H Hlim Hc).
Qed.

(** ** Sizes *)

Lemma grown_exact base e n :
  is_pow2 base -> is_pow2 e -> 0 <= n ->
  u64 (base * e ^ n) <> 0 -> u64 (base * e ^ n) = base * e ^ n.
Proof.
  intros [Hb0 Hb] [He0 He] Hn Hne.
  pose proof (Z.log2_nonneg base) as Ha. pose proof (Z.log2_nonneg e) as Hk.
  set (a := Z.log2 base) in *. set (k := Z.log2 e) in *.
  assert (Heq : base * e ^ n = 2 ^ (a + k * n)).
  { rewrite Hb, He at 1. rewrite <- Z.pow_mul_r, <- Z.pow_add_r by lia.
    reflexivity. }
  rewrite Heq in *.
  destruct (Z_lt_le_dec (a + k * n) 64) as [Hlt|Hge].
  - assert (2 ^ (a + k * n) < 2 ^ 64) by (apply Z.pow_lt_mono_r; lia).
    assert (0 < 2 ^ (a + k * n)) by (apply Z.pow_pos_nonneg; lia).
    apply u64_small. lia.
  - exfalso. apply Hne. unfold u64, wrap.
    replace (a + k * n) with ((a + k * n - 64) + 64) by lia.
    rewrite Z.pow_add_r by lia. apply Z.mod_mul. lia.
Qed.

Lemma geometric_prefix cf cf' :
  bucketNums cf' `prefix_of` bucketNums cf ->
  bucketNum cf' = bucketNum cf -> expansion cf' = expansion cf ->
  geometric cf -> geometric cf'.
Proof.
  intros [k Hk] Eb Ee Hg i n Hi. rewrite Eb, Ee. apply Hg.
  rewrite Hk. apply lookup_app_l_Some. exact Hi.
Qed.

Lemma sorted_of_lookup (l : list Z) :
  (forall (i j : nat) a b,
      (i <= j)%nat -> l !! i = Some a -> l !! j = Some b -> a <= b) ->
  non_decreasing l.
Proof.
  induction l as [|x l IH]; intros H; simpl; [exact I|]. split.
  - apply Forall_lookup. intros j b Hb.
    apply (H O (S j)); [lia|reflexivity|exact Hb].
  - apply IH. intros i j a b Hij Ha Hb.
    apply (H (S i) (S j)); [lia|assumption..].
Qed.

(** Within the limits the sizes [bucketNum * expansion ^ i] do not
    decrease. *)
Lemma geometric_ascending cf :
  wf cf -> limits cf -> geometric cf -> ascending cf.
Proof.
  intros H Hlim Hg. apply sorted_of_lookup. intros i j a b Hij Ha Hb.
  assert (Hpos : forall (g : nat) n, bucketNums cf !! g = Some n -> 0 < n).
  { intros g n Hn. unfold bucketNums in Hn. rewrite list_lookup_fmap in Hn.
    destruct (filters cf !! g) as [s|] eqn:Hs; [|discriminate].
    injection Hn as <-. exact (proj1 (limits_lookup _ _ _ H Hlim Hs)). }
  pose proof (Hpos _ _ Ha) as Ha0. pose proof (Hpos _ _ Hb) as Hb0.
  rewrite (Hg _ _ Ha) in Ha0 |- *. rewrite (Hg _ _ Hb) in Hb0 |- *.
  wf_split H. destruct Hbnp as [HB _].
  destruct (decide (expansion cf = 0)) as [He|He].
  - rewrite He in *.
    destruct j as [|j]; [replace i with O by lia; lia|].
    rewrite Z.pow_0_l in Hb0 by lia. lia.
  - assert (expansion cf ^ Z.of_nat i <= expansion cf ^ Z.of_nat j)
      by (apply Z.pow_le_mono_r; lia).
    nia.
Qed.

Lemma grow_geometric cf cf2 :
  wf cf -> Z.of_nat (length (filters cf)) <= 65535 ->
  grow cf = Ok cf2 -> wf cf2 -> geometric cf -> geometric cf2.
Proof.
  intros H Hlen Hgr Hwf2 Hg. apply grow_Ok in Hgr as [_ ->].
  destruct (wf_filterNum cf H Hlen) as [Hfeq _].
  set (bn := u64 (bucketNum cf * expansion cf ^ filterNum cf)) in *.
  assert (Hnew : filters (with_filterNum
                   (with_filters cf (filters cf ++ [empty_subCF bn (bucketSize cf)]))
                   (u16 (filterNum cf + 1))) !! length (filters cf)
                 = Some (empty_subCF bn (bucketSize cf))).
  { simpl. rewrite lookup_app_r by lia. rewrite Nat.sub_diag. reflexivity. }
  destruct (wf_lookup _ _ _ Hwf2 Hnew) as (_ & [Hbn0 _] & _).
  cbn [sBucketNum empty_subCF] in Hbn0.
  pose proof H as H'. wf_split H'.
  assert (Hexact : bn = bucketNum cf * expansion cf ^ filterNum cf).
  { destruct Hexp as [He|He].
    - exfalso. unfold bn in Hbn0. rewrite He in Hbn0.
      rewrite Z.pow_0_l, Z.mul_0_r in Hbn0 by lia. vm_compute in Hbn0.
      discriminate.
    - apply grown_exact; try assumption; [lia|]. fold bn. lia. }
  intros i n Hi. unfold bucketNums in Hi. simpl in Hi |- *.
  rewrite fmap_app in Hi.
  destruct (decide (i < length (filters cf))%nat) as [Hlt|Hge].
  - rewrite lookup_app_l in Hi by (rewrite length_fmap; exact Hlt).
    exact (Hg i n Hi).
  - rewrite lookup_app_r in Hi by (rewrite length_fmap; lia).
    rewrite length_fmap in Hi.
    destruct (i - length (filters cf))%nat as [|m] eqn:Hm; [|discriminate].
    simpl in Hi. injection Hi as <-. rewrite Hexact, Hfeq. f_equal. f_equal. lia.
Qed.

Lemma insertFp_geometric fuel cf pr cf' st :
  wf cf ->
  insertFp fuel cf pr = Ok (cf', st) ->
  Z.of_nat (length (filters cf')) <= 65535 ->
  geometric cf -> geometric cf'.
Proof.
  intros H Hrun Hlen' Hg.
  pose proof (insertFp_bucketNums _ _ _ _ _ Hrun) as Hpre.
  apply prefix_length in Hpre. unfold bucketNums in Hpre.
  rewrite !length_fmap in Hpre.
  destruct (insertFp_cases _ _ _ _ _ H Hrun Hlen')
    as [[_ Hscan]|[[_ (cf1 & Hev & ->)]|[[_ ->]|[_ (cf2 & Hgr & Hwf2 & Hscan)]]]].
  - destruct (insert_scan_frame _ _ _ _ Hscan) as [Eb Ee].
    apply (geometric_prefix cf); try assumption.
    rewrite (insert_scan_bucketNums _ _ _ _ Hscan). done.
  - destruct (evictAndInsert_frame _ _ _ _ Hev) as [Eb Ee].
    apply (geometric_prefix cf); try assumption.
    unfold bucketNums. simpl.
    pose proof (evictAndInsert_bucketNums _ _ _ _ Hev) as Hb.
    unfold bucketNums in Hb. rewrite Hb. done.
  - exact Hg.
  - destruct (insert_scan_frame _ _ _ _ Hscan) as [Eb Ee].
    apply (geometric_prefix cf2); try assumption.
    + rewrite (insert_scan_bucketNums _ _ _ _ Hscan). done.
    + apply (grow_geometric cf); try assumption. lia.
Qed.

Section Sizes.

Variable MurmurHash64A : list Byte.byte -> Z -> Z.
Variable over_tenth : Z -> Z -> bool.

Abbreviation reachable := (reachable MurmurHash64A over_tenth).

Lemma delete_scan_frame n cf pr cf' ok :
  wf cf -> limits cf -> fp pr <> nullFp ->
  delete_scan over_tenth n cf pr = Ok (cf', ok) ->
  bucketNum cf' = bucketNum cf /\ expansion cf' = expansion cf.
Proof.
  intros H Hlim Hfp. induction n as [|n IH]; intros Hrun.
  - injection Hrun as <- <-. auto.
  - cbn [delete_scan] in Hrun.
    destruct (idx (filters cf) (Z.of_nat n)) as [s|] eqn:Hs; [|discriminate].
    cbn [bind] in Hrun. apply idx_Ok in Hs. rewrite Nat2Z.id in Hs.
    destruct (sub_delete s pr) as [[s' [|]]|] eqn:Hdel; [| |discriminate];
      cbn [bind] in Hrun; [|exact (IH Hrun)].
    destruct (sub_delete_found _ _ _ _ (wf_lookup _ _ _ H Hs) Hfp Hdel)
      as (Hs' & Hnum & _).
    set (cf1 := with_deleteNum
                  (with_itemNum (with_filters cf (<[n := s']> (filters cf)))
                                (u64 (itemNum cf - 1)))
                  (u64 (deleteNum cf + 1))) in *.
    assert (Hwf1 : wf cf1) by (apply (wf_update cf n s' H Hs')).
    assert (Hp1 : bucketNums cf1 `prefix_of` bucketNums cf)
      by (rewrite (bucketNums_update cf n s s' Hs Hnum : bucketNums cf1 = _); done).
    pose proof (limits_bucketNums _ _ Hp1 Hlim) as Hlim1.
    destruct ((1 <? filterNum cf1) && over_tenth (deleteNum cf1) (itemNum cf1)).
    + destruct (compact cf1 false) as [cf2|] eqn:Hc; [|discriminate].
      cbn [bind] in Hrun. injection Hrun as <- <-.
      exact (compact_frame _ _ _ Hwf1 Hlim1 Hc).
    + injection Hrun as <- <-. auto.
Qed.

Lemma apply_op_geometric fuel cf o cf' out :
  wf cf -> limits cf -> geometric cf ->
  apply_op MurmurHash64A over_tenth fuel cf o = Ok (cf', out) ->
  limits cf' ->
  geometric cf'.
Proof.
  intros H Hlim Hg Hop Hlim'.
  destruct o as [d|d|d|d]; simpl in Hop.
  - unfold Insert in Hop.
    destruct (insertFp fuel cf (buildParams MurmurHash64A d)) as [[cf1 st]|] eqn:Hi;
      [|discriminate].
    simpl in Hop. injection Hop as <- _.
    exact (insertFp_geometric _ _ _ _ _ H Hi (proj1 Hlim') Hg).
  - unfold Delete in Hop.
    destruct (delete_scan _ _ cf _) as [[cf1 b]|] eqn:Hd; [|discriminate].
    simpl in Hop. injection Hop as <- _.
    assert (Hfp : fp (buildParams MurmurHash64A d) <> nullFp)
      by apply paramsOfHash_keyed.
    destruct (delete_scan_frame _ _ _ _ _ H Hlim Hfp Hd) as [Eb Ee].
    pose proof (geometric_ascending _ H Hlim Hg) as Hasc.
    destruct (delete_scan_stored _ _ _ _ _ _ H Hlim Hasc Hfp Hd)
      as (_ & _ & _ & Hpre & _).
    exact (geometric_prefix _ _ Hpre Eb Ee Hg).
  - unfold Exist in Hop. destruct (existFp cf _); [|discriminate].
    simpl in Hop. injection Hop as <- _. exact Hg.
  - unfold Count in Hop. destruct (count_scan _ _ _); [|discriminate].
    simpl in Hop. injection Hop as <- _. exact Hg.
Qed.

Lemma reachable_geometric cf : reachable cf -> geometric cf.
Proof.
  induction 1 as [c bs mi e cf Hc Hbs Hmi He Hnew Hlim
                 |fuel cf o cf' out Hr Hg Hop Hlim'].
  - assert (Hbs1 : 1 <= bs).
    { destruct (decide (bs = 0)) as [->|]; [discriminate|lia]. }
    rewrite (NewCuckooFilter_value c bs mi e Hc Hbs1) in Hnew.
    injection Hnew as <-. intros [|i] n Hi; [|discriminate].
    injection Hi as <-. simpl. rewrite Z.pow_0_r. lia.
  - destruct (reachable_inv _ _ _ Hr) as (Hwf & Hlim & _).
    exact (apply_op_geometric _ _ _ _ _ Hwf Hlim Hg Hop Hlim').
Qed.

(** X15: in every filter reached from [NewCuckooFilter] by calls of
    [Insert], [Delete], [Exist] and [Count], within 65535 generations of at
    most [2^32] buckets, generation [i] has [bucketNum * expansion ^ i]
    buckets, and no generation has more buckets than a newer one. *)
Theorem reachable_generation_sizes cf :
  reachable cf ->
  (forall (i : nat) s,
      filters cf !! i = Some s ->
      sBucketNum s = bucketNum cf * expansion cf ^ Z.of_nat i) /\
  ascending cf.
Proof.
  intros Hr. pose proof (reachable_geometric cf Hr) as Hg.
  destruct (reachable_inv _ _ _ Hr) as (Hwf & Hlim & _).
  split; [|exact (geometric_ascending _ Hwf Hlim Hg)].
  intros i s Hs. apply Hg. unfold bucketNums.
  rewrite list_lookup_fmap, Hs. reflexivity.
Qed.

(** X16: in such a filter a key that [Exist] reports is still reported
    after any further call that stays within the limits, unless the call
    is a [Delete] of a key with the same fingerprint. *)
Theorem reachable_key_survives fuel cf o cf' out data :
  reachable cf ->
  Exist MurmurHash64A cf data = Ok (cf, true) ->
  apply_op MurmurHash64A over_tenth fuel cf o = Ok (cf', out) ->
  limits cf' ->
  (forall d, o = OpDelete d ->
     fp (buildParams MurmurHash64A d) <> fp (buildParams MurmurHash64A data)) ->
  Exist MurmurHash64A cf' data = Ok (cf', true).
Proof.
  intros Hr Hex Hop Hlim' Hdel.
  destruct (reachable_inv _ _ _ Hr) as (Hwf & Hlim & _).
  assert (Hr' : reachable cf') by (exact (reach_call _ _ _ _ _ _ _ Hr Hop Hlim')).
  destruct (reachable_inv _ _ _ Hr') as (Hwf' & _ & _).
  pose proof (geometric_ascending _ Hwf Hlim (reachable_geometric cf Hr)) as Hasc.
  assert (Hq : keyed (buildParams MurmurHash64A data)) by apply paramsOfHash_keyed.
  apply (Exist_stored _ cf data Hwf) in Hex.
  apply (Exist_stored _ cf' data Hwf').
  destruct o as [d|d|d|d].
  - assert (Hadr : addressable cf').
    { unfold addressable, bucketNums. rewrite Forall_fmap. apply Forall_lookup.
      intros i s Hs. exact (limits_lookup _ _ _ Hwf' Hlim' Hs). }
    destruct (apply_op_stored MurmurHash64A over_tenth fuel cf (OpInsert d)
                cf' out Hwf eq_refl Hop Hadr)
      as (_ & Hold & _).
    exact (Hold _ Hq Hex).
  - simpl in Hop. unfold Delete in Hop.
    destruct (delete_scan _ _ cf _) as [[cf1 b]|] eqn:Hd; [|discriminate].
    simpl in Hop. injection Hop as <- _.
    assert (Hfp : fp (buildParams MurmurHash64A d) <> nullFp)
      by apply paramsOfHash_keyed.
    destruct (delete_scan_stored _ _ _ _ _ _ Hwf Hlim Hasc Hfp Hd)
      as (_ & _ & _ & _ & Hkeep).
    apply Hkeep; [exact Hq | | exact Hex].
    intros E. exact (Hdel d eq_refl (eq_sym E)).
  - simpl in Hop. unfold Exist in Hop. destruct (existFp cf _); [|discriminate].
    simpl in Hop. injection Hop as <- _. exact Hex.
  - simpl in Hop. unfold Count in Hop. destruct (count_scan _ _ _); [|discriminate].
    simpl in Hop. injection Hop as <- _. exact Hex.
Qed.

End Sizes.

Lemma two_filters_reachable : reachable le_hash tenth two_filters.
Proof.
  assert (Hlim : forall cf, bool_decide (limits cf) = true -> limits cf)
    by (intros cf H; apply (bool_decide_unpack _); rewrite H; exact I).
  assert (H0 : reachable le_hash tenth
                 (mkCF 2 1 0 0 1 1 1 [mkSubCF 2 1 [[0]; [0]]])).
  { apply (reach_new _ _ 2 1 1 1); try lia; [|apply Hlim]; vm_compute; reflexivity. }
  assert (H1 : reachable le_hash tenth
                 (mkCF 2 1 1 0 1 1 1 [mkSubCF 2 1 [[2]; [0]]])).
  { apply (reach_call _ _ 2%nat _ (OpInsert [x00; x01]) _ (Done true) H0);
      [|apply Hlim]; vm_compute; reflexivity. }
  assert (H2 : reachable le_hash tenth
                 (mkCF 2 1 2 0 1 1 2
                    [mkSubCF 2 1 [[2]; [0]]; mkSubCF 2 1 [[4]; [0]]])).
  { apply (reach_call _ _ 2%nat _ (OpInsert [x02; x01]) _ (Done true) H1);
      [|apply Hlim]; vm_compute; reflexivity. }
  apply (reach_call _ _ 2%nat _ (OpInsert [x01]) _ (Done true) H2);
    [|apply Hlim]; vm_compute; reflexivity.
Qed.

Lemma reachable_generation_sizes_witness :
  reachable le_hash tenth two_filters /\
  (forall (i : nat) s,
      filters two_filters !! i = Some s ->
      sBucketNum s = bucketNum two_filters * expansion two_filters ^ Z.of_nat i) /\
  ascending two_filters.
Proof.
  split; [exact two_filters_reachable|].
  exact (reachable_generation_sizes le_hash tenth two_filters
           two_filters_reachable).
Defined.

Lemma reachable_key_survives_witness :
  reachable le_hash tenth two_filters /\
  Exist le_hash two_filters [x02; x01] = Ok (two_filters, true) /\
  apply_op le_hash tenth 2 two_filters (OpDelete [x00; x01])
    = Ok (two_filters_deleted, Done true) /\
  limits two_filters_deleted /\
  Exist le_hash two_filters_deleted [x02; x01] = Ok (two_filters_deleted, true).
Proof.
  assert (Hex : Exist le_hash two_filters [x02; x01] = Ok (two_filters, true))
    by (vm_compute; reflexivity).
  assert (Hop : apply_op le_hash tenth 2 two_filters (OpDelete [x00; x01])
                = Ok (two_filters_deleted, Done true))
    by (vm_compute; reflexivity).
  assert (Hlim : limits two_filters_deleted)
    by (apply (bool_decide_unpack _); vm_compute; exact I).
  split_and!; try assumption; [exact two_filters_reachable|].
  apply (reachable_key_survives le_hash tenth 2 two_filters
           (OpDelete [x00; x01]) two_filters_deleted (Done true) [x02; x01]
           two_filters_reachable Hex Hop Hlim).
  intros d [= <-]. vm_compute. discriminate.
Defined.

